(** * AddBlurryImagePlaceholders: a shallow embedding and its properties

    The transformer of [packages/optimizer/lib/transformers/
    AddBlurryImagePlaceholders.js] walks the body of a parsed document,
    selects JPEG [amp-img] / [amp-video] elements and appends to each a
    blurred placeholder built from a down-sampled bitmap.

    This development embeds the functions of that file:
    - JavaScript strings are sequences of UTF-16 code units ([list N]);
    - JavaScript numbers are IEEE 754 binary64 values ([spec_float] with
      precision 53 and maximal exponent 1024);
    - an [attribs] object is a finite map from names to values;
    - the document is a rose tree; a node is identified by its position in
      document order, which is how the walker's cursor reaches it;
    - rejected promises and thrown exceptions are values of [Result];
    - node.js, jimp and the tree adapter are the fields of [Platform]. *)

From Stdlib Require Import ZArith NArith Lia List Bool String Ascii.
From Stdlib Require Import Floats.SpecFloat Numbers.DecimalString.
From Stdlib Require Import Reals Lra.
From stdpp Require Import base option list gmap.
Import ListNotations.

Set Default Proof Using "Type".

(* ===================================================================== *)
(** * Strings *)
(* ===================================================================== *)

(** A JavaScript string: its UTF-16 code units. *)
Abbreviation jsstring := (list N).

(** The code units of an ASCII literal. *)
Fixpoint js (s : string) : jsstring :=
  match s with
  | EmptyString => []
  | String a r => N_of_ascii a :: js r
  end.

(** The double quote, code unit 34. *)
Definition dquote : N := 34%N.

(** [String.prototype.endsWith(searchString)] with the default end position:
    the last [length searchString] code units are compared. *)
Definition endsWith (s searchString : jsstring) : bool :=
  let len := length s in
  let searchLength := length searchString in
  if (searchLength <=? len)%nat
  then bool_decide (drop (len - searchLength) s = searchString)
  else false.

(** [ToString] of an integral number. *)
Definition Number_toString (z : Z) : jsstring :=
  js (NilZero.string_of_int (Z.to_int z)).

(* ===================================================================== *)
(** * Numbers *)
(* ===================================================================== *)

Definition prec : Z := 53.
Definition emax : Z := 1024.

(** A JavaScript number. *)
Abbreviation number := spec_float.

Definition NaN : number := S754_nan.
Definition Infinity : number := S754_infinity false.

(** The number with the value of an integer. *)
Definition ofZ (z : Z) : number := binary_normalize prec emax z 0 false.

(** [x / y] and [Math.sqrt(x)]. *)
Definition Number_div (x y : number) : number := SFdiv prec emax x y.
Definition Math_sqrt (x : number) : number := SFsqrt prec emax x.

(** [Math.round(x)]: the integer closest to [x], ties towards +Infinity;
    NaN, the infinities, the zeros and integral values are returned as they
    are, and a negative [x] that rounds to zero gives -0. *)
Definition Math_round (x : number) : number :=
  match x with
  | S754_finite s m e =>
      if (0 <=? e)%Z then x
      else
        let v := cond_Zopp s (Z.pos m) in
        let r := ((2 * v + 2 ^ (- e)) / 2 ^ (1 - e))%Z in
        if s && (r =? 0)%Z then S754_zero true else ofZ r
  | _ => x
  end.

(** The integer a number stands for, when it is finite and integral. *)
Definition toZ (x : number) : option Z :=
  match x with
  | S754_zero _ => Some 0%Z
  | S754_finite s m e =>
      if (0 <=? e)%Z then Some (cond_Zopp s (Z.pos m) * 2 ^ e)%Z
      else if (Z.pos m mod 2 ^ (- e) =? 0)%Z
           then Some (cond_Zopp s (Z.pos m / 2 ^ (- e)))%Z
           else None
  | _ => None
  end.

(** The second half of [binary_round_aux]: the number of a rounded mantissa
    and its exponent. *)
Definition finish (m : Z) (e : Z) : number :=
  let '(mrs, e') := shr_fexp prec emax m e loc_Exact in
  match shr_m mrs with
  | Z0 => S754_zero false
  | Zpos m => if (e' <=? emax - prec)%Z then S754_finite false m e' else S754_infinity false
  | _ => S754_nan
  end.

(** The real number a finite number stands for. *)
Definition numberValue (x : number) : R :=
  match x with
  | S754_finite s m e => (IZR (cond_Zopp s (Z.pos m)) * powerRZ 2 e)%R
  | _ => 0%R
  end.

(** A positive number with a mantissa of 53 bits and an exponent between
    [lo] and [hi]. *)
Definition normalNumber (lo hi : Z) (x : number) : Prop :=
  exists (M : positive) (E : Z),
    x = S754_finite false M E /\ Z.pos (digits2_pos M) = 53%Z /\ (lo <= E <= hi)%Z.

(* ===================================================================== *)
(** * Errors *)
(* ===================================================================== *)

(** The outcome of a call that may throw, or of a promise that may reject;
    an error is represented by its [message]. *)
Inductive Result (A : Type) : Type :=
| Ok (a : A)
| Err (message : jsstring).
Arguments Ok {A} a.
Arguments Err {A} message.

#[global] Instance Result_ret : MRet Result := fun A a => Ok a.
#[global] Instance Result_bind : MBind Result := fun A B k r =>
  match r with
  | Ok a => k a
  | Err m => Err m
  end.

(** [try { r } catch (e) { handler(e) }], also [promise.catch(handler)]. *)
Definition catch {A} (r : Result A) (handler : jsstring -> Result A) : Result A :=
  match r with
  | Ok a => Ok a
  | Err m => handler m
  end.

(* ===================================================================== *)
(** * Constants *)
(* ===================================================================== *)

Definition PIXEL_TARGET : number := ofZ 60.
Definition MAX_BLURRED_PLACEHOLDERS : nat := 5.

(** [ESCAPE_TABLE]: an object used as a map from a one-character key to its
    replacement. *)
Definition ESCAPE_TABLE : gmap N jsstring :=
  <[ 35%N := js "%23" ]> (        (* # *)
  <[ 37%N := js "%25" ]> (        (* % *)
  <[ 58%N := js "%3A" ]> (        (* : *)
  <[ 60%N := js "%3C" ]> (        (* < *)
  <[ 62%N := js "%3E" ]> (        (* > *)
  <[ dquote := js "'" ]> ∅))))).  (* double quote *)

(** [ESCAPE_REGEX] is the alternation of the keys of the table, each a
    single character: a code unit matches when it is a key. *)
Definition ESCAPE_REGEX (c : N) : bool := bool_decide (is_Some (ESCAPE_TABLE !! c)).

Definition escaper (c : N) : jsstring := default [] (ESCAPE_TABLE !! c).

(* ===================================================================== *)
(** * Bitmap dimensions *)
(* ===================================================================== *)

Record Dimensions := { width : number; height : number }.

(** [getBitmapDimensions_(imgWidth, imgHeight)]. The source has no [throw]
    and arithmetic on numbers never throws, so the call always returns. *)
Definition getBitmapDimensions_ (imgWidth imgHeight : number) : Result Dimensions :=
  let ratioWH := Number_div imgWidth imgHeight in
  let bitmapHeight := Number_div PIXEL_TARGET ratioWH in
  let bitmapHeight := Math_sqrt bitmapHeight in
  let bitmapWidth := Number_div PIXEL_TARGET bitmapHeight in
  Ok {| width := Math_round bitmapWidth; height := Math_round bitmapHeight |}.

(** The formula of the specification, which divides by the rounded height:
    [h = round(sqrt(P / r))], [w = round(P / h)]. *)
Definition spec_size (sourceWidth sourceHeight : number) : Dimensions :=
  let r := Number_div sourceWidth sourceHeight in
  let h := Math_round (Math_sqrt (Number_div PIXEL_TARGET r)) in
  let w := Math_round (Number_div PIXEL_TARGET h) in
  {| width := w; height := h |}.

(* ===================================================================== *)
(** * Placeholder markup *)
(* ===================================================================== *)

(** The class [\s] of a regular expression: white space and line
    terminators. *)
Definition isWhiteSpace (c : N) : bool :=
  ((9 <=? c) && (c <=? 13) || (c =? 32) || (c =? 160) || (c =? 5760)
   || (8192 <=? c) && (c <=? 8202) || (c =? 8232) || (c =? 8233)
   || (c =? 8239) || (c =? 8287) || (c =? 12288) || (c =? 65279))%N.

Definition SPACE : N := 32%N.

(** [svg.replace(/\s+/g, ' ')]. The scan goes left to right and a match is a
    maximal run; [inRun] tells that the previous code unit belonged to the
    run being replaced. *)
Fixpoint replaceWhiteSpace (inRun : bool) (svg : jsstring) : jsstring :=
  match svg with
  | [] => []
  | c :: rest =>
      if isWhiteSpace c
      then (if inRun then [] else [SPACE]) ++ replaceWhiteSpace true rest
      else c :: replaceWhiteSpace false rest
  end.

(** [svg.replace(/> </g, '><')]: after a match the scan resumes behind it. *)
Fixpoint replaceGtLt (svg : jsstring) : jsstring :=
  match svg with
  | [] => []
  | c :: rest =>
      match rest with
      | s :: l :: rest' =>
          if ((c =? 62) && (s =? 32) && (l =? 60))%N
          then 62%N :: 60%N :: replaceGtLt rest'
          else c :: replaceGtLt rest
      | _ => c :: replaceGtLt rest
      end
  end.

(** [svg.replace(ESCAPE_REGEX, escaper)]: one pass over the input, each
    matching code unit replaced by its table entry. *)
Fixpoint escape (svg : jsstring) : jsstring :=
  match svg with
  | [] => []
  | c :: rest => (if ESCAPE_REGEX c then escaper c else [c]) ++ escape rest
  end.

Definition optimize (svg : jsstring) : jsstring :=
  let svg := replaceWhiteSpace false svg in
  let svg := replaceGtLt svg in
  escape svg.

(** What [getDataURI_] resolves with. *)
Record DataURI := { uri_src : jsstring; uri_width : Z; uri_height : Z }.

Definition quoted (s : jsstring) : jsstring := dquote :: s ++ [dquote].
Definition line (indent : nat) (s : jsstring) : jsstring :=
  10%N :: repeat SPACE indent ++ s.

(** The template literal of [addBlurryPlaceholder_], line by line. *)
Definition svgTemplate (dataURI : DataURI) : jsstring :=
  js "<svg xmlns=" ++ quoted (js "http://www.w3.org/2000/svg")
  ++ line 22 (js "xmlns:xlink=" ++ quoted (js "http://www.w3.org/1999/xlink"))
  ++ line 22 (js "viewBox="
              ++ quoted (js "0 0 " ++ Number_toString (uri_width dataURI)
                         ++ js " " ++ Number_toString (uri_height dataURI))
              ++ js ">")
  ++ line 22 (js "<filter id=" ++ quoted (js "b")
              ++ js " color-interpolation-filters=" ++ quoted (js "sRGB") ++ js ">")
  ++ line 24 (js "<feGaussianBlur stdDeviation=" ++ quoted (js ".5")
              ++ js "></feGaussianBlur>")
  ++ line 24 (js "<feComponentTransfer>")
  ++ line 26 (js "<feFuncA type=" ++ quoted (js "discrete")
              ++ js " tableValues=" ++ quoted (js "1 1") ++ js "></feFuncA>")
  ++ line 24 (js "</feComponentTransfer>")
  ++ line 22 (js "</filter>")
  ++ line 22 (js "<image filter=" ++ quoted (js "url(#b)")
              ++ js " x=" ++ quoted (js "0") ++ js " y=" ++ quoted (js "0"))
  ++ line 24 (js "height=" ++ quoted (js "100%")
              ++ js " width=" ++ quoted (js "100%"))
  ++ line 24 (js "xlink:href=" ++ quoted (uri_src dataURI) ++ js ">")
  ++ line 22 (js "</image>")
  ++ line 20 (js "</svg>").

Definition DATA_URI_PREFIX : jsstring := js "data:image/svg+xml;charset=utf-8,".

(* ===================================================================== *)
(** * The document tree *)
(* ===================================================================== *)

(** A node of the parsed document: an element with its tag name, its
    [attribs] object and its children, or a node without tag name and
    attributes (text, comment, directive). *)
#[local] Unset Elimination Schemes.
Inductive Node : Type :=
| Element (tag : jsstring) (attrs : gmap jsstring jsstring) (children : list Node)
| Text (data : jsstring).
#[local] Set Elimination Schemes.

(** Induction on a node with the property available for all children. *)
Fixpoint Node_ind (P : Node -> Prop)
    (HElement : forall tag attrs children,
        Forall P children -> P (Element tag attrs children))
    (HText : forall data, P (Text data))
    (node : Node) : P node :=
  match node with
  | Element tag attrs children =>
      HElement tag attrs children
        ((fix all (nodes : list Node) : Forall P nodes :=
            match nodes with
            | [] => @List.Forall_nil Node P
            | c :: rest =>
                @List.Forall_cons Node P c rest (Node_ind P HElement HText c) (all rest)
            end) children)
  | Text data => HText data
  end.

(** [node.tagName], [undefined] on a node that is not an element. *)
Definition tagName (node : Node) : option jsstring :=
  match node with
  | Element tag _ _ => Some tag
  | Text _ => None
  end.

(** [node.attribs], [undefined] on a node that is not an element. *)
Definition attribs (node : Node) : option (gmap jsstring jsstring) :=
  match node with
  | Element _ attrs _ => Some attrs
  | Text _ => None
  end.

(** [node.attribs.name] of a node known to be an element. *)
Definition attr (node : Node) (name : string) : option jsstring :=
  attrs ← attribs node; attrs !! js name.

Definition childNodes (node : Node) : list Node :=
  match node with
  | Element _ _ children => children
  | Text _ => []
  end.

(** The nodes of a subtree in document order (pre-order): the node, then
    the subtrees of its children from first to last. *)
Fixpoint documentOrder (node : Node) : list Node :=
  node :: match node with
          | Element _ _ children => flat_map documentOrder children
          | Text _ => []
          end.

Definition forestOrder (nodes : list Node) : list Node :=
  flat_map documentOrder nodes.

(** [tree.createElement(tagName)]: a fresh element without attributes or
    children. *)
Definition createElement (tag : string) : Node := Element (js tag) ∅ [].

(** [node.attribs[name] = value]. *)
Definition setAttribute (node : Node) (name : string) (value : jsstring) : Node :=
  match node with
  | Element tag attrs children => Element tag (<[ js name := value ]> attrs) children
  | Text data => Text data
  end.

(** A parse5 tree adapter with its root node. *)
Record TreeAdapter := { root : Node }.

(** The runtime parameters; [imageBasePath] may be left out. *)
Record Params := { imageBasePath : option jsstring }.

(* ===================================================================== *)
(** * The selection policy *)
(* ===================================================================== *)

(** A value is truthy unless it is [undefined] or the empty string. *)
Definition truthy (v : option jsstring) : bool :=
  match v with
  | Some (_ :: _) => true
  | _ => false
  end.

(** The test of [hasPlaceholder_] on one child:
    [child.attribs && child.attribs.placeholder !== undefined]. *)
Definition isPlaceholder (child : Node) : bool :=
  match attribs child with
  | Some attrs => bool_decide (attrs !! js "placeholder" ≠ None)
  | None => false
  end.

(** [hasPlaceholder_(node)]. *)
Definition hasPlaceholder_ (node : Node) : bool :=
  bool_decide (find isPlaceholder (childNodes node) ≠ None).

(** [shouldAddBlurryPlaceholder_(node, src, tagName)]. *)
Definition shouldAddBlurryPlaceholder_
    (node : Node) (src : option jsstring) (tagName : option jsstring) : bool :=
  if negb (truthy src) then false
  else if hasPlaceholder_ node then false
  else
    let src := default [] src in
    if negb (endsWith src (js ".jpg")) && negb (endsWith src (js "jpeg")) then false
    else if bool_decide (tagName = Some (js "amp-img"))
            && bool_decide (attr node "noloading" ≠ None) then false
    else
      let isPoster := bool_decide (tagName = Some (js "amp-video")) in
      let isResponsiveImgWithLoading :=
        bool_decide (tagName = Some (js "amp-img"))
        && bool_decide (attr node "layout" = Some (js "responsive")) in
      isPoster || isResponsiveImgWithLoading.

(** The binding of [src] in the loop body of [transform]. *)
Definition candidateSource (node : Node) : option jsstring :=
  let src := None in
  let src := if bool_decide (tagName node = Some (js "amp-img"))
             then attr node "src" else src in
  let src := if bool_decide (tagName node = Some (js "amp-video"))
                && truthy (attr node "poster")
             then attr node "poster" else src in
  src.

(** An element qualifies when the loop body would launch its unit. *)
Definition qualifies (node : Node) : bool :=
  shouldAddBlurryPlaceholder_ node (candidateSource node) (tagName node).

Definition isTemplate (node : Node) : bool :=
  bool_decide (tagName node = Some (js "template")).

(* ===================================================================== *)
(** * Tree navigation *)
(* ===================================================================== *)

(** Modelled from the spec: [firstChildByTag] of the tree adapter, the
    lookup of the top-level document and body elements. The first child with
    the tag is returned between the children before and after it. *)
Fixpoint splitAtTag (tag : jsstring) (nodes : list Node)
  : option (list Node * Node * list Node) :=
  match nodes with
  | [] => None
  | c :: rest =>
      if bool_decide (tagName c = Some tag) then Some ([], c, rest)
      else '(before, x, after) ← splitAtTag tag rest; Some (c :: before, x, after)
  end.

Definition firstChildByTag (node : Node) (tag : string) : option Node :=
  '(_, x, _) ← splitAtTag (js tag) (childNodes node); Some x.

(** The nodes the cursor can reach from [body] with [nextNode], as a forest
    in document order: [body], the siblings after it, and the siblings after
    [html]. The listing [forestOrder] of this forest is the document order
    from [body] on. *)
Definition bodyRegion (tree : TreeAdapter) : option (list Node) :=
  '(_, html, afterHtml) ← splitAtTag (js "html") (childNodes (root tree));
  '(_, body, afterBody) ← splitAtTag (js "body") (childNodes html);
  Some (body :: afterBody ++ afterHtml).

(** Modelled from the spec: [node.nextNode()] of the tree adapter, the next
    node in document order (pre-order traversal). The cursor is the position
    of the node in the listing [order]; [None] is [null]. *)
Definition nextNode (order : list Node) (i : nat) : option nat :=
  if decide (S i < length order) then Some (S i) else None.

(** Modelled from the spec: [skipNodeAndChildren(node)] of HtmlDomHelper,
    which skips an entire subtree: the cursor advanced past the node and all
    its descendants, that is the first node in document order behind the
    subtree, [null] when there is none. *)
Definition skipNodeAndChildren (order : list Node) (i : nat) : option nat :=
  node ← order !! i;
  let j := i + length (documentOrder node) in
  if decide (j < length order) then Some j else None.

(** Modelled from the spec: [node.appendChild(img)] of the tree adapter
    appends as the last child; here for every node of a subtree at once.
    [unit i] is the child handed to the node at position [i] of the document
    order, the subtree starting at position [i]. *)
Fixpoint place (unit : nat -> option Node) (i : nat) (node : Node) : Node :=
  match node with
  | Element tag attrs children =>
      Element tag attrs
        ((fix placeForest (i : nat) (nodes : list Node) : list Node :=
            match nodes with
            | [] => []
            | c :: rest =>
                place unit i c :: placeForest (i + length (documentOrder c)) rest
            end) (S i) children
         ++ option_list (unit i))
  | Text data => Text data
  end.

Fixpoint placeForest (unit : nat -> option Node) (i : nat) (nodes : list Node)
  : list Node :=
  match nodes with
  | [] => []
  | c :: rest =>
      place unit i c :: placeForest unit (i + length (documentOrder c)) rest
  end.

(** The tree with the region from [body] on replaced. *)
Definition rebuild (tree : TreeAdapter) (region : list Node) : TreeAdapter :=
  match root tree with
  | Element rootTag rootAttrs rootChildren =>
      match splitAtTag (js "html") rootChildren with
      | Some (beforeHtml, Element htmlTag htmlAttrs htmlChildren, afterHtml) =>
          match splitAtTag (js "body") htmlChildren, region with
          | Some (beforeBody, _, afterBody), body :: others =>
              let html := Element htmlTag htmlAttrs
                            (beforeBody ++ body :: take (length afterBody) others) in
              {| root := Element rootTag rootAttrs
                           (beforeHtml ++ html :: drop (length afterBody) others) |}
          | _, _ => tree
          end
      | _ => tree
      end
  | Text _ => tree
  end.

(* ===================================================================== *)
(** * The path of the cursor *)
(* ===================================================================== *)

(** Whether the node at a position of the document order qualifies. *)
Definition qualifiesAt (order : list Node) (i : nat) : bool :=
  match order !! i with
  | Some n => qualifies n
  | None => false
  end.

(** The positions the cursor of the loop of [transform] takes when no unit
    is ever launched, so that the loop is never left by [break]: at a
    template the cursor is moved by [skipNodeAndChildren] and then, after
    [continue], by [nextNode]; at any other node by [nextNode]. *)
Fixpoint cursorPath (order : list Node) (fuel : nat) (node : option nat) : list nat :=
  match node with
  | None => []
  | Some i =>
      match fuel, order !! i with
      | S fuel, Some n =>
          i :: (if isTemplate n then
                  match skipNodeAndChildren order i with
                  | Some j => cursorPath order fuel (nextNode order j)
                  | None => []
                  end
                else cursorPath order fuel (nextNode order i))
      | _, _ => []
      end
  end.

(** The prefix of a path that ends at its [k]-th qualifying position, the
    whole path when it has fewer. *)
Fixpoint upToNth (order : list Node) (k : nat) (path : list nat) : list nat :=
  match k, path with
  | S k', i :: rest =>
      i :: upToNth order (if qualifiesAt order i then k' else k) rest
  | _, _ => []
  end.

(* ===================================================================== *)
(** * The platform *)
(* ===================================================================== *)

(** What [appendChild] does when it is handed [undefined] instead of a
    node. The method belongs to the tree adapter, whose code is not part of
    this file. *)
Inductive UndefinedChild :=
| Ignored
| Raises (message : jsstring).

(** The modules the transformer requires: [url], [path], [jimp] and the
    node methods of the tree adapter. *)
Class Platform := {
  (** A decoded image. *)
  Image : Type;
  (** [jimp.read(path)]: resolves with the decoded image or rejects. *)
  jimp_read : jsstring -> Result Image;
  (** [image.bitmap.width] and [image.bitmap.height]. *)
  bitmap : Image -> Z * Z;
  (** [image.resize(w, h, jimp.RESIZE_BEZIER)]. *)
  jimp_resize : Image -> number -> number -> Result Image;
  (** [image.getBase64Async('image/png')]. *)
  getBase64Async : Image -> Result jsstring;
  (** [new URL(path, base).toString()]; the constructor throws a TypeError
      when the two do not form a valid URL. *)
  URL_toString : jsstring -> jsstring -> Result jsstring;
  (** [path.join], [path.resolve] and [path.isAbsolute] on strings. *)
  path_join : jsstring -> jsstring -> jsstring;
  path_resolve : jsstring -> jsstring;
  path_isAbsolute : jsstring -> bool;
  (** [node.appendChild(undefined)]. *)
  appendChild_undefined : UndefinedChild;
}.

Section Transformer.
Context {platform : Platform}.

(** [resolvePath_(base, path)]. *)
Definition resolvePath_ (base path : jsstring) : Result jsstring :=
  catch (URL_toString path base)
        (fun e => Ok (path_resolve (path_join base path))).

(** [getDataURI_(img, params)]. The path is resolved before the promise
    chain is built, so the outer result is that of the call itself and the
    inner one the outcome of the promise it returns. A rejection anywhere in
    the chain reaches the final [catch], which rewrites the message and
    throws again. *)
Definition getDataURI_ (img : Node) (params : Params) : Result (Result DataURI) :=
  let basePath := default [] (imageBasePath params) in
  imageSrc ← resolvePath_ basePath (default [] (attr img "src"));
  Ok (catch
        (image ← jimp_read imageSrc;
         imgDimension ← getBitmapDimensions_ (ofZ (bitmap image).1)
                                              (ofZ (bitmap image).2);
         image ← jimp_resize image (width imgDimension) (height imgDimension);
         let width := (bitmap image).1 in
         let height := (bitmap image).2 in
         dataURI ← getBase64Async image;
         Ok {| uri_src := dataURI; uri_width := width; uri_height := height |})
        (fun message =>
           Err (js "Could not create placeholder for " ++ imageSrc
                ++ js ". Reason: " ++ message))).


(** What the promise of [addBlurryPlaceholder_] is fulfilled with: the
    finished [img], or [undefined] (the value of the [catch] handler)
    together with the line written by [log.error]. The promise never
    rejects. *)
Record Settled := { fulfilled : option Node; logged : list jsstring }.

(** [addBlurryPlaceholder_(tree, src, params)]. *)
Definition addBlurryPlaceholder_ (src : jsstring) (params : Params) : Result Settled :=
  let img := createElement "img" in
  let img := setAttribute img "class" (js "i-amphtml-blurry-placeholder") in
  let img := setAttribute img "placeholder" [] in
  let img := setAttribute img "src" src in
  promise ← getDataURI_ img params;
  Ok match promise with
     | Ok dataURI =>
         let svg := optimize (svgTemplate dataURI) in
         {| fulfilled := Some (setAttribute img "src" (DATA_URI_PREFIX ++ svg));
            logged := [] |}
     | Err message =>
         {| fulfilled := None;
            logged := [js "[AddBlurryImagePlaceholders]  " ++ message] |}
     end.

(* ===================================================================== *)
(** * transform *)
(* ===================================================================== *)

(** An entry of the array [promises]: the node the unit was launched for
    (its position in document order), the image reference, and what the
    promise of [addBlurryPlaceholder_] settles with. *)
Record Launch := { target : nat; source : jsstring; settled : Settled }.

(** The variables of the loop; [visited] is a ghost field that records the
    positions at which the loop body ran. *)
Record LoopState := {
  placeholders : nat;
  promises : list Launch;
  visited : list nat;
}.

(** How the loop ends: it is left by [break] or at [null], an exception
    escapes, or the fuel runs out ([loop_finishes]: it never does). *)
Inductive Completion :=
| Returned (s : LoopState)
| Thrown (s : LoopState)
| Unfinished (s : LoopState).

Definition visit (i : nat) (s : LoopState) : LoopState :=
  {| placeholders := placeholders s; promises := promises s;
     visited := visited s ++ [i] |}.

Definition launch (l : Launch) (s : LoopState) : LoopState :=
  {| placeholders := S (placeholders s); promises := promises s ++ [l];
     visited := visited s |}.

(** The [for] loop of [transform]: [node] is the cursor, [order] the
    document order from [body] on. After [continue] the update expression
    [node = node.nextNode()] runs, as after a completed iteration; when
    [skipNodeAndChildren] has found no node behind the template, there is
    nothing to call [nextNode] on and a TypeError is thrown. A call of
    [addBlurryPlaceholder_] that throws ends the loop as well. *)
Fixpoint loop (params : Params) (order : list Node) (fuel : nat)
    (node : option nat) (s : LoopState) : Completion :=
  match node with
  | None => Returned s
  | Some i =>
      match fuel, order !! i with
      | S fuel, Some n =>
          let s := visit i s in
          if isTemplate n then
            match skipNodeAndChildren order i with
            | Some j => loop params order fuel (nextNode order j) s
            | None => Thrown s
            end
          else
            let src := candidateSource n in
            if shouldAddBlurryPlaceholder_ n src (tagName n) then
              match addBlurryPlaceholder_ (default [] src) params with
              | Ok p =>
                  let s := launch {| target := i; source := default [] src;
                                     settled := p |} s in
                  if (MAX_BLURRED_PLACEHOLDERS <=? placeholders s)%nat
                  then Returned s
                  else loop params order fuel (nextNode order i) s
              | Err _ => Thrown s
              end
            else loop params order fuel (nextNode order i) s
      | _, _ => Unfinished s
      end
  end.

Definition initial : LoopState :=
  {| placeholders := 0; promises := []; visited := [] |}.

Definition defaultParams : Params := {| imageBasePath := None |}.

(** The synchronous part of [transform(tree, params)], up to the call of
    [Promise.all]. A tree without [html] or [body] makes it throw. *)
Definition transform (tree : TreeAdapter) (params : option Params) : Completion :=
  let params := default defaultParams params in
  match bodyRegion tree with
  | None => Thrown initial
  | Some region =>
      let order := forestOrder region in
      loop params order (length order) (Some 0) initial
  end.

(** The callback [(img) => { node.appendChild(img); }] of one unit: whether
    the promise [p] is fulfilled or rejected. *)
Definition appended (l : Launch) : Result unit :=
  match fulfilled (settled l) with
  | Some img => Ok ()
  | None =>
      match appendChild_undefined with
      | Ignored => Ok ()
      | Raises message => Err message
      end
  end.

(** [Promise.all(promises)], the units settling in the order [schedule]:
    fulfilled when all are, rejected with the first rejection. *)
Fixpoint Promise_all (schedule : list Launch) : Result unit :=
  match schedule with
  | [] => Ok ()
  | l :: rest => _ ← appended l; Promise_all rest
  end.


(** The child the units hand to the node at position [i]. *)
Definition handedTo (promises : list Launch) (i : nat) : option Node :=
  l ← find (fun l => bool_decide (target l = i)) promises; fulfilled (settled l).

(** The tree once every unit has settled. Each unit appends to its own
    node, so the result does not depend on the order of settling. *)
Definition settledTree (tree : TreeAdapter) (promises : list Launch) : TreeAdapter :=
  match bodyRegion tree with
  | Some region => rebuild tree (placeForest (handedTo promises) 0 region)
  | None => tree
  end.

(** An entry of [promises] was launched for a qualifying node of the
    document order, with the reference and the promise of that node. *)
Definition launchedFor (params : Params) (order : list Node) (l : Launch) : Prop :=
  exists n,
    order !! target l = Some n
    /\ qualifies n = true
    /\ source l = default [] (candidateSource n)
    /\ addBlurryPlaceholder_ (source l) params = Ok (settled l).

(** What the completion leaves in the variables of the loop. *)
Definition stateOf (c : Completion) : LoopState :=
  match c with
  | Returned s | Thrown s | Unfinished s => s
  end.

(** The number of placeholder nodes from [body] on. *)
Definition placeholdersIn (tree : TreeAdapter) : nat :=
  match bodyRegion tree with
  | Some region => length (List.filter isPlaceholder (forestOrder region))
  | None => 0
  end.

(** One complete run: the tree after [transform] and all its units, when
    [transform] returned. *)
Definition run (tree : TreeAdapter) (params : option Params) : option TreeAdapter :=
  match transform tree params with
  | Returned s => Some (settledTree tree (promises s))
  | _ => None
  end.

End Transformer.

(* ===================================================================== *)
(** * Shapes of the optimized markup *)
(* ===================================================================== *)

(** Whether every white space code unit of a string is a space that does
    not follow another white space code unit; [afterSpace] tells that the
    code unit before the string is white space. *)
Fixpoint singleSpaced (afterSpace : bool) (svg : jsstring) : bool :=
  match svg with
  | [] => true
  | c :: rest =>
      if isWhiteSpace c
      then (c =? SPACE)%N && negb afterSpace && singleSpaced true rest
      else singleSpaced false rest
  end.

(** Whether [> <] occurs in a string. *)
Fixpoint hasGtSpaceLt (svg : jsstring) : bool :=
  match svg with
  | [] => false
  | c :: rest =>
      match rest with
      | s :: l :: _ => ((c =? 62) && (s =? 32) && (l =? 60))%N || hasGtSpaceLt rest
      | _ => hasGtSpaceLt rest
      end
  end.

(** The decoding of the escapes of [ESCAPE_TABLE]: [%] and two hexadecimal
    digits stand for the code unit with that number. *)
Definition hexDigit (c : N) : option N :=
  if ((48 <=? c) && (c <=? 57))%N then Some (c - 48)%N
  else if ((65 <=? c) && (c <=? 70))%N then Some (c - 55)%N
  else None.

Fixpoint percentDecode (svg : jsstring) : jsstring :=
  match svg with
  | [] => []
  | c :: rest =>
      match rest with
      | a :: b :: rest' =>
          match (if (c =? 37)%N
                 then x ← hexDigit a; y ← hexDigit b; Some (16 * x + y)%N
                 else None) with
          | Some unit => unit :: percentDecode rest'
          | None => c :: percentDecode rest
          end
      | _ => c :: percentDecode rest
      end
  end.

(** A string with each double quote turned into a single quote. *)
Definition singleQuoted (svg : jsstring) : jsstring :=
  map (fun c => if (c =? dquote)%N then 39%N else c) svg.

(** The three literal parts of the template of [addBlurryPlaceholder_],
    around the view box and the image reference ([svgTemplate_parts]). *)
Definition svgOpening : jsstring :=
  js "<svg xmlns=" ++ quoted (js "http://www.w3.org/2000/svg")
  ++ line 22 (js "xmlns:xlink=" ++ quoted (js "http://www.w3.org/1999/xlink"))
  ++ line 22 (js "viewBox=" ++ [dquote]).

Definition svgMiddle : jsstring :=
  dquote :: js ">"
  ++ line 22 (js "<filter id=" ++ quoted (js "b")
              ++ js " color-interpolation-filters=" ++ quoted (js "sRGB") ++ js ">")
  ++ line 24 (js "<feGaussianBlur stdDeviation=" ++ quoted (js ".5")
              ++ js "></feGaussianBlur>")
  ++ line 24 (js "<feComponentTransfer>")
  ++ line 26 (js "<feFuncA type=" ++ quoted (js "discrete")
              ++ js " tableValues=" ++ quoted (js "1 1") ++ js "></feFuncA>")
  ++ line 24 (js "</feComponentTransfer>")
  ++ line 22 (js "</filter>")
  ++ line 22 (js "<image filter=" ++ quoted (js "url(#b)")
              ++ js " x=" ++ quoted (js "0") ++ js " y=" ++ quoted (js "0"))
  ++ line 24 (js "height=" ++ quoted (js "100%")
              ++ js " width=" ++ quoted (js "100%"))
  ++ line 24 (js "xlink:href=" ++ [dquote]).

Definition svgClosing : jsstring :=
  dquote :: js ">" ++ line 22 (js "</image>") ++ line 20 (js "</svg>").

(* ===================================================================== *)
(** * A concrete platform and sample documents *)
(* ===================================================================== *)

(** A platform on which every image decodes to 640 x 480 except those whose
    path ends in [bad.jpg], no reference is a URL, and [appendChild]
    ignores [undefined]. *)
Definition samplePlatform : Platform := {|
  Image := Z * Z;
  jimp_read p :=
    if endsWith p (js "bad.jpg") then Err (js "Could not find MIME for Buffer")
    else Ok (640, 480)%Z;
  bitmap image := image;
  jimp_resize image w h :=
    match toZ w, toZ h with
    | Some w, Some h => Ok (w, h)
    | _, _ => Err (js "w and h must be numbers")
    end;
  getBase64Async image := Ok (js "data:image/png;base64,AAAA");
  URL_toString path base := Err (js "Invalid URL");
  path_join base path := base ++ 47%N :: path;
  path_resolve p := js "/srv/" ++ p;
  path_isAbsolute p := match p with 47%N :: _ => true | _ => false end;
  appendChild_undefined := Ignored;
|}.

(** The same platform with a tree adapter whose [appendChild] raises on
    [undefined]. *)
Definition strictPlatform : Platform := {|
  Image := @Image samplePlatform;
  jimp_read := @jimp_read samplePlatform;
  bitmap := @bitmap samplePlatform;
  jimp_resize := @jimp_resize samplePlatform;
  getBase64Async := @getBase64Async samplePlatform;
  URL_toString := @URL_toString samplePlatform;
  path_join := @path_join samplePlatform;
  path_resolve := @path_resolve samplePlatform;
  path_isAbsolute := @path_isAbsolute samplePlatform;
  appendChild_undefined := Raises (js "Cannot set property 'parent' of undefined");
|}.

(** [<amp-img layout="responsive" src=...>], [<template>...] and a document
    with the given children of [body]. *)
Definition ampImg (src : string) : Node :=
  Element (js "amp-img")
          (<[ js "src" := js src ]> (<[ js "layout" := js "responsive" ]> ∅)) [].

Definition template (children : list Node) : Node :=
  Element (js "template") ∅ children.

Definition document (children : list Node) : TreeAdapter :=
  {| root := Element (js "root") ∅
               [Element (js "html") ∅
                  [Element (js "head") ∅ []; Element (js "body") ∅ children]] |}.

(* ===================================================================== *)
(** * node.js: [url] and [path] *)
(* ===================================================================== *)

(** What [new URL(input, base)] and the POSIX functions of [path] do with
    the strings [resolvePath_] hands them. These modules belong to node.js;
    the definitions follow the URL Standard and the documentation of
    [path]. *)

Definition isAsciiAlpha (c : N) : bool :=
  ((65 <=? c) && (c <=? 90) || (97 <=? c) && (c <=? 122))%N.

(** A code unit that may follow the first letter of a scheme. *)
Definition isSchemeUnit (c : N) : bool :=
  (isAsciiAlpha c || (48 <=? c) && (c <=? 57)
   || (c =? 43) || (c =? 45) || (c =? 46))%N.

(** The URL parser first strips leading C0 controls and spaces and removes
    every tab and newline. *)
Fixpoint dropControls (input : jsstring) : jsstring :=
  match input with
  | [] => []
  | c :: rest => if (c <=? 32)%N then dropControls rest else input
  end.

Definition isTabOrNewline (c : N) : bool := ((c =? 9) || (c =? 10) || (c =? 13))%N.

(** The scheme state of the parser: scheme units up to a colon. *)
Fixpoint schemeEnds (input : jsstring) : bool :=
  match input with
  | [] => false
  | c :: rest =>
      if (c =? 58)%N then true
      else if isSchemeUnit c then schemeEnds rest else false
  end.

(** Whether a string starts with a scheme: a letter, scheme units, a colon.
    A string without one cannot be parsed as a URL on its own: from the
    scheme start state the parser goes to the no-scheme state, which fails
    when there is no base. *)
Definition hasScheme (input : jsstring) : bool :=
  match List.filter (fun c => negb (isTabOrNewline c)) (dropControls input) with
  | c :: rest => isAsciiAlpha c && schemeEnds rest
  | [] => false
  end.

(** [new URL(input, base).toString()] when [base] is a string. The
    constructor parses [base] on its own first and throws a TypeError when
    that fails, whatever [input] is; [parse] stands for the remaining work,
    the parsing of [input] against a base that has a scheme and the
    serialization of the result. *)
Definition URL_constructor (parse : jsstring -> jsstring -> Result jsstring)
    (input base : jsstring) : Result jsstring :=
  if hasScheme base then parse input base else Err (js "Invalid URL").

Definition SLASH : N := 47%N.

(** [path.isAbsolute(path)] of POSIX. *)
Definition posix_isAbsolute (path : jsstring) : bool :=
  match path with
  | c :: _ => (c =? SLASH)%N
  | [] => false
  end.

(** The segments of a path between its slashes; [current] is the segment
    being read. *)
Fixpoint segments (current path : jsstring) : list jsstring :=
  match path with
  | [] => [current]
  | c :: rest =>
      if (c =? SLASH)%N then current :: segments [] rest
      else segments (current ++ [c]) rest
  end.

(** One step of [normalizeString]: an empty segment and [.] are dropped,
    [..] removes the segment before it, and is kept only where the path
    may rise above its start; [kept] holds the segments kept so far, the
    last one first. *)
Definition pushSegment (allowAboveRoot : bool) (kept : list jsstring)
    (segment : jsstring) : list jsstring :=
  if bool_decide (segment = [] \/ segment = js ".") then kept
  else if bool_decide (segment = js "..") then
    match kept with
    | top :: below =>
        if bool_decide (top = js "..")
        then (if allowAboveRoot then segment :: kept else kept)
        else below
    | [] => if allowAboveRoot then [segment] else []
    end
  else segment :: kept.

Fixpoint joinSegments (parts : list jsstring) : jsstring :=
  match parts with
  | [] => []
  | [part] => part
  | part :: rest => part ++ SLASH :: joinSegments rest
  end.

Definition normalizeString (path : jsstring) (allowAboveRoot : bool) : jsstring :=
  joinSegments (rev (foldl (pushSegment allowAboveRoot) [] (segments [] path))).

(** [path.normalize(path)]. *)
Definition posix_normalize (path : jsstring) : jsstring :=
  match path with
  | [] => js "."
  | _ =>
      let isAbsolute := posix_isAbsolute path in
      let trailingSeparator := bool_decide (last path = Some SLASH) in
      match normalizeString path (negb isAbsolute) with
      | [] => if isAbsolute then js "/" else if trailingSeparator then js "./" else js "."
      | normalized =>
          (if isAbsolute then [SLASH] else [])
          ++ normalized ++ (if trailingSeparator then [SLASH] else [])
      end
  end.

(** [path.join(base, path)]: the arguments that are not empty, joined by a
    slash and normalized. *)
Definition posix_join (base path : jsstring) : jsstring :=
  match base, path with
  | [], [] => js "."
  | [], _ => posix_normalize path
  | _, [] => posix_normalize base
  | _, _ => posix_normalize (base ++ SLASH :: path)
  end.

(** [path.resolve(path)] in the working directory [cwd]: the argument and
    then the working directory are put in front of the path built so far,
    until it is absolute. *)
Definition posix_resolve (cwd path : jsstring) : jsstring :=
  let prepend (part : jsstring) (state : jsstring * bool) :=
    if state.2 then state
    else match part with
         | [] => state
         | _ => (part ++ SLASH :: state.1, posix_isAbsolute part)
         end in
  let '(resolvedPath, resolvedAbsolute) := prepend cwd (prepend path ([], false)) in
  let normalized := normalizeString resolvedPath (negb resolvedAbsolute) in
  if resolvedAbsolute then SLASH :: normalized
  else match normalized with
       | [] => js "."
       | _ => normalized
       end.

(** A platform with these functions of node.js, a working directory, and
    the image functions of another platform. *)
Definition nodePlatform (cwd : jsstring)
    (parse : jsstring -> jsstring -> Result jsstring) (jimp : Platform) : Platform := {|
  Image := @Image jimp;
  jimp_read := @jimp_read jimp;
  bitmap := @bitmap jimp;
  jimp_resize := @jimp_resize jimp;
  getBase64Async := @getBase64Async jimp;
  URL_toString input base := URL_constructor parse input base;
  path_join := posix_join;
  path_resolve := posix_resolve cwd;
  path_isAbsolute := posix_isAbsolute;
  appendChild_undefined := @appendChild_undefined jimp;
|}.

(* ===================================================================== *)
(** * Properties *)
(* ===================================================================== *)

(** ** Bitmap dimensions *)

(** *** Rounding to 53 bits

    [binary_round_aux] on a mantissa of 53 or 54 bits: the result is a
    number with a mantissa of 53 bits, at most one unit of the last place
    away. *)

Section Mantissa.
Local Open Scope Z_scope.

Lemma fexp_eq (z : Z) : fexp prec emax z = Z.max (z - 53) (-1074).
Proof. reflexivity. Qed.

Lemma digits2_pos_bounds_aux (d : Z) : 0 < d -> 2 ^ d = 2 * 2 ^ (d - 1).
Proof.
  intros Hd. replace d with (Z.succ (d - 1)) at 1 by lia. apply Z.pow_succ_r. lia.
Qed.

Lemma digits2_pos_bounds (m : positive) :
  2 ^ (Z.pos (digits2_pos m) - 1) <= Z.pos m < 2 ^ Z.pos (digits2_pos m).
Proof.
  induction m as [m IH|m IH|]; cbn [digits2_pos]; [| |cbn; lia].
  - rewrite Pos2Z.inj_succ, Pos2Z.inj_xI.
    replace (Z.succ (Z.pos (digits2_pos m)) - 1) with (Z.pos (digits2_pos m)) by lia.
    rewrite Z.pow_succ_r by lia.
    pose proof (digits2_pos_bounds_aux (Z.pos (digits2_pos m)) ltac:(lia)). lia.
  - rewrite Pos2Z.inj_succ. change (Z.pos m~0) with (2 * Z.pos m).
    replace (Z.succ (Z.pos (digits2_pos m)) - 1) with (Z.pos (digits2_pos m)) by lia.
    rewrite Z.pow_succ_r by lia.
    pose proof (digits2_pos_bounds_aux (Z.pos (digits2_pos m)) ltac:(lia)). lia.
Qed.

Lemma digits2_pos_unique (m : positive) (k : Z) :
  2 ^ (k - 1) <= Z.pos m < 2 ^ k -> Z.pos (digits2_pos m) = k.
Proof.
  intros [Hlo Hhi]. pose proof (digits2_pos_bounds m) as [Hlo' Hhi'].
  assert (0 < k) as Hk.
  { destruct (Z.ltb_spec 0 k); [assumption|].
    destruct (Z.eq_dec k 0) as [->|Hk0]; [cbn in Hhi; lia|].
    rewrite Z.pow_neg_r in Hhi by lia. lia. }
  destruct (Z.lt_trichotomy (Z.pos (digits2_pos m)) k) as [Hlt|[Heq|Hgt]]; [|exact Heq|].
  - assert (2 ^ Z.pos (digits2_pos m) <= 2 ^ (k - 1)) by (apply Z.pow_le_mono_r; lia). lia.
  - assert (2 ^ k <= 2 ^ (Z.pos (digits2_pos m) - 1)) by (apply Z.pow_le_mono_r; lia). lia.
Qed.

Lemma binary_round_aux_finish (m e : Z) (l : location) :
  binary_round_aux prec emax false m e l
  = let '(mrs, e') := shr_fexp prec emax m e l in
    finish (round_nearest_even (shr_m mrs) (loc_of_shr_record mrs)) e'.
Proof. reflexivity. Qed.

Lemma finish_53 (m e : Z) :
  2 ^ 52 <= m <= 2 ^ 53 -> -1074 <= e <= 970 ->
  exists (M : positive) (E : Z),
    finish m e = S754_finite false M E
    /\ Z.pos (digits2_pos M) = 53
    /\ e <= E <= e + 1
    /\ Z.pos M * 2 ^ (E - e) = m.
Proof.
  intros Hm He.
  change (2 ^ 52) with 4503599627370496 in Hm.
  change (2 ^ 53) with 9007199254740992 in Hm.
  destruct m as [|m|m]; try lia.
  destruct (Z.eq_dec (Z.pos m) 9007199254740992) as [Heq|Hne].
  - assert (Z.pos (digits2_pos m) = 54) as Hd
      by (apply digits2_pos_unique; rewrite Heq; split; [reflexivity|reflexivity]).
    destruct m as [p|p|]; try lia.
    assert (Z.pos (digits2_pos p) = 53) as Hp.
    { apply digits2_pos_unique. change (2 ^ (53 - 1)) with 4503599627370496.
      change (2 ^ 53) with 9007199254740992. lia. }
    exists p, (e + 1). unfold finish, shr_fexp.
    cbn [Zdigits2]. rewrite Hd, fexp_eq.
    replace (Z.max (54 + e - 53) (-1074) - e) with 1 by lia.
    cbn [shr shr_record_of_loc SpecFloat.iter_pos shr_1 shr_m].
    replace (e + 1 <=? emax - prec) with true
      by (symmetry; apply Z.leb_le; unfold emax, prec; lia).
    split; [reflexivity|]. split; [exact Hp|]. split; [lia|].
    replace (e + 1 - e) with 1 by lia. lia.
  - assert (Z.pos (digits2_pos m) = 53) as Hd.
    { apply digits2_pos_unique. change (2 ^ (53 - 1)) with 4503599627370496.
      change (2 ^ 53) with 9007199254740992. lia. }
    exists m, e. unfold finish, shr_fexp. cbn [Zdigits2]. rewrite Hd, fexp_eq.
    replace (Z.max (53 + e - 53) (-1074) - e) with 0 by lia.
    cbn [shr shr_record_of_loc shr_m].
    replace (e <=? emax - prec) with true
      by (symmetry; apply Z.leb_le; unfold emax, prec; lia).
    split; [reflexivity|]. split; [reflexivity|]. split; [lia|].
    rewrite Z.sub_diag. lia.
Qed.

Lemma round_nearest_even_bounds (m : Z) (l : location) :
  m <= round_nearest_even m l <= m + 1.
Proof. destruct l as [|[| |]]; cbn; try lia. destruct (Z.even m); lia. Qed.

Lemma loc_of_shr_record_of_loc (m : Z) (l : location) :
  loc_of_shr_record (shr_record_of_loc m l) = l.
Proof. destruct l as [|[| |]]; reflexivity. Qed.

Lemma shr_m_of_loc (m : Z) (l : location) : shr_m (shr_record_of_loc m l) = m.
Proof. destruct l as [|[| |]]; reflexivity. Qed.

Lemma round_aux_53 (m : positive) (e : Z) (l : location) :
  Z.pos (digits2_pos m) = 53 -> -1074 <= e <= 970 ->
  exists (M : positive) (E : Z),
    binary_round_aux prec emax false (Z.pos m) e l = S754_finite false M E
    /\ Z.pos (digits2_pos M) = 53
    /\ e <= E <= e + 1
    /\ Z.pos m <= Z.pos M * 2 ^ (E - e) <= Z.pos m + 1.
Proof.
  intros Hd He. rewrite binary_round_aux_finish. unfold shr_fexp.
  cbn [Zdigits2]. rewrite Hd, fexp_eq.
  replace (Z.max (53 + e - 53) (-1074) - e) with 0 by lia.
  cbn [shr]. rewrite loc_of_shr_record_of_loc, shr_m_of_loc.
  pose proof (round_nearest_even_bounds (Z.pos m) l) as Hr.
  pose proof (digits2_pos_bounds m) as Hm. rewrite Hd in Hm.
  destruct (finish_53 (round_nearest_even (Z.pos m) l) e) as (M & E & -> & HM & HE & Hv);
    [change (53 - 1) with 52 in Hm; lia|lia|].
  exists M, E. split; [reflexivity|]. split; [exact HM|]. split; [exact HE|]. lia.
Qed.

Lemma round_aux_54 (m : positive) (e : Z) (l : location) :
  Z.pos (digits2_pos m) = 54 -> -1074 <= e <= 969 ->
  exists (M : positive) (E : Z),
    binary_round_aux prec emax false (Z.pos m) e l = S754_finite false M E
    /\ Z.pos (digits2_pos M) = 53
    /\ e + 1 <= E <= e + 2
    /\ Z.pos m - 1 <= Z.pos M * 2 ^ (E - e) <= Z.pos m + 2.
Proof.
  intros Hd He. rewrite binary_round_aux_finish. unfold shr_fexp.
  cbn [Zdigits2]. rewrite Hd, fexp_eq.
  replace (Z.max (54 + e - 53) (-1074) - e) with 1 by lia.
  cbn [shr SpecFloat.iter_pos].
  pose proof (digits2_pos_bounds m) as Hm. rewrite Hd in Hm. change (54 - 1) with 53 in Hm.
  assert (exists (p : positive) (r s : bool),
            shr_1 (shr_record_of_loc (Z.pos m) l) = Build_shr_record (Z.pos p) r s
            /\ 2 * Z.pos p <= Z.pos m <= 2 * Z.pos p + 1) as (p & r & s & -> & Hp).
  { destruct m as [p|p|]; [| |cbn in Hm; lia].
    - exists p. destruct l as [|[| |]]; cbn; eexists _, _; (split; [reflexivity|lia]).
    - exists p. destruct l as [|[| |]]; cbn; eexists _, _; (split; [reflexivity|lia]). }
  cbn [shr_m].
  pose proof (round_nearest_even_bounds (Z.pos p)
                (loc_of_shr_record (Build_shr_record (Z.pos p) r s))) as Hr.
  destruct (finish_53 (round_nearest_even (Z.pos p)
                         (loc_of_shr_record (Build_shr_record (Z.pos p) r s))) (e + 1))
    as (M & E & -> & HM & HE & Hv); [lia|lia|].
  exists M, E. split; [reflexivity|]. split; [exact HM|]. split; [lia|].
  replace (E - e) with (E - (e + 1) + 1) by lia.
  rewrite Z.pow_add_r by lia. lia.
Qed.

End Mantissa.

(** *** Integers, quotients and square roots as mantissa and exponent *)

Section Operations.
Local Open Scope Z_scope.

Lemma round_aux_mantissa (m : positive) (e : Z) (l : location) :
  2 ^ 52 <= Z.pos m < 2 ^ 54 -> -1074 <= e <= 969 ->
  exists (M : positive) (E : Z),
    binary_round_aux prec emax false (Z.pos m) e l = S754_finite false M E
    /\ Z.pos (digits2_pos M) = 53
    /\ e <= E <= e + 2
    /\ Z.pos m - 1 <= Z.pos M * 2 ^ (E - e) <= Z.pos m + 2.
Proof.
  intros Hm He. destruct (Z.ltb_spec (Z.pos m) (2 ^ 53)) as [Hlt|Hge].
  - destruct (round_aux_53 m e l) as (M & E & H1 & H2 & H3 & H4);
      [apply digits2_pos_unique; change (53 - 1) with 52; lia|lia|].
    exists M, E. split_and!; auto; lia.
  - destruct (round_aux_54 m e l) as (M & E & H1 & H2 & H3 & H4);
      [apply digits2_pos_unique; change (54 - 1) with 53; lia|lia|].
    exists M, E. split_and!; auto; lia.
Qed.

Lemma round_aux_exact (m : positive) (e : Z) :
  Z.pos (digits2_pos m) = 53 -> -1074 <= e <= 970 ->
  binary_round_aux prec emax false (Z.pos m) e loc_Exact = S754_finite false m e.
Proof.
  intros Hd He. rewrite binary_round_aux_finish. unfold shr_fexp.
  cbn [Zdigits2]. rewrite Hd, fexp_eq.
  replace (Z.max (53 + e - 53) (-1074) - e) with 0 by lia.
  cbn [shr shr_record_of_loc shr_m loc_of_shr_record round_nearest_even].
  pose proof (digits2_pos_bounds m) as Hm. rewrite Hd in Hm.
  destruct (finish_53 (Z.pos m) e) as (M & E & -> & HM & HE & Hv);
    [change (53 - 1) with 52 in Hm; lia|lia|].
  pose proof (digits2_pos_bounds M) as HM'. rewrite HM in HM'.
  change (53 - 1) with 52 in *.
  change (2 ^ 52) with 4503599627370496 in *.
  change (2 ^ 53) with 9007199254740992 in *.
  assert (E = e) as ->.
  { destruct (Z.eq_dec E e) as [|Hne]; [assumption|].
    replace (E - e) with 1 in Hv by lia. change (2 ^ 1) with 2 in Hv. lia. }
  rewrite Z.sub_diag in Hv. change (2 ^ 0) with 1 in Hv.
  assert (M = m) as -> by lia. reflexivity.
Qed.

Lemma iter_xO (p k : positive) : Z.pos (Pos.iter xO p k) = Z.pos p * 2 ^ Z.pos k.
Proof.
  induction k as [|k IH] using Pos.peano_ind.
  - cbn [Pos.iter]. lia.
  - rewrite Pos.iter_succ, Pos2Z.inj_succ, Z.pow_succ_r by lia.
    change (Z.pos (Pos.iter xO p k)~0) with (2 * Z.pos (Pos.iter xO p k)). lia.
Qed.

(** The number of an integer below 2^53 is exact. *)
Lemma ofZ_exact (z : Z) :
  0 < z < 2 ^ 53 ->
  exists (M : positive) (E : Z),
    ofZ z = S754_finite false M E
    /\ Z.pos (digits2_pos M) = 53
    /\ -52 <= E <= 0
    /\ Z.pos M = z * 2 ^ (- E).
Proof.
  intros Hz. destruct z as [|p|p]; try lia.
  unfold ofZ, binary_normalize, binary_round.
  pose proof (digits2_pos_bounds p) as Hp.
  set (d := Z.pos (digits2_pos p)) in *.
  assert (1 <= d <= 53) as Hd.
  { split; [unfold d; lia|].
    destruct (Z.leb_spec d 53) as [|Hgt]; [assumption|].
    assert (2 ^ 53 <= 2 ^ (d - 1)) by (apply Z.pow_le_mono_r; lia). lia. }
  rewrite fexp_eq. replace (Z.max (d + 0 - 53) (-1074)) with (d - 53) by lia.
  unfold shl_align. destruct (d - 53 - 0) as [|k|k] eqn:Hk; try lia.
  - assert (d = 53) as Hd53 by lia.
    exists p, 0. rewrite round_aux_exact; [|exact Hd53|clear; lia].
    split; [reflexivity|]. split; [exact Hd53|]. split; [clear; lia|]. cbn. clear. lia.
  - assert (Z.pos (digits2_pos (Pos.iter xO p k)) = 53) as Hd53.
    { apply digits2_pos_unique. rewrite iter_xO.
      replace (Z.pos k) with (53 - d) by (clear - Hk; lia).
      assert (2 ^ (53 - 1) = 2 ^ (d - 1) * 2 ^ (53 - d)) as ->
        by (rewrite <- Z.pow_add_r by (clear - Hd; lia); f_equal; clear; lia).
      assert (2 ^ 53 = 2 ^ d * 2 ^ (53 - d)) as ->
        by (rewrite <- Z.pow_add_r by (clear - Hd; lia); f_equal; clear; lia).
      assert (0 < 2 ^ (53 - d)) by (apply Z.pow_pos_nonneg; clear - Hd; lia).
      destruct Hp as [Hlo Hhi]. split.
      - apply Z.mul_le_mono_nonneg_r; [lia|exact Hlo].
      - apply Z.mul_lt_mono_pos_r; [lia|exact Hhi]. }
    exists (Pos.iter xO p k), (d - 53).
    rewrite round_aux_exact; [|exact Hd53|clear - Hd; lia].
    split; [reflexivity|]. split; [exact Hd53|]. split; [clear - Hd; lia|].
    rewrite iter_xO. f_equal. f_equal. clear - Hk. lia.
Qed.

Lemma div_spec (m1 m2 : positive) (e1 e2 : Z) :
  Z.pos (digits2_pos m1) = 53 -> Z.pos (digits2_pos m2) = 53 ->
  -400 <= e1 <= 400 -> -400 <= e2 <= 400 ->
  exists (M : positive) (E : Z),
    Number_div (S754_finite false m1 e1) (S754_finite false m2 e2)
    = S754_finite false M E
    /\ Z.pos (digits2_pos M) = 53
    /\ e1 - e2 - 53 <= E <= e1 - e2 - 51
    /\ Z.abs (Z.pos M * 2 ^ (E - (e1 - e2 - 53)) * Z.pos m2 - Z.pos m1 * 2 ^ 53)
       <= 2 * Z.pos m2.
Proof.
  intros Hd1 Hd2 He1 He2.
  pose proof (digits2_pos_bounds m1) as Hm1. rewrite Hd1 in Hm1.
  pose proof (digits2_pos_bounds m2) as Hm2. rewrite Hd2 in Hm2.
  change (53 - 1) with 52 in *.
  unfold Number_div, SFdiv, SFdiv_core_binary. cbn [Zdigits2 xorb].
  rewrite Hd1, Hd2, fexp_eq.
  replace (Z.min (Z.max (53 + e1 - (53 + e2) - 53) (-1074)) (e1 - e2))
    with (e1 - e2 - 53) by lia.
  replace (e1 - e2 - (e1 - e2 - 53)) with 53 by lia.
  rewrite Z.shiftl_mul_pow2 by lia.
  pose proof (Z_div_mod (Z.pos m1 * 2 ^ 53) (Z.pos m2) ltac:(lia)) as Hdiv.
  destruct (Z.div_eucl (Z.pos m1 * 2 ^ 53) (Z.pos m2)) as [q r].
  destruct Hdiv as [Hq Hr].
  change (2 ^ 52) with 4503599627370496 in *.
  change (2 ^ 53) with 9007199254740992 in *.
  assert (4503599627370496 <= q < 18014398509481984) as Hqb by nia.
  destruct q as [|q|q]; try lia.
  destruct (round_aux_mantissa q (e1 - e2 - 53) (new_location (Z.pos m2) r))
    as (M & E & -> & HM & HE & Hv);
    [change (2 ^ 52) with 4503599627370496; change (2 ^ 54) with 18014398509481984; lia
    |lia|].
  exists M, E. split; [reflexivity|]. split; [exact HM|]. split; [lia|].
  set (v := Z.pos M * 2 ^ (E - (e1 - e2 - 53))) in *. nia.
Qed.

Lemma sqrt_spec (m : positive) (e : Z) :
  Z.pos (digits2_pos m) = 53 -> -400 <= e <= 400 ->
  exists (M : positive) (E e' s : Z),
    Math_sqrt (S754_finite false m e) = S754_finite false M E
    /\ Z.pos (digits2_pos M) = 53
    /\ e = 2 * e' + s /\ 52 <= s <= 53
    /\ e' <= E <= e' + 1
    /\ Z.abs ((Z.pos M * 2 ^ (E - e')) ^ 2 - Z.pos m * 2 ^ s)
       <= 2 * (Z.pos M * 2 ^ (E - e')) + 1.
Proof.
  intros Hd He.
  pose proof (digits2_pos_bounds m) as Hm. rewrite Hd in Hm. change (53 - 1) with 52 in *.
  unfold Math_sqrt, SFsqrt, SFsqrt_core_binary. cbn [Zdigits2].
  rewrite Hd, fexp_eq, !Z.div2_div.
  assert ((53 + e + 1) / 2 = e / 2 + 27) as ->.
  { replace (53 + e + 1) with (e + 27 * 2) by lia. rewrite Z.div_add by lia. reflexivity. }
  pose proof (Z.div_mod e 2 ltac:(lia)) as Hdivmod.
  pose proof (Z.mod_pos_bound e 2 ltac:(lia)) as Hmod.
  set (half := e / 2) in *. set (parity := e mod 2) in *.
  set (e' := half - 26).
  replace (Z.min (Z.max (half + 27 - 53) (-1074)) half) with e'
    by (unfold e'; clear - He Hdivmod Hmod; lia).
  set (s := e - 2 * e').
  assert (52 <= s <= 53) as Hs by (unfold s, e'; clear - Hdivmod Hmod; lia).
  assert (s = 52 \/ s = 53) as Hs' by lia.
  assert (Z.pos m * 2 ^ s
          = match s with
            | Z.pos _ => Z.shiftl (Z.pos m) s
            | 0 => Z.pos m
            | Z.neg _ => 0
            end) as <-.
  { destruct s as [|p|p]; try lia. rewrite Z.shiftl_mul_pow2 by lia. reflexivity. }
  assert (2 ^ 104 <= Z.pos m * 2 ^ s < 2 ^ 106) as Hm'.
  { change (2 ^ 52) with 4503599627370496 in *.
    change (2 ^ 53) with 9007199254740992 in *.
    destruct Hs' as [->| ->]; [change (2 ^ 52) with 4503599627370496
                             |change (2 ^ 53) with 9007199254740992];
      change (2 ^ 104) with (4503599627370496 * 4503599627370496);
      change (2 ^ 106) with (9007199254740992 * 9007199254740992); nia. }
  pose proof (Z.sqrtrem_spec (Z.pos m * 2 ^ s) ltac:(lia)) as Hsqrt.
  destruct (Z.sqrtrem (Z.pos m * 2 ^ s)) as [q r]. destruct Hsqrt as [Hq Hr].
  assert (2 ^ 52 <= q < 2 ^ 53) as Hqb.
  { change (2 ^ 104) with (4503599627370496 * 4503599627370496) in Hm'.
    change (2 ^ 106) with (9007199254740992 * 9007199254740992) in Hm'.
    change (2 ^ 52) with 4503599627370496.
    change (2 ^ 53) with 9007199254740992. nia. }
  destruct q as [|q|q]; try lia.
  destruct (round_aux_53 q e'
              (if (r =? 0) then loc_Exact else loc_Inexact (if (r <=? Z.pos q) then Lt else Gt)))
    as (M & E & -> & HM & HE & Hv);
    [apply digits2_pos_unique; change (53 - 1) with 52; lia
    |unfold e'; clear - He Hdivmod Hmod; lia|].
  exists M, E, e', s. split; [reflexivity|]. split; [exact HM|].
  split; [unfold s; lia|]. split; [exact Hs|]. split; [exact HE|].
  set (v := Z.pos M * 2 ^ (E - e')) in *. rewrite Hq.
  replace (v ^ 2) with (v * v) by (rewrite Z.pow_2_r; reflexivity). nia.
Qed.

End Operations.

(** *** [Math.round] and integral numbers *)

Section Rounding.
Local Open Scope Z_scope.

Lemma toZ_ofZ (r : Z) : 0 <= r < 2 ^ 53 -> toZ (ofZ r) = Some r.
Proof.
  intros Hr. destruct (Z.eq_dec r 0) as [->|Hne]; [reflexivity|].
  destruct (ofZ_exact r ltac:(lia)) as (M & E & -> & _ & HE & HM).
  unfold toZ. destruct (Z.leb_spec 0 E) as [Hle|Hlt].
  - assert (E = 0) as -> by lia. cbn [cond_Zopp]. f_equal.
    rewrite HM. cbn. lia.
  - cbn [cond_Zopp]. rewrite HM.
    assert (0 < 2 ^ (- E)) as Hpos by (apply Z.pow_pos_nonneg; lia).
    rewrite Z.mod_mul by lia. cbn [Z.eqb]. rewrite Z.div_mul by lia. reflexivity.
Qed.

Lemma round_spec (M : positive) (E : Z) :
  Z.pos (digits2_pos M) = 53 -> -400 <= E < 0 ->
  exists r : Z,
    Math_round (S754_finite false M E) = ofZ r
    /\ toZ (ofZ r) = Some r
    /\ 0 <= r
    /\ r * (2 * 2 ^ (- E)) <= 2 * Z.pos M + 2 ^ (- E) < (r + 1) * (2 * 2 ^ (- E)).
Proof.
  intros Hd HE.
  pose proof (digits2_pos_bounds M) as HM. rewrite Hd in HM. change (53 - 1) with 52 in HM.
  unfold Math_round. destruct (Z.leb_spec 0 E) as [|_]; [lia|].
  cbn [cond_Zopp andb].
  assert (2 ^ (1 - E) = 2 * 2 ^ (- E)) as ->.
  { replace (1 - E) with (Z.succ (- E)) by lia. apply Z.pow_succ_r. lia. }
  assert (2 <= 2 ^ (- E)) as HP.
  { change 2 with (2 ^ 1) at 1. apply Z.pow_le_mono_r; lia. }
  set (P := 2 ^ (- E)) in *.
  set (r := (2 * Z.pos M + P) / (2 * P)).
  pose proof (Z.mul_div_le (2 * Z.pos M + P) (2 * P) ltac:(lia)) as Hlo.
  pose proof (Z.mul_succ_div_gt (2 * Z.pos M + P) (2 * P) ltac:(lia)) as Hhi.
  fold r in Hlo, Hhi.
  assert (0 <= r) as Hr by (apply Z.div_pos; lia).
  exists r. split; [reflexivity|].
  change (2 ^ 52) with 4503599627370496 in HM.
  change (2 ^ 53) with 9007199254740992 in HM.
  split; [|split; [exact Hr|lia]].
  apply toZ_ofZ. split; [exact Hr|].
  change (2 ^ 53) with 9007199254740992. nia.
Qed.

End Rounding.

(** *** The real value of the results of the operations *)

Ltac push_IZR H :=
  repeat first [rewrite plus_IZR in H | rewrite minus_IZR in H
               | rewrite mult_IZR in H | rewrite opp_IZR in H].

Ltac push_IZR_goal :=
  repeat first [rewrite plus_IZR | rewrite minus_IZR
               | rewrite mult_IZR | rewrite opp_IZR].

Section Values.
Local Open Scope R_scope.

Lemma pow2_pos (e : Z) : 0 < powerRZ 2 e.
Proof. apply powerRZ_lt. lra. Qed.

Lemma pow2_add (a b : Z) : powerRZ 2 (a + b) = powerRZ 2 a * powerRZ 2 b.
Proof. apply powerRZ_add. lra. Qed.

Lemma pow2_opp (a : Z) : powerRZ 2 (- a) = / powerRZ 2 a.
Proof. apply powerRZ_neg'. Qed.

Lemma pow2_sub (a b : Z) : powerRZ 2 (a - b) = powerRZ 2 a / powerRZ 2 b.
Proof.
  replace (a - b)%Z with (a + - b)%Z by lia.
  rewrite pow2_add, pow2_opp. reflexivity.
Qed.

Lemma pow2_IZR (k : Z) : (0 <= k)%Z -> IZR (2 ^ k) = powerRZ 2 k.
Proof.
  intros Hk. rewrite <- (Z2Nat.id k Hk) at 1 2.
  rewrite <- pow_IZR, pow_powerRZ. reflexivity.
Qed.

Lemma mantissa_53 (M : positive) :
  Z.pos (digits2_pos M) = 53%Z ->
  4503599627370496 <= IZR (Z.pos M) < 9007199254740992.
Proof.
  intros Hd. pose proof (digits2_pos_bounds M) as HM. rewrite Hd in HM.
  change (2 ^ (53 - 1))%Z with 4503599627370496%Z in HM.
  change (2 ^ 53)%Z with 9007199254740992%Z in HM.
  destruct HM as [Hlo Hhi]. split; [apply IZR_le, Hlo|apply IZR_lt, Hhi].
Qed.

Lemma numberValue_pos (lo hi : Z) (x : number) :
  normalNumber lo hi x -> 0 < numberValue x.
Proof.
  intros (M & E & -> & Hd & _). cbn [numberValue cond_Zopp].
  pose proof (mantissa_53 M Hd). pose proof (pow2_pos E).
  apply Rmult_lt_0_compat; lra.
Qed.

(** An integer below 2^32 is a number, exactly. *)
Lemma numberValue_ofZ (z : Z) :
  (0 < z < 4294967296)%Z ->
  normalNumber (-52) (-21) (ofZ z) /\ numberValue (ofZ z) = IZR z.
Proof.
  intros Hz.
  destruct (ofZ_exact z) as (M & E & -> & Hd & HE & HM).
  { change (2 ^ 53)%Z with 9007199254740992%Z. lia. }
  pose proof (digits2_pos_bounds M) as Hb. rewrite Hd in Hb.
  change (2 ^ (53 - 1))%Z with 4503599627370496%Z in Hb.
  assert (E <= -21)%Z as HE'.
  { destruct (Z.leb_spec E (-21)) as [|Hgt]; [assumption|exfalso].
    assert (2 ^ (- E) <= 2 ^ 20)%Z as Hp by (apply Z.pow_le_mono_r; lia).
    change (2 ^ 20)%Z with 1048576%Z in Hp.
    assert (0 < 2 ^ (- E))%Z as Hp' by (apply Z.pow_pos_nonneg; lia).
    revert Hp Hp' HM Hb Hz. generalize (2 ^ (- E))%Z. clear. intros. nia. }
  split.
  - exists M, E. split; [reflexivity|]. split; [exact Hd|lia].
  - cbn [numberValue cond_Zopp]. rewrite HM, mult_IZR, pow2_IZR by lia.
    rewrite pow2_opp. pose proof (pow2_pos E). field. lra.
Qed.

(** The quotient of two numbers, with a relative error of 2^-51. *)
Lemma numberValue_div (lo1 hi1 lo2 hi2 : Z) (x y : number) :
  (-400 <= lo1)%Z -> (hi1 <= 400)%Z -> (-400 <= lo2)%Z -> (hi2 <= 400)%Z ->
  normalNumber lo1 hi1 x -> normalNumber lo2 hi2 y ->
  normalNumber (lo1 - hi2 - 53) (hi1 - lo2 - 51) (Number_div x y)
  /\ - numberValue x <= 2251799813685248 * (numberValue (Number_div x y) * numberValue y - numberValue x)
     <= numberValue x.
Proof.
  intros Hlo1 Hhi1 Hlo2 Hhi2 (m1 & e1 & -> & Hd1 & He1) (m2 & e2 & -> & Hd2 & He2).
  destruct (div_spec m1 m2 e1 e2 Hd1 Hd2 ltac:(lia) ltac:(lia))
    as (M & E & -> & Hd & HE & Herr).
  split.
  - exists M, E. split; [reflexivity|]. split; [exact Hd|lia].
  - cbn [numberValue cond_Zopp].
    pose proof (mantissa_53 m1 Hd1) as Hm1. pose proof (mantissa_53 m2 Hd2) as Hm2.
    set (k := (E - (e1 - e2 - 53))%Z) in *.
    assert (0 <= k)%Z as Hk by lia.
    assert (- (2 * Z.pos m2) <= Z.pos M * 2 ^ k * Z.pos m2 - Z.pos m1 * 2 ^ 53
            <= 2 * Z.pos m2)%Z as [Hl Hu].
    { revert Herr. generalize (Z.pos M * 2 ^ k * Z.pos m2 - Z.pos m1 * 2 ^ 53)%Z.
      clear. intros. lia. }
    apply IZR_le in Hl, Hu.
    rewrite opp_IZR in Hl.
    rewrite minus_IZR, !mult_IZR, pow2_IZR in Hl, Hu by lia.
    change (2 ^ 53)%Z with 9007199254740992%Z in Hl, Hu.
    replace E with (k + (e1 - e2 - 53))%Z by (unfold k; lia).
    rewrite pow2_add, !pow2_sub.
    replace (powerRZ 2 53) with 9007199254740992
      by (rewrite <- pow2_IZR by lia; reflexivity).
    pose proof (pow2_pos e1) as P1. pose proof (pow2_pos e2) as P2.
    pose proof (pow2_pos k) as Pk.
    revert Hl Hu P1 P2 Pk Hm1 Hm2.
    generalize (powerRZ 2 k) (powerRZ 2 e1) (powerRZ 2 e2)
      (IZR (Z.pos M)) (IZR (Z.pos m1)) (IZR (Z.pos m2)).
    clear. intros t u v A a b Hl Hu P1 P2 Pk Hm1 Hm2.
    replace (A * (t * (u / v / 9007199254740992)) * (b * v) - a * u)
      with ((A * t * b - a * 9007199254740992) * (u / 9007199254740992))
      by (field; lra).
    assert (0 < u / 9007199254740992) as Hs by (apply Rdiv_lt_0_compat; lra).
    set (s := u / 9007199254740992) in *.
    assert (a * u = a * 9007199254740992 * s) as -> by (unfold s; field).
    set (D := A * t * b - a * 9007199254740992) in *.
    assert (- (2 * b) * s <= D * s <= 2 * b * s) as [H1 H2].
    { split; apply Rmult_le_compat_r; lra. }
    assert (2 * b * s * 2251799813685248 <= a * 9007199254740992 * s).
    { assert (b * 4503599627370496 <= a * 9007199254740992) by nra.
      nra. }
    split; nra.
Qed.

(** The square root of a number, with a relative error of 2^-50. *)
Lemma numberValue_sqrt (lo hi lo' hi' : Z) (x : number) :
  (-400 <= lo)%Z -> (hi <= 400)%Z ->
  (2 * lo' <= lo - 52)%Z -> (hi - 50 <= 2 * hi' + 1)%Z ->
  normalNumber lo hi x ->
  normalNumber lo' hi' (Math_sqrt x)
  /\ - (numberValue (Math_sqrt x) * numberValue (Math_sqrt x))
     <= 1125899906842624 * (numberValue (Math_sqrt x) * numberValue (Math_sqrt x) - numberValue x)
     <= numberValue (Math_sqrt x) * numberValue (Math_sqrt x).
Proof.
  intros Hlo Hhi Hlo' Hhi' (m & e & -> & Hd & He).
  destruct (sqrt_spec m e Hd ltac:(lia))
    as (M & E & e' & s & -> & HdM & Hes & Hs & HE & Herr).
  split.
  - exists M, E. split; [reflexivity|]. split; [exact HdM|lia].
  - cbn [numberValue cond_Zopp].
    pose proof (mantissa_53 M HdM) as HM.
    set (k := (E - e')%Z) in *.
    assert (0 <= k)%Z as Hk by lia.
    assert (- (2 * (Z.pos M * 2 ^ k) + 1)
            <= (Z.pos M * 2 ^ k) * (Z.pos M * 2 ^ k) - Z.pos m * 2 ^ s
            <= 2 * (Z.pos M * 2 ^ k) + 1)%Z as [Hl Hu].
    { revert Herr. rewrite Z.pow_2_r.
      generalize ((Z.pos M * 2 ^ k) * (Z.pos M * 2 ^ k) - Z.pos m * 2 ^ s)%Z.
      clear. intros. lia. }
    apply IZR_le in Hl, Hu.
    rewrite opp_IZR in Hl.
    rewrite ?plus_IZR, ?minus_IZR, ?mult_IZR, ?pow2_IZR in Hl, Hu by lia.
    replace E with (k + e')%Z by (unfold k; lia).
    rewrite Hes.
    replace (2 * e' + s)%Z with (e' + e' + s)%Z by lia.
    rewrite !pow2_add.
    pose proof (pow2_pos e') as Pq. pose proof (pow2_pos k) as Pk.
    assert (1 <= powerRZ 2 k) as Pk1.
    { rewrite <- pow2_IZR by lia. apply (IZR_le 1).
      assert (0 < 2 ^ k)%Z by (apply Z.pow_pos_nonneg; lia). lia. }
    revert Hl Hu Pq Pk1 HM.
    generalize (powerRZ 2 k) (powerRZ 2 e') (powerRZ 2 s)
      (IZR (Z.pos M)) (IZR (Z.pos m)).
    clear. intros t q c A a Hl Hu Pq Pk1 HM.
    set (B := A * t) in *.
    assert (4503599627370496 <= B) as HB by (unfold B; nra).
    replace (A * (t * q) * (A * (t * q)) - a * (q * q * c))
      with ((B * B - a * c) * (q * q)) by (unfold B; ring).
    replace (A * (t * q) * (A * (t * q))) with (B * B * (q * q)) by (unfold B; ring).
    assert (0 < q * q) as Hqq by nra.
    set (Q := q * q) in *. set (D := B * B - a * c) in *.
    assert (1125899906842624 * (2 * B + 1) <= B * B) as Hbig by nra.
    assert (- (2 * B + 1) * Q <= D * Q <= (2 * B + 1) * Q) as [H1 H2].
    { split; apply Rmult_le_compat_r; lra. }
    assert (1125899906842624 * (2 * B + 1) * Q <= B * B * Q) as H3.
    { apply Rmult_le_compat_r; lra. }
    split; lra.
Qed.

(** [Math.round] of a number below 2^53 that has a fractional part. *)
Lemma numberValue_round (lo hi : Z) (x : number) :
  (-400 <= lo)%Z -> (hi < 0)%Z ->
  normalNumber lo hi x ->
  exists r : Z,
    Math_round x = ofZ r /\ toZ (ofZ r) = Some r /\ (0 <= r)%Z
    /\ IZR r <= numberValue x + / 2 < IZR r + 1.
Proof.
  intros Hlo Hhi (M & E & -> & Hd & HE).
  destruct (round_spec M E Hd ltac:(lia)) as (r & Hr & Hto & Hr0 & Hl & Hu).
  exists r. split; [exact Hr|]. split; [exact Hto|]. split; [exact Hr0|].
  cbn [numberValue cond_Zopp].
  apply IZR_le in Hl. apply IZR_lt in Hu.
  push_IZR Hl. push_IZR Hu. rewrite pow2_IZR in Hl, Hu by lia.
  rewrite pow2_opp in Hl, Hu.
  pose proof (pow2_pos E) as PE.
  revert Hl Hu PE. generalize (powerRZ 2 E) (IZR (Z.pos M)) (IZR r).
  clear. intros p A z Hl Hu PE.
  assert (0 < / p) as Hip by (apply Rinv_0_lt_compat; exact PE).
  assert (z * (2 * / p) * p = z * 2) as E1 by (field; lra).
  assert ((2 * A + / p) * p = 2 * A * p + 1) as E2 by (field; lra).
  assert ((z + 1) * (2 * / p) * p = (z + 1) * 2) as E3 by (field; lra).
  assert (z * (2 * / p) * p <= (2 * A + / p) * p) as H1
    by (apply Rmult_le_compat_r; [lra|exact Hl]).
  assert ((2 * A + / p) * p < (z + 1) * (2 * / p) * p) as H2
    by (apply Rmult_lt_compat_r; [lra|exact Hu]).
  rewrite E1, E2 in H1. rewrite E2, E3 in H2. lra.
Qed.

End Values.

(** *** The computation over the reals

    [a] and [b] are the source width and height, [r] the ratio, [t] the
    quotient [60 / r], [y] its square root and [x] the quotient [60 / y],
    each within the relative error of its operation. *)

Section Analysis.
Local Open Scope R_scope.

Variables a b r t y x : R.
Hypothesis Ha : 1 <= a <= 4294967296.
Hypothesis Hb : 1 <= b <= 4294967296.
Hypothesis HR : 0 < r.
Hypothesis HT : 0 < t.
Hypothesis Hy : 0 < y.
Hypothesis Hx : 0 < x.
Hypothesis H1 : - a <= 2251799813685248 * (r * b - a) <= a.
Hypothesis H2 : - 60 <= 2251799813685248 * (t * r - 60) <= 60.
Hypothesis H3 : - (y * y) <= 1125899906842624 * (y * y - t) <= y * y.
Hypothesis H4 : - 60 <= 2251799813685248 * (x * y - 60) <= 60.

Lemma Ta_upper : 2251799813685247 * (t * a) <= 60 * 2251799813685249 * b.
Proof using Ha Hb HR HT H1 H2.
  assert (t * (2251799813685247 * a) <= t * (2251799813685248 * (r * b))) as E1
    by (apply Rmult_le_compat_l; lra).
  assert ((2251799813685248 * (t * r)) * b <= (60 * 2251799813685249) * b) as E2
    by (apply Rmult_le_compat_r; lra).
  lra.
Qed.

Lemma Ta_lower : 60 * 2251799813685247 * b <= 2251799813685249 * (t * a).
Proof using Ha Hb HR HT H1 H2.
  assert (t * (2251799813685248 * (r * b)) <= t * (2251799813685249 * a)) as E1
    by (apply Rmult_le_compat_l; lra).
  assert ((60 * 2251799813685247) * b <= (2251799813685248 * (t * r)) * b) as E2
    by (apply Rmult_le_compat_r; lra).
  lra.
Qed.

Lemma yya_upper :
  1125899906842623 * 2251799813685247 * (y * y * a)
  <= 1125899906842624 * 60 * 2251799813685249 * b.
Proof using Ha Hb HR HT H1 H2 H3.
  pose proof Ta_upper as HTa.
  assert ((1125899906842623 * (y * y)) * a <= (1125899906842624 * t) * a) as E1
    by (apply Rmult_le_compat_r; lra).
  lra.
Qed.

Lemma yya_lower :
  1125899906842624 * 60 * 2251799813685247 * b
  <= 1125899906842625 * 2251799813685249 * (y * y * a).
Proof using Ha Hb HR HT H1 H2 H3.
  pose proof Ta_lower as HTa.
  assert ((1125899906842624 * t) * a <= (1125899906842625 * (y * y)) * a) as E1
    by (apply Rmult_le_compat_r; lra).
  lra.
Qed.

Lemma delta_y : - (305 * b) <= 2251799813685248 * ((x * b - y * a) * y) <= 305 * b.
Proof using Ha Hb HR HT H1 H2 H3 H4.
  pose proof Ta_upper as HTa. pose proof yya_upper as Hyya.
  replace ((x * b - y * a) * y)
    with ((x * y - 60) * b - (t * r - 60) * b + t * (r * b - a) - (y * y - t) * a)
    by ring.
  assert (- (60 * b) <= 2251799813685248 * (x * y - 60) * b <= 60 * b) as [Ex1 Ex2].
  { split; [replace (- (60 * b)) with (- 60 * b) by ring|];
      apply Rmult_le_compat_r; lra. }
  assert (- (60 * b) <= 2251799813685248 * (t * r - 60) * b <= 60 * b) as [Et1 Et2].
  { split; [replace (- (60 * b)) with (- 60 * b) by ring|];
      apply Rmult_le_compat_r; lra. }
  assert (- (t * a) <= t * (2251799813685248 * (r * b - a)) <= t * a) as [Er1 Er2].
  { split; [replace (- (t * a)) with (t * - a) by ring|];
      apply Rmult_le_compat_l; lra. }
  assert (- (y * y * a) <= 1125899906842624 * (y * y - t) * a <= y * y * a) as [Ey1 Ey2].
  { split; [replace (- (y * y * a)) with (- (y * y) * a) by ring|];
      apply Rmult_le_compat_r; lra. }
  split; lra.
Qed.

Lemma yya_58 : 58 * b <= y * y * a.
Proof using Ha Hb HR HT H1 H2 H3. pose proof yya_lower. lra. Qed.

Lemma delta_small : - / 4 <= x * b - y * a <= / 4.
Proof using Ha Hb HR HT Hy H1 H2 H3 H4.
  pose proof delta_y as [Hl Hu]. pose proof yya_58 as Hyya.
  set (d := x * b - y * a) in *.
  assert (0 <= d * d) as Hdd by nra.
  set (c := 2251799813685248) in *.
  assert ((c * (d * y)) * (c * (d * y)) <= (305 * b) * (305 * b)) as Hsq by nra.
  assert (58 * b * (c * c * (d * d)) <= y * y * a * (c * c * (d * d))) as Hm.
  { apply Rmult_le_compat_r; [|exact Hyya].
    apply Rmult_le_pos; [unfold c; lra|exact Hdd]. }
  assert (y * y * a * (c * c * (d * d)) = (c * (d * y)) * (c * (d * y)) * a) as Heq by ring.
  assert ((c * (d * y)) * (c * (d * y)) * a <= (305 * b) * (305 * b) * a) as Hsqa
    by (apply Rmult_le_compat_r; lra).
  assert (b * (58 * (c * c * (d * d))) <= b * (305 * 305 * (b * a))) as Hb'.
  { rewrite Heq in Hm. lra. }
  apply Rmult_le_reg_l in Hb'; [|lra].
  assert (b * a <= 4294967296 * 4294967296) as Hba
    by (apply Rmult_le_compat; lra).
  assert (d * d <= / 16) as Hd16 by (unfold c in Hb'; lra).
  split; nra.
Qed.

(** Unless the source is 240 times as high as wide, the width before
    rounding is at least 1/2. *)
Lemma x_half : b + 1 <= 240 * a -> / 2 <= x.
Proof using Ha Hb HR HT Hy Hx H1 H2 H3 H4.
  intros Hratio. pose proof yya_upper as Hyya.
  destruct (Rle_lt_dec (/ 2) x) as [|Hlt]; [assumption|exfalso].
  assert (x * y <= / 2 * y) as E1 by (apply Rmult_le_compat_r; lra).
  assert (120 * 2251799813685247 <= 2251799813685248 * y) as E2 by lra.
  assert ((120 * 2251799813685247) * (120 * 2251799813685247)
          <= (2251799813685248 * y) * (2251799813685248 * y)) as E3
    by (apply Rmult_le_compat; lra).
  assert (1030792151040 * b <= 1030792151040 * (240 * a) - 240 * a) as E4 by lra.
  assert ((120 * 2251799813685247) * (120 * 2251799813685247) * a
          <= (2251799813685248 * y) * (2251799813685248 * y) * a) as E5
    by (apply Rmult_le_compat_r; lra).
  lra.
Qed.

(** Unless the source is 240 times as wide as high, the height before
    rounding is at least 1/2. *)
Lemma y_half : a + 1 <= 240 * b -> / 2 <= y.
Proof using Ha Hb HR HT Hy H1 H2 H3.
  intros Hratio. pose proof yya_lower as Hyya.
  destruct (Rle_lt_dec (/ 2) y) as [|Hlt]; [assumption|exfalso].
  assert (y * y <= / 2 * / 2) as E1 by (apply Rmult_le_compat; lra).
  assert (y * y * a <= / 2 * / 2 * a) as E2 by (apply Rmult_le_compat_r; lra).
  assert (1030792151040 * a <= 1030792151040 * (240 * b) - 240 * b) as E4 by lra.
  lra.
Qed.

End Analysis.

Section Rounded.
Local Open Scope R_scope.

(** Rounding two reals whose product is 60 up to 60 * 2^-51 and whose ratio
    is that of [sw] and [sh] up to 1/4. *)
Lemma rounded_sizes (sw sh w h : Z) (y x : R) :
  (0 < sw)%Z -> (0 < sh)%Z -> (0 <= w)%Z -> (0 <= h)%Z ->
  0 < y -> 0 < x ->
  - 60 <= 2251799813685248 * (x * y - 60) <= 60 ->
  - / 4 <= x * IZR sh - y * IZR sw <= / 4 ->
  IZR w <= x + / 2 < IZR w + 1 ->
  IZR h <= y + / 2 < IZR h + 1 ->
  (2 * Z.abs (w * h - 60) <= w + h)%Z
  /\ (2 * Z.abs (w * sh - h * sw) <= sw + sh)%Z.
Proof.
  intros Hsw Hsh Hw0 Hh0 Hy Hx Hxy Hd Hw Hh.
  apply (IZR_lt 0) in Hsw, Hsh. apply (IZR_le 0) in Hw0, Hh0.
  assert (2 * (IZR w * IZR h - 60) < IZR w + IZR h + 1
          /\ - (IZR w + IZR h + 1) < 2 * (IZR w * IZR h - 60)) as [A1 A2].
  { set (al := IZR w - x) in *. set (be := IZR h - y) in *.
    assert (IZR w * IZR h - x * y = al * IZR h + be * IZR w - al * be) as E
      by (unfold al, be; ring).
    assert (- / 2 < al <= / 2) as Hal by (unfold al; lra).
    assert (- / 2 < be <= / 2) as Hbe by (unfold be; lra).
    assert (- (/ 2 * IZR h) <= al * IZR h <= / 2 * IZR h) as [P1 P2].
    { split; [replace (- (/ 2 * IZR h)) with (- / 2 * IZR h) by ring|];
        apply Rmult_le_compat_r; lra. }
    assert (- (/ 2 * IZR w) <= be * IZR w <= / 2 * IZR w) as [P3 P4].
    { split; [replace (- (/ 2 * IZR w)) with (- / 2 * IZR w) by ring|];
        apply Rmult_le_compat_r; lra. }
    assert (- / 4 <= al * be <= / 4) as [P5 P6] by (split; nra).
    split; lra. }
  assert (2 * (IZR w * IZR sh - IZR h * IZR sw) < IZR sw + IZR sh + 1
          /\ - (IZR sw + IZR sh + 1) < 2 * (IZR w * IZR sh - IZR h * IZR sw)) as [B1 B2].
  { set (al := IZR w - x) in *. set (be := IZR h - y) in *.
    assert (IZR w * IZR sh - IZR h * IZR sw
            = (x * IZR sh - y * IZR sw) + al * IZR sh - be * IZR sw) as E
      by (unfold al, be; ring).
    assert (- / 2 < al <= / 2) as Hal by (unfold al; lra).
    assert (- / 2 < be <= / 2) as Hbe by (unfold be; lra).
    assert (- (/ 2 * IZR sh) <= al * IZR sh <= / 2 * IZR sh) as [P1 P2].
    { split; [replace (- (/ 2 * IZR sh)) with (- / 2 * IZR sh) by ring|];
        apply Rmult_le_compat_r; lra. }
    assert (- (/ 2 * IZR sw) <= be * IZR sw <= / 2 * IZR sw) as [P3 P4].
    { split; [replace (- (/ 2 * IZR sw)) with (- / 2 * IZR sw) by ring|];
        apply Rmult_le_compat_r; lra. }
    split; lra. }
  assert (2 * (w * h - 60) < w + h + 1)%Z as A1'.
  { apply lt_IZR. push_IZR_goal. exact A1. }
  assert (- (w + h + 1) < 2 * (w * h - 60))%Z as A2'.
  { apply lt_IZR. push_IZR_goal. exact A2. }
  assert (2 * (w * sh - h * sw) < sw + sh + 1)%Z as B1'.
  { apply lt_IZR. push_IZR_goal. exact B1. }
  assert (- (sw + sh + 1) < 2 * (w * sh - h * sw))%Z as B2'.
  { apply lt_IZR. push_IZR_goal. exact B2. }
  clear - A1' A2' B1' B2'. lia.
Qed.

End Rounded.

(** The two results of [getBitmapDimensions_] on source dimensions below
    2^32. *)
Lemma sizes_rounded (sw sh : Z) :
  (0 < sw < 4294967296)%Z -> (0 < sh < 4294967296)%Z ->
  exists w h : Z,
    Math_round (Number_div PIXEL_TARGET
       (Math_sqrt (Number_div PIXEL_TARGET (Number_div (ofZ sw) (ofZ sh))))) = ofZ w
    /\ Math_round (Math_sqrt (Number_div PIXEL_TARGET (Number_div (ofZ sw) (ofZ sh))))
       = ofZ h
    /\ toZ (ofZ w) = Some w /\ toZ (ofZ h) = Some h
    /\ (0 <= w)%Z /\ (0 <= h)%Z
    /\ ((sh < 240 * sw)%Z -> (0 < w)%Z)
    /\ ((sw < 240 * sh)%Z -> (0 < h)%Z)
    /\ (2 * Z.abs (w * h - 60) <= w + h)%Z
    /\ (2 * Z.abs (w * sh - h * sw) <= sw + sh)%Z.
Proof.
  intros Hsw Hsh.
  destruct (numberValue_ofZ sw Hsw) as [Na Va].
  destruct (numberValue_ofZ sh Hsh) as [Nb Vb].
  destruct (numberValue_ofZ 60 ltac:(lia)) as [N60 V60]. fold PIXEL_TARGET in N60, V60.
  set (R := Number_div (ofZ sw) (ofZ sh)).
  destruct (numberValue_div (-52) (-21) (-52) (-21) (ofZ sw) (ofZ sh)
              ltac:(lia) ltac:(lia) ltac:(lia) ltac:(lia) Na Nb) as [NR ER].
  fold R in NR, ER.
  set (T := Number_div PIXEL_TARGET R).
  destruct (numberValue_div (-52) (-21) (-84) (-20) PIXEL_TARGET R
              ltac:(lia) ltac:(lia) ltac:(lia) ltac:(lia) N60 NR) as [NT ET].
  fold T in NT, ET.
  set (y := Math_sqrt T).
  destruct (numberValue_sqrt (-85) 12 (-69) (-19) T ltac:(lia) ltac:(lia) ltac:(lia) ltac:(lia) NT)
    as [Ny Ey].
  fold y in Ny, Ey.
  set (x := Number_div PIXEL_TARGET y).
  destruct (numberValue_div (-52) (-21) (-69) (-19) PIXEL_TARGET y
              ltac:(lia) ltac:(lia) ltac:(lia) ltac:(lia) N60 Ny) as [Nx Ex].
  fold x in Nx, Ex.
  destruct (numberValue_round (-86) (-3) x ltac:(lia) ltac:(lia) Nx) as (w & Rw & Tw & Hw0 & Hw).
  destruct (numberValue_round (-69) (-19) y ltac:(lia) ltac:(lia) Ny) as (h & Rh & Th & Hh0 & Hh).
  pose proof (numberValue_pos _ _ _ NR) as PR.
  pose proof (numberValue_pos _ _ _ NT) as PT.
  pose proof (numberValue_pos _ _ _ Ny) as Py.
  pose proof (numberValue_pos _ _ _ Nx) as Px.
  rewrite Va, Vb in ER. rewrite V60 in ET, Ex.
  assert (1 <= IZR sw <= 4294967296)%R as Ha
    by (split; [apply (IZR_le 1)|apply IZR_le]; lia).
  assert (1 <= IZR sh <= 4294967296)%R as Hb
    by (split; [apply (IZR_le 1)|apply IZR_le]; lia).
  pose proof (delta_small _ _ _ _ _ _ Ha Hb PR PT Py ER ET Ey Ex) as Hd.
  destruct (rounded_sizes sw sh w h _ _ ltac:(lia) ltac:(lia) Hw0 Hh0 Py Px Ex Hd Hw Hh)
    as [HA HB].
  exists w, h.
  split; [exact Rw|]. split; [exact Rh|]. split; [exact Tw|]. split; [exact Th|].
  split; [exact Hw0|]. split; [exact Hh0|].
  split; [|split; [|split; [exact HA|exact HB]]].
  - intros Hratio.
    assert (IZR sh + 1 <= 240 * IZR sw)%R as Hr.
    { replace (IZR sh + 1)%R with (IZR (sh + 1)) by (rewrite plus_IZR; reflexivity).
      replace (240 * IZR sw)%R with (IZR (240 * sw)) by (rewrite mult_IZR; reflexivity).
      apply IZR_le. lia. }
    pose proof (x_half _ _ _ _ _ _ Ha Hb PR PT Py Px ER ET Ey Ex Hr) as Hhalf.
    apply lt_IZR. lra.
  - intros Hratio.
    assert (IZR sw + 1 <= 240 * IZR sh)%R as Hr.
    { replace (IZR sw + 1)%R with (IZR (sw + 1)) by (rewrite plus_IZR; reflexivity).
      replace (240 * IZR sh)%R with (IZR (240 * sh)) by (rewrite mult_IZR; reflexivity).
      apply IZR_le. lia. }
    pose proof (y_half _ _ _ _ _ Ha Hb PR PT Py ER ET Ey Hr) as Hhalf.
    apply lt_IZR. lra.
Qed.

(** C2 (as stated, fails). A source of 1 x 241 pixels gets width 0, which is
    not positive; for 2 x 1 the function returns 11 x 5 where the formula
    with the rounded height, [w = round(60 / h)], gives 12 x 5; and for a
    source of 1 x 2^1023 the quotient [60 / r] overflows: the height is
    Infinity, which is not an integer. *)
Lemma C2_counterexample :
  getBitmapDimensions_ (ofZ 1) (ofZ 241)
    = Ok {| width := ofZ 0; height := ofZ 120 |}
  /\ getBitmapDimensions_ (ofZ 2) (ofZ 1)
    = Ok {| width := ofZ 11; height := ofZ 5 |}
  /\ spec_size (ofZ 2) (ofZ 1) = {| width := ofZ 12; height := ofZ 5 |}
  /\ getBitmapDimensions_ (ofZ 1) (ofZ (2 ^ 1023))
    = Ok {| width := ofZ 0; height := Infinity |}
  /\ toZ Infinity = None.
Proof. repeat split; vm_compute; reflexivity. Qed.

(** C2 (amended). On all numbers the function computes the ratio [r], the
    height [sqrt(60 / r)] and the width [60 / sqrt(60 / r)], the width from
    the height before rounding, and rounds both. For all positive integer
    source dimensions [sw] and [sh] below 2^32 both results are integers
    [w >= 0] and [h >= 0]; the width is positive when [sh < 240 * sw] and
    the height when [sw < 240 * sh]; [w * h] differs from 60 by at most
    [(w + h) / 2], and [w / h] approximates the source ratio:
    [|w * sh - h * sw| <= (sw + sh) / 2]. *)
Theorem C2_size_bounded (imgWidth imgHeight : number) (sw sh : Z) :
  getBitmapDimensions_ imgWidth imgHeight
  = Ok {| width :=
            Math_round (Number_div PIXEL_TARGET
              (Math_sqrt (Number_div PIXEL_TARGET (Number_div imgWidth imgHeight))));
          height :=
            Math_round (Math_sqrt (Number_div PIXEL_TARGET
                                     (Number_div imgWidth imgHeight))) |}
  /\ ((0 < sw < 4294967296)%Z -> (0 < sh < 4294967296)%Z ->
      exists w h : Z,
        getBitmapDimensions_ (ofZ sw) (ofZ sh)
        = Ok {| width := ofZ w; height := ofZ h |}
        /\ toZ (ofZ w) = Some w /\ toZ (ofZ h) = Some h
        /\ (0 <= w)%Z /\ (0 <= h)%Z
        /\ ((sh < 240 * sw)%Z -> (0 < w)%Z)
        /\ ((sw < 240 * sh)%Z -> (0 < h)%Z)
        /\ (2 * Z.abs (w * h - 60) <= w + h)%Z
        /\ (2 * Z.abs (w * sh - h * sw) <= sw + sh)%Z).
Proof.
  split; [reflexivity|].
  intros Hsw Hsh.
  destruct (sizes_rounded sw sh Hsw Hsh)
    as (w & h & Hw & Hh & Tw & Th & Hw0 & Hh0 & Pw & Ph & HA & HB).
  exists w, h.
  split.
  { unfold getBitmapDimensions_. rewrite Hw, Hh. reflexivity. }
  repeat (split; [assumption|]). assumption.
Qed.

Lemma C2_size_bounded_witness :
  exists w h : Z,
    getBitmapDimensions_ (ofZ 1920) (ofZ 1080)
      = Ok {| width := ofZ w; height := ofZ h |}
    /\ toZ (ofZ w) = Some w /\ toZ (ofZ h) = Some h
    /\ (0 < w)%Z /\ (0 < h)%Z
    /\ (2 * Z.abs (w * h - 60) <= w + h)%Z
    /\ (2 * Z.abs (w * 1080 - h * 1920) <= 1920 + 1080)%Z.
Proof.
  destruct (proj2 (C2_size_bounded (ofZ 1920) (ofZ 1080) 1920 1080)
              ltac:(lia) ltac:(lia))
    as (w & h & Hd & Tw & Th & _ & _ & Pw & Ph & HA & HB).
  exists w, h.
  split; [exact Hd|]. split; [exact Tw|]. split; [exact Th|].
  split; [apply Pw; lia|]. split; [apply Ph; lia|].
  split; [exact HA|exact HB].
Defined.

(** C3 (as stated, fails). With a source height of 0 the call returns: for a
    width of 5 the result is Infinity x 0, not an error. *)
Lemma C3_counterexample :
  getBitmapDimensions_ (ofZ 5) (ofZ 0)
    = Ok {| width := Infinity; height := S754_zero false |}.
Proof. vm_compute. reflexivity. Qed.

(** C3 (amended). For every number [x], [getBitmapDimensions_(x, 0)]
    returns without raising: the division by zero is carried out and the
    result is not a pair of finite positive dimensions. It is NaN x NaN when
    [x] is zero or NaN, and otherwise an infinite width and a zero height
    with the sign of [x] (Infinity x 0 for positive [x]). *)
Theorem C3_zero_height_returns (x : number) :
  getBitmapDimensions_ x (ofZ 0)
    = Ok match x with
         | S754_nan | S754_zero _ => {| width := NaN; height := NaN |}
         | S754_infinity s | S754_finite s _ _ =>
             {| width := S754_infinity s; height := S754_zero s |}
         end.
Proof. destruct x as [s|s| |s m e]; try destruct s; vm_compute; reflexivity. Qed.

(** ** Placeholder markup *)

(** Replace the literals [js "..."] of the goal by their code units. *)
Ltac code_units :=
  repeat match goal with
         | |- context [js ?s] =>
             let v := eval vm_compute in (js s) in change (js s) with v
         end.

Lemma replaceWhiteSpace_other (inRun : bool) (c : N) (rest : jsstring) :
  isWhiteSpace c = false ->
  replaceWhiteSpace inRun (c :: rest) = c :: replaceWhiteSpace false rest.
Proof. intros Hc. cbn. rewrite Hc. reflexivity. Qed.

Lemma replaceWhiteSpace_in_run (run rest : jsstring) :
  Forall (fun c => isWhiteSpace c = true) run ->
  replaceWhiteSpace true (run ++ rest) = replaceWhiteSpace true rest.
Proof.
  induction 1 as [|c run Hc _ IH]; [reflexivity|].
  cbn. rewrite Hc. exact IH.
Qed.

Lemma replaceWhiteSpace_run_end (rest : jsstring) :
  match rest with [] => True | c :: _ => isWhiteSpace c = false end ->
  replaceWhiteSpace true rest = replaceWhiteSpace false rest.
Proof. destruct rest as [|c rest]; [reflexivity|]. intros Hc. cbn. rewrite Hc. reflexivity. Qed.

Lemma replaceWhiteSpace_run (run rest : jsstring) :
  run <> [] ->
  Forall (fun c => isWhiteSpace c = true) run ->
  match rest with [] => True | c :: _ => isWhiteSpace c = false end ->
  replaceWhiteSpace false (run ++ rest) = SPACE :: replaceWhiteSpace false rest.
Proof.
  intros Hne Hrun Hrest. destruct Hrun as [|c run Hc Hrun]; [congruence|].
  cbn. rewrite Hc. cbn.
  rewrite replaceWhiteSpace_in_run by assumption.
  rewrite replaceWhiteSpace_run_end by assumption. reflexivity.
Qed.

Lemma replaceGtLt_match (rest : jsstring) :
  replaceGtLt (js "> <" ++ rest) = js "><" ++ replaceGtLt rest.
Proof. reflexivity. Qed.

Lemma replaceGtLt_other (c : N) (rest : jsstring) :
  (forall rest', c :: rest <> js "> <" ++ rest') ->
  replaceGtLt (c :: rest) = c :: replaceGtLt rest.
Proof.
  intros Hne. cbn [replaceGtLt].
  destruct rest as [|s [|l rest']]; try reflexivity.
  destruct ((c =? 62) && (s =? 32) && (l =? 60))%N eqn:E; [|reflexivity].
  apply andb_prop in E as [E El]. apply andb_prop in E as [Ec Es].
  apply N.eqb_eq in Ec, Es, El. subst. exfalso. apply (Hne rest'). reflexivity.
Qed.

Lemma escaper_table :
  escaper 35 = js "%23" /\ escaper 37 = js "%25" /\ escaper 58 = js "%3A"
  /\ escaper 60 = js "%3C" /\ escaper 62 = js "%3E" /\ escaper dquote = js "'".
Proof. repeat split; vm_compute; reflexivity. Qed.

Lemma ESCAPE_REGEX_keys (c : N) :
  ESCAPE_REGEX c = true <-> c ∈ [35; 37; 58; 60; 62; dquote]%N.
Proof.
  unfold ESCAPE_REGEX, ESCAPE_TABLE. rewrite bool_decide_eq_true.
  rewrite !lookup_insert_is_Some, lookup_empty, is_Some_alt.
  rewrite !elem_of_cons, elem_of_nil. split.
  - intuition (subst; auto).
  - intros [->|[->|[->|[->|[->|[->|[]]]]]]];
      repeat first [left; reflexivity | right; split; [discriminate|]].
Qed.

Lemma escape_app (s t : jsstring) : escape (s ++ t) = escape s ++ escape t.
Proof.
  induction s as [|c s IH]; [reflexivity|].
  cbn [escape app]. rewrite IH, <- app_assoc. reflexivity.
Qed.

Lemma escaped_unit_clean (c x : N) :
  x ∈ (if ESCAPE_REGEX c then escaper c else [c]) ->
  x ∉ [35; 58; 60; 62; dquote]%N.
Proof.
  destruct (ESCAPE_REGEX c) eqn:E.
  - apply ESCAPE_REGEX_keys in E.
    destruct escaper_table as (E1 & E2 & E3 & E4 & E5 & E6).
    rewrite !elem_of_cons, elem_of_nil in E.
    destruct E as [->|[->|[->|[->|[->|[->|[]]]]]]];
      rewrite ?E1, ?E2, ?E3, ?E4, ?E5, ?E6; code_units;
      rewrite !elem_of_cons, !elem_of_nil; unfold dquote;
      intros Hx Hbad; intuition congruence.
  - intros Hx%list_elem_of_singleton. subst x. intros Hbad.
    assert (ESCAPE_REGEX c = true) as E'; [|congruence].
    apply ESCAPE_REGEX_keys. revert Hbad.
    rewrite !elem_of_cons, !elem_of_nil. tauto.
Qed.

Lemma escape_clean (s : jsstring) (x : N) :
  x ∈ escape s -> x ∉ [35; 58; 60; 62; dquote]%N.
Proof.
  induction s as [|c s IH]; cbn [escape].
  - intros H. inversion H.
  - rewrite elem_of_app. intros [H|H]; [exact (escaped_unit_clean c x H)|auto].
Qed.

Lemma attribs_setAttribute (node : Node) (name : string) (value : jsstring) :
  attribs (setAttribute node name value) = <[ js name := value ]> <$> attribs node.
Proof. destruct node; reflexivity. Qed.

Lemma attr_setAttribute (node : Node) (name : string) (value : jsstring) :
  is_Some (attribs node) ->
  attr (setAttribute node name value) name = Some value.
Proof.
  intros [attrs Hattrs]. unfold attr. rewrite attribs_setAttribute, Hattrs.
  cbn. apply lookup_insert_eq.
Qed.

Lemma addBlurryPlaceholder_fulfilled {platform : Platform}
    (src : jsstring) (params : Params) (p : Settled) (img : Node) :
  addBlurryPlaceholder_ src params = Ok p ->
  fulfilled p = Some img ->
  exists (dataURI : DataURI) (attrs : gmap jsstring jsstring),
    img = Element (js "img")
            (<[ js "src" := DATA_URI_PREFIX ++ optimize (svgTemplate dataURI) ]> attrs) []
    /\ attrs !! js "placeholder" = Some []
    /\ logged p = [].
Proof.
  unfold addBlurryPlaceholder_. intros Hp Himg.
  destruct (getDataURI_ _ params) as [promise|message]; [|discriminate Hp].
  unfold mbind, Result_bind in Hp.
  destruct promise as [dataURI|message].
  - match type of Hp with Ok ?r = _ => assert (r = p) as <- by congruence end.
    cbn [fulfilled logged] in *. apply (inj Some) in Himg. subst img.
    exists dataURI. eexists. split; [reflexivity|]. split; [|reflexivity].
    rewrite lookup_insert_ne by (vm_compute; discriminate).
    apply lookup_insert_eq.
  - match type of Hp with Ok ?r = _ => assert (r = p) as <- by congruence end.
    discriminate Himg.
Qed.

(** C7. When a unit succeeds, the [src] attribute of its [img] is the prefix
    [data:image/svg+xml;charset=utf-8,] followed by the markup after three
    replacements in this order: every run of white space becomes one space,
    every [> <] becomes [><], and each of [# % : < > "] is replaced by its
    table entry in one pass, so that the replacement text is not escaped
    again; the escaped markup contains no [#], [:], [<], [>] or ["]. *)
Theorem C7_markup_escaped {platform : Platform}
    (src : jsstring) (params : Params) (p : Settled) (img : Node) :
  addBlurryPlaceholder_ src params = Ok p ->
  fulfilled p = Some img ->
  (exists dataURI : DataURI,
     attr img "src"
       = Some (DATA_URI_PREFIX
               ++ escape (replaceGtLt (replaceWhiteSpace false (svgTemplate dataURI))))
     /\ forall x, x ∈ escape (replaceGtLt (replaceWhiteSpace false (svgTemplate dataURI))) ->
                  x ∉ js "#:<>" ++ [dquote])
  (* white space: a maximal run becomes one space, the rest is kept *)
  /\ (forall run rest,
        run <> [] -> Forall (fun c => isWhiteSpace c = true) run ->
        match rest with [] => True | c :: _ => isWhiteSpace c = false end ->
        replaceWhiteSpace false (run ++ rest) = SPACE :: replaceWhiteSpace false rest)
  /\ (forall c rest,
        isWhiteSpace c = false ->
        replaceWhiteSpace false (c :: rest) = c :: replaceWhiteSpace false rest)
  /\ replaceWhiteSpace false [] = []
  (* [> <] becomes [><] *)
  /\ (forall rest, replaceGtLt (js "> <" ++ rest) = js "><" ++ replaceGtLt rest)
  /\ (forall c rest,
        (forall rest', c :: rest <> js "> <" ++ rest') ->
        replaceGtLt (c :: rest) = c :: replaceGtLt rest)
  /\ replaceGtLt [] = []
  (* the table, applied to each code unit on its own *)
  /\ escape (js "#") = js "%23" /\ escape (js "%") = js "%25"
  /\ escape (js ":") = js "%3A" /\ escape (js "<") = js "%3C"
  /\ escape (js ">") = js "%3E" /\ escape [dquote] = js "'"
  /\ (forall c, c ∉ js "#%:<>" ++ [dquote] -> escape [c] = [c])
  /\ (forall s t, escape (s ++ t) = escape s ++ escape t)
  /\ (forall s x, x ∈ escape s -> x ∉ js "#:<>" ++ [dquote]).
Proof.
  intros Hp Himg. split; [|split_and!].
  - destruct (addBlurryPlaceholder_fulfilled src params p img Hp Himg)
      as (dataURI & attrs & -> & _).
    exists dataURI. split.
    + unfold attr. cbn [attribs]. apply lookup_insert_eq.
    + intros x. apply escape_clean.
  - exact replaceWhiteSpace_run.
  - intros c rest. apply replaceWhiteSpace_other.
  - reflexivity.
  - exact replaceGtLt_match.
  - exact replaceGtLt_other.
  - reflexivity.
  - vm_compute; reflexivity.
  - vm_compute; reflexivity.
  - vm_compute; reflexivity.
  - vm_compute; reflexivity.
  - vm_compute; reflexivity.
  - vm_compute; reflexivity.
  - intros c Hc. cbn [escape].
    destruct (ESCAPE_REGEX c) eqn:E; [|reflexivity].
    apply ESCAPE_REGEX_keys in E. contradiction.
  - exact escape_app.
  - exact escape_clean.
Qed.

Lemma C7_markup_escaped_witness :
  exists (p : Settled) (img : Node),
    @addBlurryPlaceholder_ samplePlatform (js "a.jpg") defaultParams = Ok p
    /\ fulfilled p = Some img
    /\ exists dataURI : DataURI,
         attr img "src"
           = Some (DATA_URI_PREFIX
                   ++ escape (replaceGtLt (replaceWhiteSpace false (svgTemplate dataURI)))).
Proof.
  eexists _, _. split; [vm_compute; reflexivity|]. split; [reflexivity|].
  destruct (@C7_markup_escaped samplePlatform (js "a.jpg") defaultParams _ _
              ltac:(vm_compute; reflexivity) eq_refl) as [[dataURI [Hsrc _]] _].
  exists dataURI. exact Hsrc.
Defined.

(** ** Path resolution *)

Lemma posix_resolve_absolute (cwd path : jsstring) :
  posix_isAbsolute cwd = true -> posix_isAbsolute (posix_resolve cwd path) = true.
Proof.
  intros Hcwd. unfold posix_resolve.
  destruct cwd as [|c cwd]; [discriminate|].
  destruct path as [|d path]; cbn [fst snd].
  - rewrite Hcwd. reflexivity.
  - destruct (posix_isAbsolute (d :: path)); [reflexivity|].
    rewrite Hcwd. reflexivity.
Qed.

(** C9 (as stated, fails). With the default base path, the empty string,
    the reference [http://example.com/a.jpg] is a valid absolute URL, but
    [new URL(reference, '')] throws because the base is not one: the URL
    is joined and resolved as a path of the file system, here in the
    working directory [/srv]. *)
Lemma C9_counterexample :
  hasScheme (js "http://example.com/a.jpg") = true
  /\ hasScheme [] = false
  /\ @resolvePath_ (nodePlatform (js "/srv") (fun input _ => Ok input) samplePlatform)
       [] (js "http://example.com/a.jpg")
     = Ok (js "/srv/http:/example.com/a.jpg").
Proof. repeat split; vm_compute; reflexivity. Qed.

(** C9 (amended). [resolvePath_] returns for every pair of strings and
    never raises. The result is the string form of a URL only when the
    base path itself starts with a URL scheme and the URL constructor
    accepts the reference against it. In every other case, and so for the
    empty or any other base path without a scheme whatever the reference
    is, absolute URLs included, the two are joined as path segments and
    resolved in the working directory, which gives an absolute path of the
    file system. *)
Theorem C9_resolvePath_total (cwd : jsstring)
    (parse : jsstring -> jsstring -> Result jsstring) (jimp : Platform)
    (base path : jsstring) :
  posix_isAbsolute cwd = true ->
  exists resolved : jsstring,
    @resolvePath_ (nodePlatform cwd parse jimp) base path = Ok resolved
    /\ (if hasScheme base
        then match parse path base with
             | Ok url => resolved = url
             | Err _ =>
                 resolved = posix_resolve cwd (posix_join base path)
                 /\ posix_isAbsolute resolved = true
             end
        else resolved = posix_resolve cwd (posix_join base path)
             /\ posix_isAbsolute resolved = true)
    /\ (base = [] ->
        resolved = posix_resolve cwd (posix_join [] path)
        /\ head resolved = Some SLASH).
Proof.
  intros Hcwd.
  pose proof (posix_resolve_absolute cwd (posix_join base path) Hcwd) as Habs.
  unfold resolvePath_, catch.
  change (@URL_toString (nodePlatform cwd parse jimp) path base)
    with (URL_constructor parse path base).
  change (@path_resolve (nodePlatform cwd parse jimp)) with (posix_resolve cwd).
  change (@path_join (nodePlatform cwd parse jimp)) with posix_join.
  unfold URL_constructor. destruct (hasScheme base) eqn:Hscheme.
  - destruct (parse path base) as [url|e].
    + exists url. split; [reflexivity|]. split; [reflexivity|].
      intros ->. discriminate Hscheme.
    + eexists. split; [reflexivity|]. split; [auto|].
      intros ->. discriminate Hscheme.
  - eexists. split; [reflexivity|]. split; [auto|].
    intros ->. split; [reflexivity|].
    destruct (posix_resolve cwd (posix_join [] path)) as [|c rest]; [discriminate|].
    cbn in Habs. apply N.eqb_eq in Habs. subst c. reflexivity.
Qed.

Lemma C9_resolvePath_total_witness :
  exists resolved : jsstring,
    @resolvePath_ (nodePlatform (js "/srv") (fun input _ => Ok input) samplePlatform)
      (js "img") (js "../photos/./a.jpg")
    = Ok resolved
    /\ resolved = js "/srv/photos/a.jpg".
Proof.
  destruct (C9_resolvePath_total (js "/srv") (fun input _ => Ok input) samplePlatform
              (js "img") (js "../photos/./a.jpg") eq_refl)
    as (resolved & Hresolved & Hbranch & _).
  exists resolved. split; [exact Hresolved|].
  assert (hasScheme (js "img") = false) as Hscheme by (vm_compute; reflexivity).
  rewrite Hscheme in Hbranch. destruct Hbranch as [-> _]. vm_compute. reflexivity.
Defined.

(** ** The selection policy *)

Lemma endsWith_suffix (s t : jsstring) : endsWith s t = true <-> t `suffix_of` s.
Proof.
  unfold endsWith. split.
  - destruct (Nat.leb_spec (length t) (length s)) as [Hle|Hlt]; [|discriminate].
    intros H%bool_decide_eq_true. exists (take (length s - length t) s).
    rewrite <- H at 2. symmetry. apply take_drop.
  - intros [k ->]. rewrite length_app.
    destruct (Nat.leb_spec (length t) (length k + length t)) as [Hle|Hlt]; [|lia].
    apply bool_decide_eq_true.
    replace (length k + length t - length t) with (length k) by lia.
    apply drop_app_length.
Qed.

Lemma endsWith_same_length (s t1 t2 : jsstring) :
  length t1 = length t2 -> endsWith s t1 = true -> endsWith s t2 = true -> t1 = t2.
Proof.
  unfold endsWith. intros Hlen. rewrite Hlen.
  destruct (length t2 <=? length s)%nat; [|discriminate].
  intros H1%bool_decide_eq_true H2%bool_decide_eq_true. congruence.
Qed.

Lemma hasPlaceholder_child (node : Node) :
  hasPlaceholder_ node = true
  <-> exists child attrs,
        child ∈ childNodes node /\ attribs child = Some attrs
        /\ is_Some (attrs !! js "placeholder").
Proof.
  unfold hasPlaceholder_. rewrite bool_decide_eq_true. split.
  - destruct (find isPlaceholder (childNodes node)) as [child|] eqn:E; [|congruence].
    intros _. apply List.find_some in E as [Hin Hp].
    unfold isPlaceholder in Hp. destruct (attribs child) as [attrs|] eqn:Ea; [|discriminate].
    apply bool_decide_eq_true in Hp.
    exists child, attrs. rewrite list_elem_of_In. split; [assumption|].
    split; [exact Ea|]. destruct (attrs !! js "placeholder"); [eauto|congruence].
  - intros (child & attrs & Hin & Ea & [v Hv]) E.
    pose proof (List.find_none _ _ E child) as Hnone.
    rewrite <- list_elem_of_In in Hnone. specialize (Hnone Hin).
    unfold isPlaceholder in Hnone. rewrite Ea in Hnone.
    apply bool_decide_eq_false in Hnone. apply Hnone. congruence.
Qed.

Lemma shouldAdd_false_of_placeholder (node : Node) (src tag : option jsstring) :
  hasPlaceholder_ node = true -> shouldAddBlurryPlaceholder_ node src tag = false.
Proof.
  intros H. unfold shouldAddBlurryPlaceholder_. rewrite H.
  destruct (negb (truthy src)); reflexivity.
Qed.

Lemma shouldAdd_conjunction (node : Node) (src tag : option jsstring) :
  shouldAddBlurryPlaceholder_ node src tag
    = truthy src
      && negb (hasPlaceholder_ node)
      && (endsWith (default [] src) (js ".jpg") || endsWith (default [] src) (js "jpeg"))
      && negb (bool_decide (tag = Some (js "amp-img"))
               && bool_decide (attr node "noloading" <> None))
      && (bool_decide (tag = Some (js "amp-video"))
          || bool_decide (tag = Some (js "amp-img"))
             && bool_decide (attr node "layout" = Some (js "responsive"))).
Proof.
  unfold shouldAddBlurryPlaceholder_.
  destruct (truthy src); [|reflexivity]. cbn [negb andb].
  destruct (hasPlaceholder_ node); [reflexivity|]. cbn [negb andb].
  destruct (endsWith (default [] src) (js ".jpg")),
           (endsWith (default [] src) (js "jpeg")); cbn [negb andb orb];
    try reflexivity;
    destruct (bool_decide (tag = Some (js "amp-img"))
              && bool_decide (attr node "noloading" <> None)); reflexivity.
Qed.

(** C6. [shouldAddBlurryPlaceholder_] is the conjunction, taken from left to
    right, of five tests: the image reference is not empty; no child is a
    placeholder; the reference ends in [.jpg] or [jpeg], compared code unit
    by code unit; the element is not an [amp-img] with a [noloading]
    attribute; the element is an [amp-video], or an [amp-img] whose [layout]
    is [responsive]. The reference is [src] for an [amp-img] and a non-empty
    [poster] for an [amp-video]. A reference that ends in [.png] never
    qualifies. *)
Theorem C6_qualification (node : Node) (src tag : option jsstring) :
  shouldAddBlurryPlaceholder_ node src tag
    = truthy src
      && negb (hasPlaceholder_ node)
      && (endsWith (default [] src) (js ".jpg") || endsWith (default [] src) (js "jpeg"))
      && negb (bool_decide (tag = Some (js "amp-img"))
               && bool_decide (attr node "noloading" <> None))
      && (bool_decide (tag = Some (js "amp-video"))
          || bool_decide (tag = Some (js "amp-img"))
             && bool_decide (attr node "layout" = Some (js "responsive")))
  /\ (truthy src = true <-> exists s, src = Some s /\ s <> [])
  /\ (forall s t, endsWith s t = true <-> t `suffix_of` s)
  /\ candidateSource node
     = (if bool_decide (tagName node = Some (js "amp-video"))
           && truthy (attr node "poster")
        then attr node "poster"
        else if bool_decide (tagName node = Some (js "amp-img"))
             then attr node "src" else None)
  /\ (forall s, endsWith s (js ".png") = true ->
                shouldAddBlurryPlaceholder_ node (Some s) tag = false)
  /\ shouldAddBlurryPlaceholder_ node (Some (js "photo.JPG")) tag = false.
Proof.
  split_and!.
  - apply shouldAdd_conjunction.
  - split.
    + destruct src as [[|c s]|]; cbn; try discriminate.
      intros _. exists (c :: s). split; [reflexivity|discriminate].
    + intros (s & -> & Hs). destruct s; [congruence|reflexivity].
  - exact endsWith_suffix.
  - unfold candidateSource.
    destruct (bool_decide (tagName node = Some (js "amp-video"))
              && truthy (attr node "poster")); reflexivity.
  - intros s Hpng. unfold shouldAddBlurryPlaceholder_.
    destruct (negb (truthy (Some s))); [reflexivity|].
    destruct (hasPlaceholder_ node); [reflexivity|].
    change (default [] (Some s)) with s.
    destruct (endsWith s (js ".jpg")) eqn:Ejpg.
    { pose proof (endsWith_same_length s (js ".png") (js ".jpg") eq_refl Hpng Ejpg).
      discriminate. }
    destruct (endsWith s (js "jpeg")) eqn:Ejpeg.
    { pose proof (endsWith_same_length s (js ".png") (js "jpeg") eq_refl Hpng Ejpeg).
      discriminate. }
    reflexivity.
  - unfold shouldAddBlurryPlaceholder_. cbn [truthy js negb default].
    destruct (hasPlaceholder_ node); reflexivity.
Qed.

(** C10. [hasPlaceholder_] holds exactly when some child, of any tag, has
    an [attribs] object in which [placeholder] is defined, whatever its
    value (the empty string included) and whatever its [class]; such a node
    never qualifies. *)
Theorem C10_any_placeholder_child (node : Node) :
  (hasPlaceholder_ node = true
   <-> exists child attrs,
         child ∈ childNodes node /\ attribs child = Some attrs
         /\ is_Some (attrs !! js "placeholder"))
  /\ (hasPlaceholder_ node = true ->
      forall src tag, shouldAddBlurryPlaceholder_ node src tag = false)
  /\ (forall tag attrs before after childTag childAttrs grandchildren value,
        childAttrs !! js "placeholder" = Some value ->
        hasPlaceholder_
          (Element tag attrs
             (before ++ Element childTag childAttrs grandchildren :: after)) = true).
Proof.
  split_and!.
  - apply hasPlaceholder_child.
  - intros H src tag. apply shouldAdd_false_of_placeholder, H.
  - intros tag attrs before after childTag childAttrs grandchildren value Hv.
    apply hasPlaceholder_child.
    exists (Element childTag childAttrs grandchildren), childAttrs.
    split; [|split; [reflexivity|eauto]].
    cbn [childNodes]. apply elem_of_app. right. apply elem_of_cons. left. reflexivity.
Qed.

(** ** The loop of [transform] *)

Lemma qualifies_tag (n : Node) :
  qualifies n = true ->
  tagName n = Some (js "amp-video") \/ tagName n = Some (js "amp-img").
Proof.
  unfold qualifies. rewrite shouldAdd_conjunction.
  intros H. apply andb_prop in H as [_ H]. apply orb_prop in H as [H|H].
  - left. exact (bool_decide_eq_true_1 _ H).
  - right. apply andb_prop in H as [H _]. exact (bool_decide_eq_true_1 _ H).
Qed.

Lemma qualifies_not_template (n : Node) : qualifies n = true -> isTemplate n = false.
Proof.
  intros [H|H]%qualifies_tag; unfold isTemplate; rewrite H;
    apply bool_decide_eq_false; intros [= E]; vm_compute in E; discriminate.
Qed.

Lemma qualifies_element (n : Node) :
  qualifies n = true -> exists tag attrs children, n = Element tag attrs children.
Proof.
  intros H%qualifies_tag. destruct n as [tag attrs children|data]; [eauto|].
  destruct H; discriminate.
Qed.

Lemma qualifies_no_placeholder (n : Node) :
  qualifies n = true -> hasPlaceholder_ n = false.
Proof.
  unfold qualifies. intros H. destruct (hasPlaceholder_ n) eqn:E; [|reflexivity].
  rewrite (shouldAdd_false_of_placeholder n _ _ E) in H. discriminate.
Qed.

Section Walk.
Context {platform : Platform}.
Variable params : Params.

Lemma resolvePath_returns (base path : jsstring) :
  exists resolved, resolvePath_ base path = Ok resolved.
Proof. unfold resolvePath_, catch. destruct (URL_toString path base); eauto. Qed.

Lemma addBlurryPlaceholder_returns (src : jsstring) :
  exists p, addBlurryPlaceholder_ src params = Ok p.
Proof.
  unfold addBlurryPlaceholder_, getDataURI_.
  destruct (resolvePath_returns (default [] (imageBasePath params))
              (default []
                 (attr (setAttribute
                          (setAttribute
                             (setAttribute (createElement "img") "class"
                                (js "i-amphtml-blurry-placeholder"))
                             "placeholder" []) "src" src) "src")))
    as [resolved ->].
  unfold mbind, Result_bind. eauto.
Qed.

Variable order : list Node.

Lemma nextNode_range (i j : nat) : nextNode order i = Some j -> j = S i /\ j < length order.
Proof. unfold nextNode. case_decide; intros [= <-]; auto. Qed.

Lemma skipNodeAndChildren_range (i j : nat) :
  skipNodeAndChildren order i = Some j -> i < j /\ j < length order.
Proof.
  unfold skipNodeAndChildren. destruct (order !! i) as [n|]; [|discriminate].
  cbn. case_decide; intros [= <-]. split; [|assumption].
  destruct n; cbn; lia.
Qed.

Lemma upToNth_0 (path : list nat) : upToNth order 0 path = [].
Proof. destruct path; reflexivity. Qed.

Lemma loop_spec (fuel : nat) (node : option nat) (s : LoopState) :
  placeholders s < MAX_BLURRED_PLACEHOLDERS ->
  exists new : list Launch,
    promises (stateOf (loop params order fuel node s)) = promises s ++ new
    /\ map target new
       = take (MAX_BLURRED_PLACEHOLDERS - placeholders s)
              (List.filter (qualifiesAt order) (cursorPath order fuel node))
    /\ Forall (launchedFor params order) new
    /\ placeholders (stateOf (loop params order fuel node s))
       = placeholders s + length new
    /\ visited (stateOf (loop params order fuel node s))
       = visited s ++ upToNth order (MAX_BLURRED_PLACEHOLDERS - placeholders s)
                              (cursorPath order fuel node)
    /\ (length new = MAX_BLURRED_PLACEHOLDERS - placeholders s ->
        exists s', loop params order fuel node s = Returned s').
Proof.
  revert node s. induction fuel as [|fuel IH]; intros node s Hcap.
  - exists []. destruct (MAX_BLURRED_PLACEHOLDERS - placeholders s) eqn:E; [lia|].
    destruct node as [i|]; cbn [loop cursorPath stateOf List.filter upToNth take map length].
    + rewrite !app_nil_r. repeat split; auto; discriminate.
    + rewrite !app_nil_r. repeat split; eauto.
  - destruct node as [i|].
    2:{ exists []. destruct (MAX_BLURRED_PLACEHOLDERS - placeholders s) eqn:E; [lia|].
        cbn [loop cursorPath stateOf List.filter upToNth take map length].
        rewrite !app_nil_r. repeat split; eauto. }
    cbn [loop cursorPath]. destruct (order !! i) as [n|] eqn:En.
    2:{ exists []. destruct (MAX_BLURRED_PLACEHOLDERS - placeholders s) eqn:E; [lia|].
        cbn [stateOf List.filter upToNth take map length].
        rewrite !app_nil_r. repeat split; auto; discriminate. }
    destruct (MAX_BLURRED_PLACEHOLDERS - placeholders s) as [|k'] eqn:Ek; [lia|].
    assert (qualifiesAt order i = qualifies n) as Hq
      by (unfold qualifiesAt; rewrite En; reflexivity).
    cbn [List.filter upToNth]. rewrite !Hq.
    destruct (isTemplate n) eqn:Et.
    + (* a template: skipNodeAndChildren, then nextNode *)
      assert (qualifies n = false) as ->.
      { destruct (qualifies n) eqn:Eq; [|reflexivity].
        rewrite (qualifies_not_template n Eq) in Et. discriminate. }
      destruct (skipNodeAndChildren order i) as [j|].
      * destruct (IH (nextNode order j) (visit i s) Hcap) as (new & H1 & H2 & H3 & H4 & H5 & H6).
        exists new. cbn [visit placeholders promises visited] in *.
        rewrite Ek in *. rewrite H5, <- app_assoc. split_and!; auto.
      * exists []. cbn [stateOf visit List.filter upToNth take map length placeholders promises visited].
        rewrite !app_nil_r. repeat split; auto; discriminate.
    + fold (qualifies n). destruct (qualifies n) eqn:Eq.
      * (* the node qualifies: its unit is launched *)
        destruct (addBlurryPlaceholder_returns (default [] (candidateSource n))) as [p Hp].
        rewrite Hp.
        set (l := {| target := i; source := default [] (candidateSource n); settled := p |}).
        assert (launchedFor params order l) as Hl by (exists n; auto).
        cbn [launch visit placeholders promises visited].
        destruct (Nat.leb_spec MAX_BLURRED_PLACEHOLDERS (S (placeholders s))) as [Hmax|Hmax].
        -- assert (k' = 0) as -> by lia.
           exists [l]. cbn [stateOf placeholders promises visited map length take upToNth].
           rewrite take_0, upToNth_0.
           split_and!; [reflexivity|reflexivity|auto|cbn; lia|reflexivity|eauto].
        -- destruct (IH (nextNode order i) (launch l (visit i s)) Hmax)
             as (new & H1 & H2 & H3 & H4 & H5 & H6).
           cbn [launch visit placeholders promises visited] in *.
           replace (MAX_BLURRED_PLACEHOLDERS - S (placeholders s)) with k' in * by lia.
           exists (l :: new). rewrite H1, H4, H5, <- !app_assoc.
           cbn [map length take app]. rewrite H2.
           split_and!; auto; try lia.
      * destruct (IH (nextNode order i) (visit i s) Hcap) as (new & H1 & H2 & H3 & H4 & H5 & H6).
        exists new. cbn [visit placeholders promises visited] in *.
        rewrite Ek in *. rewrite H5, <- app_assoc. split_and!; auto.
Qed.

Lemma loop_finishes (fuel : nat) (node : option nat) (s : LoopState) :
  (forall i, node = Some i -> i < length order /\ length order <= fuel + i) ->
  forall s', loop params order fuel node s <> Unfinished s'.
Proof.
  revert node s. induction fuel as [|fuel IH]; intros [i|] s Hi s'; try discriminate.
  - destruct (Hi i eq_refl). lia.
  - destruct (Hi i eq_refl) as [Hlt Hfuel]. cbn [loop].
    destruct (lookup_lt_is_Some_2 order i Hlt) as [n ->].
    assert (forall j, i <= j -> forall k, nextNode order j = Some k ->
                      k < length order /\ length order <= fuel + k) as Hnext.
    { intros j Hj k [-> Hk]%nextNode_range. lia. }
    destruct (isTemplate n).
    + destruct (skipNodeAndChildren order i) as [j|] eqn:Ej; [|discriminate].
      apply skipNodeAndChildren_range in Ej as [Hj _].
      apply IH, (Hnext j). lia.
    + destruct (shouldAddBlurryPlaceholder_ n _ _).
      * destruct (addBlurryPlaceholder_ _ params); [|discriminate].
        destruct (_ <=? _)%nat; [discriminate|]. apply IH, (Hnext i). lia.
      * apply IH, (Hnext i). lia.
Qed.

Lemma cursorPath_no_template (fuel i : nat) :
  Forall (fun n => isTemplate n = false) order ->
  i < length order -> length order <= fuel + i ->
  cursorPath order fuel (Some i) = seq i (length order - i).
Proof.
  intros Hall. revert i. induction fuel as [|fuel IH]; intros i Hlt Hfuel; [lia|].
  cbn [cursorPath]. destruct (lookup_lt_is_Some_2 order i Hlt) as [n Hn]. rewrite Hn.
  rewrite (proj1 (Forall_lookup _ _) Hall i n Hn).
  replace (length order - i) with (S (length order - S i)) by lia. cbn [seq]. f_equal.
  unfold nextNode. case_decide as Hs.
  - apply IH; lia.
  - replace (length order - S i) with 0 by lia. destruct fuel; reflexivity.
Qed.

Lemma upToNth_prefix (k : nat) (path : list nat) : upToNth order k path `prefix_of` path.
Proof.
  revert k. induction path as [|i rest IH]; intros [|k]; cbn [upToNth];
    try apply prefix_nil.
  apply prefix_cons, IH.
Qed.

Lemma upToNth_last (k : nat) (path : list nat) :
  0 < k ->
  length (take k (List.filter (qualifiesAt order) path)) = k ->
  last (upToNth order k path) = last (take k (List.filter (qualifiesAt order) path)).
Proof.
  revert k. induction path as [|i rest IH]; intros [|k] Hk Hlen; try lia.
  - cbn in Hlen. lia.
  - cbn [upToNth List.filter] in *. destruct (qualifiesAt order i).
    + cbn [take length] in *. destruct k as [|k].
      * rewrite upToNth_0, take_0. reflexivity.
      * rewrite !last_cons, IH by lia. reflexivity.
    + rewrite last_cons, IH by lia.
      destruct (take (S k) (List.filter (qualifiesAt order) rest)) eqn:E; [cbn in Hlen; lia|].
      rewrite last_cons. destruct (last l); reflexivity.
Qed.

End Walk.

(** ** Appending the placeholders *)

Section Place.
Variable unit : nat -> option Node.

Lemma place_Element (i : nat) (tag : jsstring) (attrs : gmap jsstring jsstring)
    (children : list Node) :
  place unit i (Element tag attrs children)
  = Element tag attrs (placeForest unit (S i) children ++ option_list (unit i)).
Proof.
  cbn [place]. do 2 f_equal. generalize (S i) as j.
  induction children as [|c rest IH]; intros j; [reflexivity|].
  cbn [placeForest]. rewrite IH. reflexivity.
Qed.


Lemma place_tagName (i : nat) (n : Node) : tagName (place unit i n) = tagName n.
Proof. destruct n; reflexivity. Qed.

Lemma place_attribs (i : nat) (n : Node) : attribs (place unit i n) = attribs n.
Proof. destruct n; reflexivity. Qed.

Lemma place_isPlaceholder (i : nat) (n : Node) :
  isPlaceholder (place unit i n) = isPlaceholder n.
Proof. unfold isPlaceholder. rewrite place_attribs. reflexivity. Qed.

Lemma placeForest_find_placeholder (i : nat) (nodes : list Node) :
  find isPlaceholder (placeForest unit i nodes) = None
  <-> find isPlaceholder nodes = None.
Proof.
  revert i. induction nodes as [|c rest IH]; intros i; [reflexivity|].
  cbn [placeForest find]. rewrite place_isPlaceholder.
  destruct (isPlaceholder c); [split; discriminate|apply IH].
Qed.



Lemma documentOrder_Element (tag : jsstring) (attrs : gmap jsstring jsstring)
    (children : list Node) :
  documentOrder (Element tag attrs children)
  = Element tag attrs children :: forestOrder children.
Proof. reflexivity. Qed.

Lemma forestOrder_cons (c : Node) (rest : list Node) :
  forestOrder (c :: rest) = documentOrder c ++ forestOrder rest.
Proof. reflexivity. Qed.

Lemma forestOrder_app (l1 l2 : list Node) :
  forestOrder (l1 ++ l2) = forestOrder l1 ++ forestOrder l2.
Proof. apply List.flat_map_app. Qed.

(** The node at position [k] of a subtree is found, with its children
    placed, in the document order of the subtree after placing. *)
Lemma place_member (n : Node) :
  forall i k m,
    documentOrder n !! k = Some m ->
    place unit (i + k) m ∈ documentOrder (place unit i n).
Proof.
  induction n as [tag attrs children IH|data] using Node_ind; intros i k m Hk.
  - destruct k as [|k].
    + cbn in Hk. injection Hk as <-. rewrite Nat.add_0_r.
      rewrite place_Element. apply elem_of_cons. left. reflexivity.
    + rewrite documentOrder_Element in Hk.
      change (forestOrder children !! k = Some m) in Hk.
      rewrite place_Element, documentOrder_Element, forestOrder_app.
      apply elem_of_cons. right. apply elem_of_app. left.
      replace (i + S k) with (S i + k) by lia.
      revert Hk. generalize (S i) as j. revert k.
      induction IH as [|c rest Hc _ IHrest]; intros k j Hk; [discriminate|].
      rewrite forestOrder_cons in Hk. cbn [placeForest]. rewrite forestOrder_cons.
      apply elem_of_app.
      destruct (decide (k < length (documentOrder c))) as [Hlt|Hge].
      * left. rewrite lookup_app_l in Hk by assumption. apply Hc, Hk.
      * right. rewrite lookup_app_r in Hk by lia.
        replace (j + k) with (j + length (documentOrder c) + (k - length (documentOrder c)))
          by lia.
        apply IHrest, Hk.
  - destruct k as [|k]; [|discriminate]. cbn in Hk. injection Hk as <-.
    cbn. apply elem_of_cons. left. reflexivity.
Qed.

Lemma placeForest_member (nodes : list Node) :
  forall i k m,
    forestOrder nodes !! k = Some m ->
    place unit (i + k) m ∈ forestOrder (placeForest unit i nodes).
Proof.
  induction nodes as [|c rest IH]; intros i k m Hk; [discriminate|].
  rewrite forestOrder_cons in Hk. cbn [placeForest]. rewrite forestOrder_cons.
  apply elem_of_app.
  destruct (decide (k < length (documentOrder c))) as [Hlt|Hge].
  - left. rewrite lookup_app_l in Hk by assumption. apply place_member, Hk.
  - right. rewrite lookup_app_r in Hk by lia.
    replace (i + k) with (i + length (documentOrder c) + (k - length (documentOrder c)))
      by lia.
    apply IH, Hk.
Qed.



End Place.

(** ** The region of the walk *)

Lemma splitAtTag_Some (tag : jsstring) (nodes before after : list Node) (x : Node) :
  splitAtTag tag nodes = Some (before, x, after) ->
  nodes = before ++ x :: after
  /\ tagName x = Some tag
  /\ Forall (fun c => tagName c <> Some tag) before.
Proof.
  revert before. induction nodes as [|c rest IH]; intros before; [discriminate|].
  cbn [splitAtTag]. case_bool_decide as Hc.
  - intros [= <- <- <-]. auto.
  - destruct (splitAtTag tag rest) as [[[b y] a]|]; [|discriminate].
    cbn. intros [= Eb Ey Ea]. subst before y a.
    destruct (IH b eq_refl) as (-> & Hy & Hb). auto.
Qed.

Lemma splitAtTag_app (tag : jsstring) (before after : list Node) (x : Node) :
  Forall (fun c => tagName c <> Some tag) before ->
  tagName x = Some tag ->
  splitAtTag tag (before ++ x :: after) = Some (before, x, after).
Proof.
  intros Hb Hx. induction Hb as [|c before Hc _ IH]; cbn [splitAtTag app].
  - rewrite bool_decide_eq_true_2 by assumption. reflexivity.
  - rewrite bool_decide_eq_false_2 by assumption. rewrite IH. reflexivity.
Qed.

Lemma bodyRegion_Some (tree : TreeAdapter) (region : list Node) :
  bodyRegion tree = Some region ->
  exists rootTag rootAttrs beforeHtml htmlTag htmlAttrs beforeBody body afterBody afterHtml,
    root tree = Element rootTag rootAttrs
                  (beforeHtml
                   ++ Element htmlTag htmlAttrs (beforeBody ++ body :: afterBody)
                   :: afterHtml)
    /\ htmlTag = js "html"
    /\ tagName body = Some (js "body")
    /\ Forall (fun c => tagName c <> Some (js "html")) beforeHtml
    /\ Forall (fun c => tagName c <> Some (js "body")) beforeBody
    /\ region = body :: afterBody ++ afterHtml.
Proof.
  unfold bodyRegion. destruct tree as [[rootTag rootAttrs rootChildren|data]]; [|discriminate].
  cbn [root childNodes].
  destruct (splitAtTag (js "html") rootChildren) as [[[beforeHtml html] afterHtml]|] eqn:Eh;
    [|discriminate].
  apply splitAtTag_Some in Eh as (-> & Hhtml & HbH). cbn [mbind option_bind].
  destruct html as [htmlTag htmlAttrs htmlChildren|data]; [|discriminate].
  cbn [childNodes].
  destruct (splitAtTag (js "body") htmlChildren) as [[[beforeBody body] afterBody]|] eqn:Eb;
    [|discriminate].
  apply splitAtTag_Some in Eb as (-> & Hbody & HbB). cbn [mbind option_bind]. intros [= <-].
  injection Hhtml as ->.
  exists rootTag, rootAttrs, beforeHtml, (js "html"), htmlAttrs, beforeBody, body,
    afterBody, afterHtml.
  auto 10.
Qed.

Lemma bodyRegion_rebuild (tree : TreeAdapter) (region : list Node)
    (body' : Node) (others : list Node) :
  bodyRegion tree = Some region ->
  tagName body' = Some (js "body") ->
  bodyRegion (rebuild tree (body' :: others)) = Some (body' :: others).
Proof.
  intros (rootTag & rootAttrs & beforeHtml & htmlTag & htmlAttrs & beforeBody & body
          & afterBody & afterHtml & Hroot & -> & Hbody & HbH & HbB & ->)%bodyRegion_Some Hbody'.
  unfold rebuild, bodyRegion. rewrite Hroot.
  rewrite !splitAtTag_app by (assumption || reflexivity).
  cbn [root childNodes].
  rewrite splitAtTag_app by (assumption || reflexivity).
  cbn [mbind option_bind childNodes].
  rewrite splitAtTag_app by (assumption || reflexivity).
  cbn [mbind option_bind]. rewrite take_drop. reflexivity.
Qed.


Lemma bodyRegion_order (tree : TreeAdapter) (region : list Node) :
  bodyRegion tree = Some region -> 0 < length (forestOrder region).
Proof.
  intros (? & ? & ? & ? & ? & ? & body & ? & ? & _ & _ & _ & _ & _ & ->)%bodyRegion_Some.
  rewrite forestOrder_cons, length_app. destruct body; cbn; lia.
Qed.

(** ** The walk of [transform] *)

Lemma transform_spec {platform : Platform} (tree : TreeAdapter)
    (params : option Params) (region : list Node) :
  bodyRegion tree = Some region ->
  exists s : LoopState,
    (transform tree params = Returned s \/ transform tree params = Thrown s)
    /\ map target (promises s)
       = take MAX_BLURRED_PLACEHOLDERS
           (List.filter (qualifiesAt (forestOrder region))
              (cursorPath (forestOrder region) (length (forestOrder region)) (Some 0)))
    /\ Forall (launchedFor (default defaultParams params) (forestOrder region)) (promises s)
    /\ placeholders s = length (promises s)
    /\ visited s
       = upToNth (forestOrder region) MAX_BLURRED_PLACEHOLDERS
           (cursorPath (forestOrder region) (length (forestOrder region)) (Some 0))
    /\ (length (promises s) = MAX_BLURRED_PLACEHOLDERS ->
        transform tree params = Returned s).
Proof.
  intros Hregion. unfold transform. rewrite Hregion.
  pose proof (bodyRegion_order tree region Hregion) as Hlen.
  set (order := forestOrder region) in *.
  destruct (loop_spec (default defaultParams params) order (length order) (Some 0) initial)
    as (new & H1 & H2 & H3 & H4 & H5 & H6); [cbn; unfold MAX_BLURRED_PLACEHOLDERS; lia|].
  pose proof (loop_finishes (default defaultParams params) order (length order) (Some 0) initial)
    as Hfin.
  change (placeholders initial) with 0 in *. change (promises initial) with (@nil Launch) in *.
  change (visited initial) with (@nil nat) in *.
  rewrite Nat.sub_0_r in *. rewrite app_nil_l in *.
  assert (length new = length (promises
            (stateOf (loop (default defaultParams params) order (length order) (Some 0) initial))))
    as Hn by (rewrite H1; reflexivity).
  destruct (loop (default defaultParams params) order (length order) (Some 0) initial)
    as [s|s|s] eqn:El; cbn [stateOf] in *.
  - exists s. rewrite H1. split_and!; auto.
  - exists s. rewrite H1. split_and!; auto.
    intros Hmax. destruct (H6 Hmax) as [s' Hs']. discriminate.
  - exfalso. apply (Hfin ltac:(intros i [= <-]; lia) s). reflexivity.
Qed.

Lemma cursorPath_from (order : list Node) (fuel : nat) (node : option nat) (j : nat) :
  j ∈ cursorPath order fuel node -> exists i, node = Some i /\ i <= j.
Proof.
  revert node j. induction fuel as [|fuel IH]; intros [i|] j; cbn [cursorPath];
    try (intros H; inversion H; fail).
  destruct (order !! i) as [n|]; [|intros H; inversion H].
  intros [->|Hj]%elem_of_cons; [eauto|]. exists i. split; [reflexivity|].
  destruct (isTemplate n).
  - destruct (skipNodeAndChildren order i) as [k|] eqn:Ek; [|inversion Hj].
    apply skipNodeAndChildren_range in Ek as [Hk _].
    apply IH in Hj as (k' & [-> _]%nextNode_range & Hle). lia.
  - apply IH in Hj as (k' & [-> _]%nextNode_range & Hle). lia.
Qed.

Lemma cursorPath_NoDup (order : list Node) (fuel : nat) (node : option nat) :
  NoDup (cursorPath order fuel node).
Proof.
  revert node. induction fuel as [|fuel IH]; intros [i|]; cbn [cursorPath];
    try apply NoDup_nil_2.
  destruct (order !! i) as [n|]; [|apply NoDup_nil_2].
  apply NoDup_cons. split.
  - intros Hi. destruct (isTemplate n).
    + destruct (skipNodeAndChildren order i) as [k|] eqn:Ek; [|inversion Hi].
      apply skipNodeAndChildren_range in Ek as [Hk _].
      apply cursorPath_from in Hi as (k' & [-> _]%nextNode_range & Hle). lia.
    + apply cursorPath_from in Hi as (k' & [-> _]%nextNode_range & Hle). lia.
  - destruct (isTemplate n); [destruct (skipNodeAndChildren order i)|];
      auto using NoDup_nil_2.
Qed.

(** No two units are launched for the same node. *)
Lemma targets_NoDup {platform : Platform} (tree : TreeAdapter)
    (params : option Params) (region : list Node) (s : LoopState) :
  bodyRegion tree = Some region ->
  transform tree params = Returned s ->
  NoDup (map target (promises s)).
Proof.
  intros Hregion Hret.
  destruct (transform_spec tree params region Hregion) as (s' & Hs' & Ht & _).
  assert (s' = s) as -> by (destruct Hs' as [Hs'|Hs']; congruence).
  rewrite Ht.
  pose proof (cursorPath_NoDup (forestOrder region)
                (length (forestOrder region)) (Some 0)) as Hnd.
  apply NoDup_ListNoDup in Hnd.
  apply (List.NoDup_filter (qualifiesAt (forestOrder region))) in Hnd.
  apply NoDup_ListNoDup in Hnd.
  rewrite <- (take_drop MAX_BLURRED_PLACEHOLDERS) in Hnd.
  apply NoDup_app in Hnd as [Hnd _]. exact Hnd.
Qed.

Lemma bodyRegion_firstChildByTag (tree : TreeAdapter) (region : list Node) :
  bodyRegion tree = Some region ->
  exists html body,
    firstChildByTag (root tree) "html" = Some html
    /\ firstChildByTag html "body" = Some body
    /\ head region = Some body.
Proof.
  intros (rootTag & rootAttrs & beforeHtml & htmlTag & htmlAttrs & beforeBody & body
          & afterBody & afterHtml & Hroot & -> & Hbody & HbH & HbB & ->)%bodyRegion_Some.
  exists (Element (js "html") htmlAttrs (beforeBody ++ body :: afterBody)), body.
  unfold firstChildByTag. rewrite Hroot. cbn [childNodes].
  rewrite !splitAtTag_app by (assumption || reflexivity). auto.
Qed.

(** What the loop guarantees on every document. A run accepts at most 5
    elements: exactly the first 5 qualifying nodes on the path of the
    cursor, or all of them when there are fewer. The loop is left as soon as
    the 5th is accepted, so the last node visited is the 5th accepted one
    and the nodes visited are a prefix of the path. In a document without
    template elements the path is the whole document order from [body]
    on. *)
Lemma first_five_on_cursor_path {platform : Platform} (tree : TreeAdapter)
    (params : option Params) (region : list Node) :
  bodyRegion tree = Some region ->
  let order := forestOrder region in
  let path := cursorPath order (length order) (Some 0) in
  exists s : LoopState,
    (transform tree params = Returned s \/ transform tree params = Thrown s)
    /\ placeholders s = length (promises s)
    /\ length (promises s) <= MAX_BLURRED_PLACEHOLDERS
    /\ map target (promises s)
       = take MAX_BLURRED_PLACEHOLDERS (List.filter (qualifiesAt order) path)
    /\ visited s = upToNth order MAX_BLURRED_PLACEHOLDERS path
    /\ visited s `prefix_of` path
    /\ (length (promises s) = MAX_BLURRED_PLACEHOLDERS ->
        transform tree params = Returned s
        /\ last (visited s) = last (map target (promises s)))
    /\ (Forall (fun n => isTemplate n = false) order ->
        path = seq 0 (length order)).
Proof.
  intros Hregion order path.
  destruct (transform_spec tree params region Hregion) as (s & Hs & Ht & Hl & Hp & Hv & Hmax).
  fold order in Ht, Hl, Hv. fold path in Ht, Hv.
  exists s. split_and!; auto.
  - rewrite <- (length_map target), Ht, length_take. lia.
  - rewrite Hv. apply upToNth_prefix.
  - intros H5. split; [auto|]. rewrite Hv, Ht. apply upToNth_last.
    + unfold MAX_BLURRED_PLACEHOLDERS. lia.
    + rewrite <- Ht, length_map. exact H5.
  - intros Hall. unfold path.
    rewrite (cursorPath_no_template order (length order) 0 Hall).
    + rewrite Nat.sub_0_r. reflexivity.
    + apply (bodyRegion_order tree region Hregion).
    + lia.
Qed.

(** On a document of eight qualifying images and no template, the first
    five in document order are accepted and the walk ends at the fifth. *)
Example eight_images_five_accepted :
  let tree := document [ampImg "1.jpg"; ampImg "2.jpg"; ampImg "3.jpg"; ampImg "4.jpg";
                        ampImg "5.jpg"; ampImg "6.jpg"; ampImg "7.jpg"; ampImg "8.jpg"] in
  exists s : LoopState,
    @transform samplePlatform tree None = Returned s
    /\ map target (promises s) = [1; 2; 3; 4; 5]
    /\ visited s = [0; 1; 2; 3; 4; 5].
Proof. eexists. split; [vm_compute; reflexivity|]. split; reflexivity. Qed.

(** C4 (the code at a failing input). A template is followed by six
    qualifying images, none of them inside a template. The first five in
    document order are at positions 2 to 6. At the template the cursor is
    moved to position 2 by [skipNodeAndChildren] and then, after
    [continue], to position 3 by [node.nextNode()]: the image at position 2
    is never examined, and the run accepts the images at positions 3 to 7,
    the second to the sixth. *)
Lemma C4_node_after_template_skipped :
  let tree := document [template []; ampImg "1.jpg"; ampImg "2.jpg"; ampImg "3.jpg";
                        ampImg "4.jpg"; ampImg "5.jpg"; ampImg "6.jpg"] in
  exists (s : LoopState) (region : list Node),
    bodyRegion tree = Some region
    /\ forestOrder region !! 1 = Some (template [])
    /\ forestOrder region !! 2 = Some (ampImg "1.jpg")
    /\ List.filter (qualifiesAt (forestOrder region))
         (seq 0 (length (forestOrder region)))
       = [2; 3; 4; 5; 6; 7]
    /\ @transform samplePlatform tree None = Returned s
    /\ visited s = [0; 1; 3; 4; 5; 6; 7]
    /\ map target (promises s) = [3; 4; 5; 6; 7].
Proof.
  eexists _, _. split; [reflexivity|]. split; [reflexivity|]. split; [reflexivity|].
  split; [vm_compute; reflexivity|]. split; [vm_compute; reflexivity|].
  split; reflexivity.
Qed.

(** C8 (the code at a failing input). Two templates follow each other in
    [body]. At the first the cursor is moved to the second by
    [skipNodeAndChildren], and [continue] then runs [node.nextNode()], which
    enters the second template: its [amp-img], at position 3 of the
    document order, is visited, accepted, and given a placeholder. *)
Lemma C8_template_content_visited :
  let tree := document [template []; template [ampImg "a.jpg"]] in
  exists (s : LoopState) (region : list Node) (img : Node),
    bodyRegion tree = Some region
    /\ forestOrder region !! 2 = Some (template [ampImg "a.jpg"])
    /\ forestOrder region !! 3 = Some (ampImg "a.jpg")
    /\ @transform samplePlatform tree None = Returned s
    /\ visited s = [0; 1; 3]
    /\ map target (promises s) = [3]
    /\ isPlaceholder img = true
    /\ @run samplePlatform tree None
       = Some (document
                 [template [];
                  template [Element (js "amp-img")
                              (<[ js "src" := js "a.jpg" ]>
                                 (<[ js "layout" := js "responsive" ]> ∅))
                              [img]]]).
Proof.
  eexists _, _, _. split; [reflexivity|]. split; [reflexivity|]. split; [reflexivity|].
  split; [vm_compute; reflexivity|]. split; [reflexivity|]. split; [reflexivity|].
  split; [|vm_compute; reflexivity]. vm_compute. reflexivity.
Qed.

(** ** The units *)

Section Units.
Context {platform : Platform}.
Variable params : Params.

Lemma addBlurryPlaceholder_failed (src : jsstring) (p : Settled) :
  addBlurryPlaceholder_ src params = Ok p ->
  fulfilled p = None ->
  exists imageSrc reason,
    resolvePath_ (default [] (imageBasePath params)) src = Ok imageSrc
    /\ logged p = [js "[AddBlurryImagePlaceholders]  "
                   ++ js "Could not create placeholder for " ++ imageSrc
                   ++ js ". Reason: " ++ reason].
Proof.
  unfold addBlurryPlaceholder_, getDataURI_.
  rewrite attr_setAttribute by (rewrite !attribs_setAttribute; eexists; reflexivity).
  change (default [] (Some src)) with src.
  destruct (resolvePath_ (default [] (imageBasePath params)) src) as [imageSrc|e];
    [|discriminate].
  unfold mbind at 1 2. unfold Result_bind at 1 2.
  match goal with |- context [catch ?c _] => destruct c as [dataURI|reason] end;
    unfold catch; intros Hp Hnone;
    match type of Hp with Ok ?r = _ => assert (r = p) as <- by congruence end.
  - discriminate Hnone.
  - exists imageSrc, reason. split; reflexivity.
Qed.

Variable order : list Node.

Lemma launchedFor_settled (l l' : Launch) :
  launchedFor params order l -> launchedFor params order l' ->
  target l = target l' -> settled l = settled l'.
Proof.
  intros (n & Hn & _ & Hsrc & Hp) (n' & Hn' & _ & Hsrc' & Hp') Ht.
  rewrite Ht, Hn' in Hn. injection Hn as <-.
  rewrite Hsrc, <- Hsrc', Hp' in Hp. congruence.
Qed.

Lemma handedTo_target (promises : list Launch) (l : Launch) :
  Forall (launchedFor params order) promises ->
  l ∈ promises ->
  handedTo promises (target l) = fulfilled (settled l).
Proof.
  intros Hall Hl. unfold handedTo.
  destruct (find (fun l' => bool_decide (target l' = target l)) promises) as [l'|] eqn:E.
  - apply List.find_some in E as [Hin Ht]. apply bool_decide_eq_true in Ht.
    rewrite Forall_forall in Hall. cbn.
    rewrite (launchedFor_settled l' l); auto.
    apply Hall, list_elem_of_In, Hin.
  - exfalso. pose proof (List.find_none _ _ E l) as Hnone.
    rewrite <- list_elem_of_In in Hnone. specialize (Hnone Hl).
    apply bool_decide_eq_false in Hnone. congruence.
Qed.




End Units.

Lemma fulfilled_isPlaceholder {platform : Platform} (src : jsstring) (params : Params)
    (p : Settled) (img : Node) :
  addBlurryPlaceholder_ src params = Ok p ->
  fulfilled p = Some img ->
  isPlaceholder img = true /\ qualifies img = false /\ isTemplate img = false
  /\ childNodes img = [].
Proof.
  intros Hp Himg.
  destruct (addBlurryPlaceholder_fulfilled src params p img Hp Himg)
    as (dataURI & attrs & -> & Hplaceholder & _).
  split_and!.
  - unfold isPlaceholder. cbn [attribs]. apply bool_decide_eq_true.
    rewrite lookup_insert_ne by (vm_compute; discriminate). congruence.
  - destruct (qualifies _) eqn:Eq; [|reflexivity].
    apply qualifies_tag in Eq as [Eq|Eq]; vm_compute in Eq; discriminate.
  - apply bool_decide_eq_false. intros E. vm_compute in E. discriminate.
  - reflexivity.
Qed.

Lemma settled_region {platform : Platform} (tree : TreeAdapter) (region : list Node)
    (promises : list Launch) :
  bodyRegion tree = Some region ->
  bodyRegion (settledTree tree promises)
  = Some (placeForest (handedTo promises) 0 region).
Proof.
  intros Hregion. unfold settledTree. rewrite Hregion.
  pose proof Hregion as (? & ? & ? & ? & ? & ? & body & afterBody & afterHtml
                         & _ & _ & Hbody & _ & _ & ->)%bodyRegion_Some.
  cbn [placeForest]. apply (bodyRegion_rebuild tree _ _ _ Hregion).
  rewrite place_tagName. exact Hbody.
Qed.

(** With a tree adapter whose [appendChild] raises on [undefined], the
    promise of a failed unit is rejected by its own callback, and so is
    [Promise.all]. *)
Lemma Promise_all_strict_adapter :
  exists s : LoopState,
    @transform strictPlatform (document [ampImg "bad.jpg"]) None = Returned s
    /\ @Promise_all strictPlatform (promises s)
       = Err (js "Cannot set property 'parent' of undefined").
Proof. eexists. split; [vm_compute; reflexivity|]. vm_compute. reflexivity. Qed.





(** ** A second run *)

Lemma documentOrder_childNodes (n : Node) :
  documentOrder n = n :: forestOrder (childNodes n).
Proof. destruct n; reflexivity. Qed.

Lemma shouldAdd_same (n n' : Node) (src tag : option jsstring) :
  attribs n = attribs n' -> hasPlaceholder_ n = hasPlaceholder_ n' ->
  shouldAddBlurryPlaceholder_ n src tag = shouldAddBlurryPlaceholder_ n' src tag.
Proof.
  intros Ha Hp. unfold shouldAddBlurryPlaceholder_, attr. rewrite Ha, Hp. reflexivity.
Qed.

Lemma candidateSource_same (n n' : Node) :
  tagName n = tagName n' -> attribs n = attribs n' ->
  candidateSource n = candidateSource n'.
Proof. intros Ht Ha. unfold candidateSource, attr. rewrite Ht, Ha. reflexivity. Qed.

Lemma hasPlaceholder_placeForest (unit : nat -> option Node) (i : nat)
    (tag : jsstring) (attrs : gmap jsstring jsstring) (children : list Node) :
  hasPlaceholder_ (Element tag attrs (placeForest unit i children))
  = hasPlaceholder_ (Element tag attrs children).
Proof.
  unfold hasPlaceholder_. cbn [childNodes]. apply bool_decide_ext.
  rewrite placeForest_find_placeholder. reflexivity.
Qed.

Lemma candidateSource_place (unit : nat -> option Node) (i : nat) (n : Node) :
  candidateSource (place unit i n) = candidateSource n.
Proof. apply candidateSource_same; [apply place_tagName|apply place_attribs]. Qed.

Lemma qualifies_place_none (unit : nat -> option Node) (i : nat) (n : Node) :
  unit i = None -> qualifies (place unit i n) = qualifies n.
Proof.
  intros Hnone. unfold qualifies. rewrite candidateSource_place, place_tagName.
  apply shouldAdd_same; [apply place_attribs|].
  destruct n as [tag attrs children|data]; [|reflexivity].
  rewrite place_Element, Hnone. cbn [option_list]. rewrite app_nil_r.
  apply hasPlaceholder_placeForest.
Qed.

Lemma hasPlaceholder_place_some (unit : nat -> option Node) (i : nat)
    (tag : jsstring) (attrs : gmap jsstring jsstring) (children : list Node) (img : Node) :
  unit i = Some img -> isPlaceholder img = true ->
  hasPlaceholder_ (place unit i (Element tag attrs children)) = true.
Proof.
  intros Hsome Himg. rewrite place_Element, Hsome.
  unfold hasPlaceholder_. cbn [childNodes].
  apply bool_decide_eq_true. intros Hnone.
  pose proof (List.find_none _ _ Hnone img) as Hfalse.
  rewrite Hfalse in Himg; [discriminate|].
  apply List.in_or_app. right. left. reflexivity.
Qed.

Lemma qualifies_place (unit : nat -> option Node) (i : nat) (n : Node) :
  (forall img, unit i = Some img -> isPlaceholder img = true) ->
  qualifies (place unit i n) = true ->
  unit i = None /\ qualifies n = true.
Proof.
  intros Himg Hq. destruct (unit i) as [img|] eqn:Hu.
  - exfalso. pose proof (qualifies_no_placeholder _ Hq) as Hno.
    destruct n as [tag attrs children|data].
    + rewrite (hasPlaceholder_place_some unit i tag attrs children img Hu
                 (Himg img eq_refl)) in Hno. discriminate.
    + apply qualifies_element in Hq as (? & ? & ? & [=]).
  - split; [reflexivity|]. rewrite <- Hq. symmetry. apply qualifies_place_none, Hu.
Qed.

Section SecondRun.
Context {platform : Platform}.

Lemma loop_no_template (params : Params) (order : list Node) (fuel : nat)
    (node : option nat) (s s' : LoopState) :
  Forall (fun n => isTemplate n = false) order ->
  loop params order fuel node s <> Thrown s'.
Proof.
  intros Hall. revert node s.
  induction fuel as [|fuel IH]; intros [i|] s; cbn [loop]; try discriminate.
  destruct (order !! i) as [n|] eqn:Hn; [|discriminate].
  rewrite (proj1 (Forall_lookup _ _) Hall i n Hn).
  destruct (shouldAddBlurryPlaceholder_ n _ _); [|apply IH].
  destruct (addBlurryPlaceholder_returns params (default [] (candidateSource n)))
    as [p ->].
  destruct (_ <=? _)%nat; [discriminate|apply IH].
Qed.

Lemma transform_no_template (tree : TreeAdapter) (params : option Params)
    (region : list Node) (s : LoopState) :
  bodyRegion tree = Some region ->
  Forall (fun n => isTemplate n = false) (forestOrder region) ->
  transform tree params <> Thrown s.
Proof.
  intros Hregion Hall. unfold transform. rewrite Hregion.
  apply loop_no_template, Hall.
Qed.

Lemma handedTo_Some (promises : list Launch) (i : nat) (img : Node) :
  handedTo promises i = Some img ->
  exists l, l ∈ promises /\ target l = i /\ fulfilled (settled l) = Some img.
Proof.
  unfold handedTo.
  destruct (find (fun l => bool_decide (target l = i)) promises) as [l|] eqn:E;
    [|discriminate].
  apply List.find_some in E as [Hin Ht]. apply bool_decide_eq_true in Ht.
  cbn. intros Himg. exists l. rewrite list_elem_of_In. auto.
Qed.

Lemma handedTo_placeholder (params : Params) (order : list Node)
    (promises : list Launch) (i : nat) (img : Node) :
  Forall (launchedFor params order) promises ->
  handedTo promises i = Some img ->
  isPlaceholder img = true /\ qualifies img = false /\ isTemplate img = false
  /\ documentOrder img = [img].
Proof.
  intros Hall (l & Hl & _ & Himg)%handedTo_Some.
  pose proof (proj1 (Forall_forall _ _) Hall l Hl) as (n & _ & _ & _ & Hp).
  destruct (fulfilled_isPlaceholder _ _ _ _ Hp Himg) as (H1 & H2 & H3 & H4).
  split_and!; auto. rewrite documentOrder_childNodes, H4. reflexivity.
Qed.


End SecondRun.




(* ===================================================================== *)
(** * Further properties *)
(* ===================================================================== *)

(** ** Shapes of the optimized markup *)

Lemma singleSpaced_replaceWhiteSpace (inRun : bool) (svg : jsstring) :
  singleSpaced inRun (replaceWhiteSpace inRun svg) = true.
Proof.
  revert inRun. induction svg as [|c rest IH]; intros inRun; [reflexivity|].
  cbn [replaceWhiteSpace]. destruct (isWhiteSpace c) eqn:Hc.
  - destruct inRun; cbn [app]; [apply IH|].
    cbn [singleSpaced]. change (isWhiteSpace SPACE) with true.
    cbn [negb andb]. rewrite N.eqb_refl. apply IH.
  - cbn [singleSpaced]. rewrite Hc. apply IH.
Qed.

Lemma replaceWhiteSpace_fixed (inRun : bool) (svg : jsstring) :
  singleSpaced inRun svg = true -> replaceWhiteSpace inRun svg = svg.
Proof.
  revert inRun. induction svg as [|c rest IH]; intros inRun; [reflexivity|].
  cbn [replaceWhiteSpace singleSpaced]. destruct (isWhiteSpace c) eqn:Hc.
  - intros H. apply andb_prop in H as [H Hrest]. apply andb_prop in H as [Hsp Hrun].
    apply N.eqb_eq in Hsp. subst c. destruct inRun; [discriminate|].
    cbn [app]. f_equal. apply IH, Hrest.
  - intros H. f_equal. apply IH, H.
Qed.

Lemma singleSpaced_units (afterSpace : bool) (svg : jsstring) :
  singleSpaced afterSpace svg = true ->
  (forall c, c ∈ svg -> isWhiteSpace c = true -> c = SPACE)
  /\ (forall before c d after,
        svg = before ++ c :: d :: after -> isWhiteSpace c = true ->
        isWhiteSpace d = false).
Proof.
  revert afterSpace. induction svg as [|x rest IH]; intros afterSpace H.
  - split; [intros c Hc; inversion Hc|].
    intros [|? ?] ? ? ? E; discriminate E.
  - cbn [singleSpaced] in H.
    assert (exists b, singleSpaced b rest = true
                      /\ (isWhiteSpace x = true -> x = SPACE /\ b = true)) as (b & Hb & Hx).
    { destruct (isWhiteSpace x).
      - apply andb_prop in H as [H Hrest]. apply andb_prop in H as [Hsp _].
        apply N.eqb_eq in Hsp. exists true. auto.
      - exists false. split; [exact H|discriminate]. }
    destruct (IH b Hb) as [IH1 IH2]. split.
    + intros c [->|Hc]%elem_of_cons Hws; [apply Hx, Hws|auto].
    + intros [|y before] c d after E Hws.
      * injection E as -> ->. destruct (Hx Hws) as [_ ->].
        cbn [singleSpaced] in Hb. destruct (isWhiteSpace d); [|reflexivity].
        rewrite andb_false_r in Hb. discriminate Hb.
      * injection E as -> E. exact (IH2 before c d after E Hws).
Qed.

(** X1. The first replacement leaves a string in which white space only
    occurs as single spaces: every white space code unit of the result is a
    space, no two neighbours are both white space, and applying the
    replacement again changes nothing. Line breaks and tabs never survive. *)
Theorem replaceWhiteSpace_normal_form (svg : jsstring) :
  let result := replaceWhiteSpace false svg in
  (forall c, c ∈ result -> isWhiteSpace c = true -> c = SPACE)
  /\ (forall before c d after,
        result = before ++ c :: d :: after -> isWhiteSpace c = true ->
        isWhiteSpace d = false)
  /\ replaceWhiteSpace false result = result.
Proof.
  cbn zeta.
  pose proof (singleSpaced_replaceWhiteSpace false svg) as H.
  destruct (singleSpaced_units _ _ H) as [H1 H2].
  split; [exact H1|]. split; [exact H2|].
  apply replaceWhiteSpace_fixed, H.
Qed.

Lemma replaceGtLt_head (svg : jsstring) : head (replaceGtLt svg) = head svg.
Proof.
  destruct svg as [|c [|s [|l rest]]]; try reflexivity.
  cbn [replaceGtLt].
  destruct ((c =? 62) && (s =? 32) && (l =? 60))%N eqn:E; [|reflexivity].
  apply andb_prop in E as [E _]. apply andb_prop in E as [Ec _].
  apply N.eqb_eq in Ec. subst c. reflexivity.
Qed.

Lemma hasGtSpaceLt_cons (c : N) (svg : jsstring) :
  hasGtSpaceLt (c :: svg)
  = ((c =? 62)%N && bool_decide (take 2 svg = [32; 60]%N)) || hasGtSpaceLt svg.
Proof.
  cbn [hasGtSpaceLt]. destruct svg as [|s [|l rest]].
  - destruct (c =? 62)%N; reflexivity.
  - assert (bool_decide (take 2 [s] = [32; 60]%N) = false) as ->
      by (apply bool_decide_eq_false; discriminate).
    rewrite andb_false_r. reflexivity.
  - f_equal. rewrite <- andb_assoc. f_equal. cbn [take].
    destruct (N.eqb_spec s 32) as [->|Hs], (N.eqb_spec l 60) as [->|Hl]; cbn [andb];
      symmetry; first [apply bool_decide_eq_true; reflexivity
                      | apply bool_decide_eq_false; congruence].
Qed.

Lemma replaceGtLt_no_match (c : N) (rest : jsstring) :
  ((c =? 62)%N && bool_decide (take 2 rest = [32; 60]%N)) = false ->
  replaceGtLt (c :: rest) = c :: replaceGtLt rest.
Proof.
  intros H. apply replaceGtLt_other. intros rest' E.
  injection E as -> ->. rewrite andb_true_l in H.
  apply bool_decide_eq_false in H. apply H. reflexivity.
Qed.

Lemma replaceGtLt_take2 (svg : jsstring) :
  take 2 svg <> [32; 60]%N -> take 2 (replaceGtLt svg) <> [32; 60]%N.
Proof.
  destruct svg as [|s rest]; [intros _; discriminate|].
  destruct (N.eqb_spec s 62) as [->|Hs].
  - intros _ E. pose proof (replaceGtLt_head (62%N :: rest)) as Hh.
    destruct (replaceGtLt (62%N :: rest)) as [|x out]; [discriminate E|].
    cbn in Hh. injection Hh as ->. discriminate E.
  - rewrite replaceGtLt_no_match
      by (apply N.eqb_neq in Hs; rewrite Hs; reflexivity).
    intros H E. apply H. cbn [take] in *.
    pose proof (replaceGtLt_head rest) as Hh.
    destruct (replaceGtLt rest) as [|x out]; [discriminate E|].
    destruct rest as [|l rest]; [discriminate Hh|].
    cbn in Hh. injection Hh as ->. injection E as -> ->. reflexivity.
Qed.

Lemma hasGtSpaceLt_replaceGtLt (svg : jsstring) :
  hasGtSpaceLt (replaceGtLt svg) = false.
Proof.
  remember (length svg) as n eqn:Hn. revert svg Hn.
  induction n as [n IH] using lt_wf_ind. intros svg Hn.
  destruct svg as [|c rest]; [reflexivity|].
  destruct ((c =? 62)%N && bool_decide (take 2 rest = [32; 60]%N)) eqn:E.
  - apply andb_prop in E as [Ec E]. apply N.eqb_eq in Ec.
    apply bool_decide_eq_true in E. subst c.
    destruct rest as [|s [|l rest']]; try discriminate E.
    injection E as -> ->.
    change (replaceGtLt (62 :: 32 :: 60 :: rest'))%N
      with (62 :: 60 :: replaceGtLt rest')%N.
    rewrite !hasGtSpaceLt_cons. cbn [N.eqb Pos.eqb andb orb].
    rewrite (IH (length rest')); [|cbn in Hn; lia|reflexivity].
    rewrite orb_false_r. apply bool_decide_eq_false.
    destruct (replaceGtLt rest') as [|? [|? ?]]; discriminate.
  - rewrite replaceGtLt_no_match by exact E.
    rewrite hasGtSpaceLt_cons.
    rewrite (IH (length rest)); [|cbn in Hn; lia|reflexivity].
    rewrite orb_false_r.
    destruct (N.eqb_spec c 62) as [->|Hc]; [|reflexivity].
    rewrite andb_true_l in *. apply bool_decide_eq_false in E.
    apply bool_decide_eq_false. apply replaceGtLt_take2, E.
Qed.

Lemma replaceGtLt_fixed (svg : jsstring) :
  hasGtSpaceLt svg = false -> replaceGtLt svg = svg.
Proof.
  induction svg as [|c rest IH]; [reflexivity|].
  rewrite hasGtSpaceLt_cons. intros [E Hrest]%orb_false_elim.
  rewrite replaceGtLt_no_match by exact E. f_equal. auto.
Qed.

Lemma hasGtSpaceLt_occurs (svg : jsstring) :
  hasGtSpaceLt svg = true <-> exists before after, svg = before ++ js "> <" ++ after.
Proof.
  induction svg as [|c rest IH].
  - split; [discriminate|]. intros ([|? ?] & after & E); discriminate E.
  - rewrite hasGtSpaceLt_cons, orb_true_iff, IH. split.
    + intros [[Hc E%bool_decide_eq_true]%andb_prop|(before & after & ->)].
      * apply N.eqb_eq in Hc. subst c. exists [], (drop 2 rest).
        rewrite <- (take_drop 2 rest) at 1. rewrite E. reflexivity.
      * exists (c :: before), after. reflexivity.
    + intros ([|x before] & after & E).
      * injection E as -> ->. left. reflexivity.
      * injection E as -> ->. right. eauto.
Qed.

(** X2. After the second replacement no [> <] is left in the string, so
    that one pass is enough: applying the replacement again changes
    nothing, and the strings it leaves unchanged are those without an
    occurrence of [> <]. *)
Theorem replaceGtLt_complete (svg : jsstring) :
  (forall before after, replaceGtLt svg <> before ++ js "> <" ++ after)
  /\ replaceGtLt (replaceGtLt svg) = replaceGtLt svg
  /\ (replaceGtLt svg = svg <-> forall before after, svg <> before ++ js "> <" ++ after).
Proof.
  pose proof (hasGtSpaceLt_replaceGtLt svg) as H.
  assert (forall s, hasGtSpaceLt s = false
                    <-> forall before after, s <> before ++ js "> <" ++ after) as Hocc.
  { intros s. rewrite <- not_true_iff_false, hasGtSpaceLt_occurs. split.
    - intros Hn before after E. apply Hn. eauto.
    - intros Hn (before & after & E). exact (Hn _ _ E). }
  split; [apply Hocc, H|]. split; [apply replaceGtLt_fixed, H|].
  rewrite <- Hocc. split; [intros <-; exact H|apply replaceGtLt_fixed].
Qed.

Lemma singleSpaced_cons (afterSpace : bool) (c : N) (svg : jsstring) :
  isWhiteSpace c = false ->
  singleSpaced afterSpace (c :: svg) = singleSpaced false svg.
Proof. intros Hc. cbn [singleSpaced]. rewrite Hc. reflexivity. Qed.

Lemma singleSpaced_replaceGtLt (afterSpace : bool) (svg : jsstring) :
  singleSpaced afterSpace svg = true ->
  singleSpaced afterSpace (replaceGtLt svg) = true.
Proof.
  remember (length svg) as n eqn:Hn. revert afterSpace svg Hn.
  induction n as [n IH] using lt_wf_ind. intros afterSpace svg Hn H.
  destruct svg as [|c rest]; [reflexivity|].
  destruct ((c =? 62)%N && bool_decide (take 2 rest = [32; 60]%N)) eqn:E.
  - apply andb_prop in E as [Ec E]. apply N.eqb_eq in Ec.
    apply bool_decide_eq_true in E. subst c.
    destruct rest as [|s [|l rest']]; try discriminate E.
    injection E as -> ->.
    change (replaceGtLt (62 :: 32 :: 60 :: rest'))%N
      with (62 :: 60 :: replaceGtLt rest')%N.
    rewrite !singleSpaced_cons by reflexivity.
    apply (IH (length rest')); [cbn in Hn; lia|reflexivity|].
    exact H.
  - rewrite replaceGtLt_no_match by exact E.
    cbn [singleSpaced] in *. destruct (isWhiteSpace c).
    + apply andb_prop in H as [H Hrest]. rewrite H. cbn [andb].
      apply (IH (length rest)); [cbn in Hn; lia|reflexivity|exact Hrest].
    + apply (IH (length rest)); [cbn in Hn; lia|reflexivity|exact H].
Qed.

Lemma escaped_unit_not_space (c x : N) :
  isWhiteSpace c = false ->
  x ∈ (if ESCAPE_REGEX c then escaper c else [c]) -> isWhiteSpace x = false.
Proof.
  intros Hc. destruct (ESCAPE_REGEX c) eqn:E.
  - apply ESCAPE_REGEX_keys in E.
    destruct escaper_table as (E1 & E2 & E3 & E4 & E5 & E6).
    rewrite !elem_of_cons, elem_of_nil in E.
    destruct E as [->|[->|[->|[->|[->|[->|[]]]]]]];
      rewrite ?E1, ?E2, ?E3, ?E4, ?E5, ?E6; code_units;
      rewrite !elem_of_cons, !elem_of_nil;
      intros Hx; repeat (destruct Hx as [->|Hx]; [reflexivity|]); destruct Hx.
  - intros ->%list_elem_of_singleton. exact Hc.
Qed.

Lemma singleSpaced_app (afterSpace : bool) (units svg : jsstring) :
  units <> [] ->
  (forall x, x ∈ units -> isWhiteSpace x = false) ->
  singleSpaced afterSpace (units ++ svg) = singleSpaced false svg.
Proof.
  revert afterSpace. induction units as [|u units IH]; intros afterSpace Hne H; [congruence|].
  cbn [app]. rewrite singleSpaced_cons by (apply H; left).
  destruct units as [|v units]; [reflexivity|].
  apply IH; [discriminate|]. intros x Hx. apply H. right. exact Hx.
Qed.

Lemma ESCAPE_REGEX_not_space (c : N) : isWhiteSpace c = true -> ESCAPE_REGEX c = false.
Proof.
  intros Hc. apply not_true_iff_false. intros E%ESCAPE_REGEX_keys.
  rewrite !elem_of_cons, elem_of_nil in E.
  destruct E as [->|[->|[->|[->|[->|[->|[]]]]]]]; discriminate Hc.
Qed.

Lemma escaped_unit_nonempty (c : N) : (if ESCAPE_REGEX c then escaper c else [c]) <> [].
Proof.
  destruct (ESCAPE_REGEX c) eqn:E; [|discriminate].
  apply ESCAPE_REGEX_keys in E.
  rewrite !elem_of_cons, elem_of_nil in E.
  destruct E as [->|[->|[->|[->|[->|[->|[]]]]]]]; vm_compute; discriminate.
Qed.

Lemma singleSpaced_escape (afterSpace : bool) (svg : jsstring) :
  singleSpaced afterSpace svg = true ->
  singleSpaced afterSpace (escape svg) = true.
Proof.
  revert afterSpace. induction svg as [|c rest IH]; intros afterSpace H; [reflexivity|].
  cbn [escape]. destruct (isWhiteSpace c) eqn:Hc.
  - rewrite ESCAPE_REGEX_not_space by exact Hc. cbn [app].
    cbn [singleSpaced] in *. rewrite Hc in *.
    apply andb_prop in H as [H Hrest]. rewrite H. cbn [andb]. auto.
  - rewrite singleSpaced_app.
    + apply IH. rewrite singleSpaced_cons in H by exact Hc. exact H.
    + apply escaped_unit_nonempty.
    + intros x. apply escaped_unit_not_space, Hc.
Qed.

(** X3. The payload of the data URI is free of line breaks and of doubled
    spaces, whatever the markup was: every white space code unit of the
    optimized markup is a space and no two neighbours are both white space.
    The second and third replacement keep what the first one achieved. *)
Theorem optimize_white_space (svg : jsstring) :
  (forall c, c ∈ optimize svg -> isWhiteSpace c = true -> c = SPACE)
  /\ (forall before c d after,
        optimize svg = before ++ c :: d :: after -> isWhiteSpace c = true ->
        isWhiteSpace d = false).
Proof.
  apply (singleSpaced_units false). unfold optimize.
  apply singleSpaced_escape, singleSpaced_replaceGtLt, singleSpaced_replaceWhiteSpace.
Qed.

Lemma percentDecode_other (c : N) (rest : jsstring) :
  c <> 37%N -> percentDecode (c :: rest) = c :: percentDecode rest.
Proof.
  intros Hc. cbn [percentDecode]. apply N.eqb_neq in Hc. rewrite Hc.
  destruct rest as [|a [|b rest']]; reflexivity.
Qed.

Lemma percentDecode_escape (svg : jsstring) :
  percentDecode (escape svg) = singleQuoted svg.
Proof.
  induction svg as [|c rest IH]; [reflexivity|].
  cbn [escape singleQuoted map]. fold (singleQuoted rest). rewrite <- IH.
  destruct (ESCAPE_REGEX c) eqn:E.
  - apply ESCAPE_REGEX_keys in E.
    rewrite !elem_of_cons, elem_of_nil in E.
    destruct E as [->|[->|[->|[->|[->|[->|[]]]]]]]; try reflexivity.
    change (escaper dquote) with [39%N]. cbn [app].
    rewrite percentDecode_other by discriminate. reflexivity.
  - assert (c ∉ [35; 37; 58; 60; 62; dquote]%N) as Hc
      by (rewrite <- ESCAPE_REGEX_keys; congruence).
    rewrite !elem_of_cons, elem_of_nil in Hc.
    cbn [app]. rewrite percentDecode_other by tauto.
    destruct (N.eqb_spec c dquote); [tauto|reflexivity].
Qed.

Lemma escape_singleQuoted (svg : jsstring) :
  escape (singleQuoted svg) = escape svg.
Proof.
  induction svg as [|c rest IH]; [reflexivity|].
  cbn [singleQuoted map escape]. fold (singleQuoted rest). rewrite IH.
  destruct (N.eqb_spec c dquote) as [->|_]; reflexivity.
Qed.

(** X4. The third replacement loses nothing but the difference between the
    two kinds of quotes: two strings have the same escaped form exactly
    when they are equal after each double quote is turned into a single
    quote. In particular a [%] that was in the text cannot be confused
    with one that starts an escape. *)
Theorem escape_injective_up_to_quotes (svg svg' : jsstring) :
  escape svg = escape svg' <-> singleQuoted svg = singleQuoted svg'.
Proof.
  split; intros E.
  - rewrite <- !percentDecode_escape, E. reflexivity.
  - rewrite <- (escape_singleQuoted svg), E. apply escape_singleQuoted.
Qed.

Lemma svgTemplate_parts (dataURI : DataURI) :
  svgTemplate dataURI
  = svgOpening
    ++ (js "0 0 " ++ Number_toString (uri_width dataURI)
        ++ js " " ++ Number_toString (uri_height dataURI))
    ++ svgMiddle ++ uri_src dataURI ++ svgClosing.
Proof.
  unfold svgTemplate, svgOpening, svgMiddle, svgClosing, line, quoted.
  generalize (Number_toString (uri_width dataURI)) as w.
  generalize (Number_toString (uri_height dataURI)) as h.
  generalize (uri_src dataURI) as src. intros src h w.
  code_units. cbn [repeat].
  repeat first [rewrite <- app_assoc | progress cbn [app]].
  reflexivity.
Qed.

Lemma replaceWhiteSpace_app (inRun : bool) (before after : jsstring) (q : N) :
  isWhiteSpace q = false ->
  replaceWhiteSpace inRun (before ++ q :: after)
  = replaceWhiteSpace inRun before ++ q :: replaceWhiteSpace false after.
Proof.
  intros Hq. revert inRun. induction before as [|c before IH]; intros inRun.
  - apply replaceWhiteSpace_other, Hq.
  - cbn [app replaceWhiteSpace]. destruct (isWhiteSpace c).
    + rewrite IH, <- app_assoc. reflexivity.
    + rewrite IH. reflexivity.
Qed.

Lemma replaceGtLt_app (before after : jsstring) (q : N) :
  q <> 62%N -> q <> 32%N ->
  replaceGtLt ((before ++ [q]) ++ after)
  = replaceGtLt (before ++ [q]) ++ replaceGtLt after.
Proof.
  intros Hgt Hsp.
  remember (length before) as n eqn:Hn. revert before Hn.
  induction n as [n IH] using lt_wf_ind. intros before Hn.
  assert (forall rest, replaceGtLt (q :: rest) = q :: replaceGtLt rest) as Hq.
  { intros rest. apply replaceGtLt_other. intros rest' E.
    change (js "> <" ++ rest') with (62 :: 32 :: 60 :: rest')%N in E.
    injection E as E _. congruence. }
  assert (forall c rest, replaceGtLt (c :: q :: rest) = c :: q :: replaceGtLt rest) as Hcq.
  { intros c rest. rewrite replaceGtLt_other, Hq; [reflexivity|].
    intros rest' E.
    change (js "> <" ++ rest') with (62 :: 32 :: 60 :: rest')%N in E.
    injection E as _ E _. congruence. }
  destruct before as [|c [|s before]].
  - cbn [app]. rewrite !Hq. reflexivity.
  - cbn [app]. rewrite !Hcq. reflexivity.
  - destruct ((c =? 62)%N && bool_decide (take 2 (s :: before ++ [q]) = [32; 60]%N)) eqn:E.
    + apply andb_prop in E as [Ec E]. apply N.eqb_eq in Ec.
      apply bool_decide_eq_true in E. subst c.
      destruct before as [|l before].
      * injection E as -> ->.
        change (replaceGtLt (js "> <" ++ after)
                = replaceGtLt (js "> <" ++ []) ++ replaceGtLt after).
        rewrite !replaceGtLt_match. reflexivity.
      * injection E as -> ->.
        change ((62 :: 32 :: 60 :: before) ++ [q])%N
          with (js "> <" ++ (before ++ [q])).
        rewrite <- (app_assoc (js "> <")), !replaceGtLt_match.
        rewrite (IH (length before)); [|cbn in Hn; lia|reflexivity].
        reflexivity.
    + cbn [app]. rewrite (replaceGtLt_no_match c (s :: before ++ [q])) by exact E.
      rewrite replaceGtLt_no_match.
      * cbn [app]. f_equal.
        apply (IH (length (s :: before)) ltac:(cbn in *; lia) (s :: before) eq_refl).
      * rewrite <- E. f_equal. f_equal.
        destruct before as [|l before]; reflexivity.
Qed.

Lemma replaceGtLt_app_before (before after : jsstring) (q : N) :
  q <> 60%N -> q <> 32%N ->
  replaceGtLt (before ++ q :: after) = replaceGtLt before ++ replaceGtLt (q :: after).
Proof.
  intros Hlt Hsp.
  remember (length before) as n eqn:Hn. revert before Hn.
  induction n as [n IH] using lt_wf_ind. intros before Hn.
  destruct before as [|c rest]; [reflexivity|].
  destruct ((c =? 62)%N && bool_decide (take 2 rest = [32; 60]%N)) eqn:E.
  - apply andb_prop in E as [Ec E]. apply N.eqb_eq in Ec.
    apply bool_decide_eq_true in E. subst c.
    destruct rest as [|s [|l rest']]; try discriminate E.
    injection E as -> ->.
    change ((62 :: 32 :: 60 :: rest') ++ q :: after)%N
      with (js "> <" ++ (rest' ++ q :: after)).
    change (62 :: 32 :: 60 :: rest')%N with (js "> <" ++ rest').
    rewrite !replaceGtLt_match.
    rewrite (IH (length rest')); [|cbn in Hn; lia|reflexivity].
    rewrite app_assoc. reflexivity.
  - rewrite (replaceGtLt_no_match c rest) by exact E.
    cbn [app]. rewrite replaceGtLt_no_match.
    + f_equal. apply (IH (length rest)); [cbn in Hn; lia|reflexivity].
    + destruct (N.eqb_spec c 62) as [->|Hc]; [|reflexivity].
      rewrite andb_true_l in *. apply bool_decide_eq_false in E.
      apply bool_decide_eq_false. intros E'. apply E.
      destruct rest as [|s [|l rest']]; cbn [app take] in *.
      * injection E' as E' _. congruence.
      * injection E' as _ E'. congruence.
      * exact E'.
Qed.

Lemma optimize_app_after (before after : jsstring) (q : N) :
  last before = Some q -> isWhiteSpace q = false -> q <> 62%N ->
  optimize (before ++ after) = optimize before ++ optimize after.
Proof.
  intros [start ->]%last_Some Hws Hgt. unfold optimize.
  assert (q <> 32%N) as Hsp by (intros ->; discriminate Hws).
  replace ((start ++ [q]) ++ after) with (start ++ q :: after)
    by (rewrite <- app_assoc; reflexivity).
  rewrite !replaceWhiteSpace_app by exact Hws. cbn [replaceWhiteSpace].
  replace (replaceWhiteSpace false start ++ q :: replaceWhiteSpace false after)
    with ((replaceWhiteSpace false start ++ [q]) ++ replaceWhiteSpace false after)
    by (rewrite <- app_assoc; reflexivity).
  rewrite replaceGtLt_app by assumption. apply escape_app.
Qed.

Lemma optimize_app_before (before after : jsstring) (q : N) :
  head after = Some q -> isWhiteSpace q = false -> q <> 60%N ->
  optimize (before ++ after) = optimize before ++ optimize after.
Proof.
  destruct after as [|q' after]; [discriminate|]. intros [= ->] Hws Hlt.
  unfold optimize.
  assert (q <> 32%N) as Hsp by (intros ->; discriminate Hws).
  rewrite replaceWhiteSpace_app by exact Hws.
  rewrite replaceGtLt_app_before by assumption.
  rewrite escape_app, (replaceWhiteSpace_other false q) by exact Hws.
  reflexivity.
Qed.

Lemma escape_plain (svg : jsstring) :
  (forall c, c ∈ svg -> ESCAPE_REGEX c = false) -> escape svg = svg.
Proof.
  induction svg as [|c rest IH]; intros H; [reflexivity|].
  cbn [escape]. rewrite (H c) by left. cbn [app]. f_equal.
  apply IH. intros x Hx. apply H. right. exact Hx.
Qed.

Lemma hasGtSpaceLt_plain (svg : jsstring) :
  (forall c, c ∈ svg -> ESCAPE_REGEX c = false) -> hasGtSpaceLt svg = false.
Proof.
  induction svg as [|c rest IH]; intros H; [reflexivity|].
  rewrite hasGtSpaceLt_cons, IH by (intros x Hx; apply H; right; exact Hx).
  destruct (N.eqb_spec c 62) as [->|Hc]; [|reflexivity].
  discriminate (H 62%N ltac:(left)).
Qed.

Lemma optimize_plain (svg : jsstring) :
  singleSpaced false svg = true ->
  (forall c, c ∈ svg -> ESCAPE_REGEX c = false) ->
  optimize svg = svg.
Proof.
  intros Hspaces Hplain. unfold optimize.
  rewrite replaceWhiteSpace_fixed by exact Hspaces.
  rewrite replaceGtLt_fixed by (apply hasGtSpaceLt_plain, Hplain).
  apply escape_plain, Hplain.
Qed.

Lemma string_of_uint_units (d : Decimal.uint) (c : N) :
  c ∈ js (NilEmpty.string_of_uint d) -> c ∈ js "0123456789".
Proof.
  induction d as [|d IH|d IH|d IH|d IH|d IH|d IH|d IH|d IH|d IH|d IH];
    cbn [NilEmpty.string_of_uint js].
  1: intros H; inversion H.
  all: intros [->|H]%elem_of_cons; [|exact (IH H)].
  all: apply (bool_decide_eq_true_1 _); vm_compute; reflexivity.
Qed.

Lemma Number_toString_units (z : Z) (c : N) :
  c ∈ Number_toString z -> c ∈ js "-0123456789".
Proof.
  unfold Number_toString, NilZero.string_of_int.
  assert (forall d, c ∈ js (NilZero.string_of_uint d) -> c ∈ js "0123456789") as Hd.
  { intros d. pose proof (string_of_uint_units d c) as H.
    destruct d; try exact H. intros ->%list_elem_of_singleton.
    apply (bool_decide_eq_true_1 _); vm_compute; reflexivity. }
  destruct (Z.to_int z) as [d|d]; cbn [js].
  - intros H. right. exact (Hd d H).
  - intros [->|H]%elem_of_cons; [left|right; exact (Hd d H)].
Qed.

Lemma Number_toString_nonempty (z : Z) : Number_toString z <> [].
Proof.
  unfold Number_toString, NilZero.string_of_int, NilZero.string_of_uint.
  destruct (Z.to_int z) as [[]|[]]; discriminate.
Qed.

Lemma Number_toString_plain (z : Z) (c : N) :
  c ∈ Number_toString z -> isWhiteSpace c = false /\ ESCAPE_REGEX c = false.
Proof.
  intros H%Number_toString_units. revert H. code_units.
  rewrite !elem_of_cons, elem_of_nil.
  intros [->|[->|[->|[->|[->|[->|[->|[->|[->|[->|[->|[]]]]]]]]]]]];
    split; reflexivity.
Qed.

Lemma optimize_parts (opening box middle src closing : jsstring) :
  last opening = Some dquote -> head middle = Some dquote ->
  last middle = Some dquote -> head closing = Some dquote ->
  optimize (opening ++ box ++ middle ++ src ++ closing)
  = optimize opening ++ optimize box ++ optimize middle
    ++ optimize src ++ optimize closing.
Proof.
  intros Ho Hm Hm' Hc.
  assert (isWhiteSpace dquote = false) as Hws by reflexivity.
  assert (dquote <> 62%N /\ dquote <> 60%N) as [Hgt Hlt] by (split; discriminate).
  rewrite (optimize_app_after opening _ dquote) by assumption.
  rewrite (optimize_app_before box _ dquote);
    [|destruct middle; [discriminate Hm|exact Hm]|assumption..].
  rewrite (optimize_app_after middle _ dquote) by assumption.
  rewrite (optimize_app_before src closing dquote) by assumption.
  reflexivity.
Qed.

(** X5. The optimized markup in closed form. Whatever the two dimensions
    and the image reference are, the three replacements turn the template
    into one line: the escaped opening tag up to the view box, the two
    dimensions in decimal separated by a space, the escaped filter and
    image tags, the image reference optimized on its own, and the escaped
    closing tags. *)
Theorem optimize_svgTemplate (dataURI : DataURI) :
  optimize (svgTemplate dataURI)
  = js "%3Csvg xmlns='http%3A//www.w3.org/2000/svg' xmlns%3Axlink='http%3A//www.w3.org/1999/xlink' viewBox='0 0 "
    ++ Number_toString (uri_width dataURI) ++ js " "
    ++ Number_toString (uri_height dataURI)
    ++ js "'%3E%3Cfilter id='b' color-interpolation-filters='sRGB'%3E%3CfeGaussianBlur stdDeviation='.5'%3E%3C/feGaussianBlur%3E%3CfeComponentTransfer%3E%3CfeFuncA type='discrete' tableValues='1 1'%3E%3C/feFuncA%3E%3C/feComponentTransfer%3E%3C/filter%3E%3Cimage filter='url(%23b)' x='0' y='0' height='100%25' width='100%25' xlink%3Ahref='"
    ++ optimize (uri_src dataURI)
    ++ js "'%3E%3C/image%3E%3C/svg%3E".
Proof.
  rewrite svgTemplate_parts.
  pose proof (Number_toString_plain (uri_width dataURI)) as Hw.
  pose proof (Number_toString_plain (uri_height dataURI)) as Hh.
  pose proof (Number_toString_nonempty (uri_width dataURI)) as Hwne.
  pose proof (Number_toString_nonempty (uri_height dataURI)) as Hhne.
  revert Hw Hh Hwne Hhne.
  generalize (Number_toString (uri_width dataURI)) as w.
  generalize (Number_toString (uri_height dataURI)) as h.
  generalize (uri_src dataURI) as src. intros src h w Hw Hh Hwne Hhne.
  rewrite optimize_parts by (vm_compute; reflexivity).
  rewrite (optimize_plain (js "0 0 " ++ w ++ js " " ++ h)).
  - assert (optimize svgOpening
            = js "%3Csvg xmlns='http%3A//www.w3.org/2000/svg' xmlns%3Axlink='http%3A//www.w3.org/1999/xlink' viewBox='")
      as -> by (vm_compute; reflexivity).
    assert (optimize svgMiddle
            = js "'%3E%3Cfilter id='b' color-interpolation-filters='sRGB'%3E%3CfeGaussianBlur stdDeviation='.5'%3E%3C/feGaussianBlur%3E%3CfeComponentTransfer%3E%3CfeFuncA type='discrete' tableValues='1 1'%3E%3C/feFuncA%3E%3C/feComponentTransfer%3E%3C/filter%3E%3Cimage filter='url(%23b)' x='0' y='0' height='100%25' width='100%25' xlink%3Ahref='")
      as -> by (vm_compute; reflexivity).
    assert (optimize svgClosing = js "'%3E%3C/image%3E%3C/svg%3E")
      as -> by (vm_compute; reflexivity).
    code_units. repeat first [rewrite <- app_assoc | progress cbn [app]].
    reflexivity.
  - code_units. cbn [app singleSpaced].
    change (isWhiteSpace 32) with true. change (isWhiteSpace 48) with false.
    cbn [N.eqb Pos.eqb SPACE andb negb].
    rewrite singleSpaced_app by (assumption || (intros x Hx; apply Hw, Hx)).
    cbn [singleSpaced]. change (isWhiteSpace 32) with true.
    cbn [N.eqb Pos.eqb SPACE andb negb].
    rewrite <- (app_nil_r h).
    rewrite singleSpaced_app by (assumption || (intros x Hx; apply Hh, Hx)).
    reflexivity.
  - code_units. intros c. rewrite !elem_of_app, !elem_of_cons, elem_of_nil.
    intros [[->|[->|[->|[->|[]]]]]|[Hc|[[->|[]]|Hc]]]; try reflexivity.
    + apply Hw, Hc.
    + apply Hh, Hc.
Qed.

(** ** The outcome of a unit *)

Section Outcome.
Context {platform : Platform}.

Lemma getDataURI_src (src : jsstring) :
  attr (setAttribute
          (setAttribute
             (setAttribute (createElement "img") "class"
                (js "i-amphtml-blurry-placeholder"))
             "placeholder" []) "src" src) "src" = Some src.
Proof.
  apply attr_setAttribute. rewrite !attribs_setAttribute. eexists. reflexivity.
Qed.

(** X6. A unit whose image is decoded, resized and encoded is fulfilled
    with an [img] element that has no children and exactly three
    attributes: the class [i-amphtml-blurry-placeholder], an empty
    [placeholder], and a [src] that is the data URI prefix followed by the
    optimized markup. The file read is the resolved path, the size asked of
    [resize] is that of [getBitmapDimensions_] for the decoded bitmap, the
    view box is the size of the bitmap after [resize], and nothing is
    logged. *)
Theorem addBlurryPlaceholder_success (src : jsstring) (params : Params)
    (imageSrc : jsstring) (image resized : Image) (dims : Dimensions) (uri : jsstring) :
  resolvePath_ (default [] (imageBasePath params)) src = Ok imageSrc ->
  jimp_read imageSrc = Ok image ->
  getBitmapDimensions_ (ofZ (bitmap image).1) (ofZ (bitmap image).2) = Ok dims ->
  jimp_resize image (width dims) (height dims) = Ok resized ->
  getBase64Async resized = Ok uri ->
  addBlurryPlaceholder_ src params
  = Ok {| fulfilled :=
            Some (Element (js "img")
                    (<[ js "src" :=
                          DATA_URI_PREFIX
                          ++ optimize (svgTemplate {| uri_src := uri;
                                                      uri_width := (bitmap resized).1;
                                                      uri_height := (bitmap resized).2 |}) ]>
                       (<[ js "placeholder" := [] ]>
                          (<[ js "class" := js "i-amphtml-blurry-placeholder" ]> ∅)))
                    []);
          logged := [] |}.
Proof.
  intros Hpath Hread Hdims Hresize Hencode.
  unfold addBlurryPlaceholder_, getDataURI_.
  rewrite getDataURI_src. change (default [] (Some src)) with src.
  rewrite Hpath. unfold mbind at 1 2. unfold Result_bind at 1 2.
  rewrite Hread. unfold mbind at 1. unfold Result_bind at 1.
  rewrite Hdims. unfold mbind at 1. unfold Result_bind at 1.
  rewrite Hresize. unfold mbind at 1. unfold Result_bind at 1.
  rewrite Hencode. unfold mbind, Result_bind, catch.
  unfold createElement. cbn [setAttribute].
  rewrite insert_insert_eq. reflexivity.
Qed.

(** X7. A unit fails in one way only, whichever step of jimp rejects:
    when reading the file, resizing the bitmap or encoding it is rejected
    with a reason, the promise of the unit is still fulfilled, with
    [undefined], and exactly one line is logged, which names the resolved
    path and ends with that reason. *)
Theorem addBlurryPlaceholder_failure (src : jsstring) (params : Params)
    (imageSrc reason : jsstring) :
  resolvePath_ (default [] (imageBasePath params)) src = Ok imageSrc ->
  (jimp_read imageSrc = Err reason
   \/ exists image dims,
        jimp_read imageSrc = Ok image
        /\ getBitmapDimensions_ (ofZ (bitmap image).1) (ofZ (bitmap image).2) = Ok dims
        /\ (jimp_resize image (width dims) (height dims) = Err reason
            \/ exists resized,
                 jimp_resize image (width dims) (height dims) = Ok resized
                 /\ getBase64Async resized = Err reason)) ->
  addBlurryPlaceholder_ src params
  = Ok {| fulfilled := None;
          logged := [js "[AddBlurryImagePlaceholders]  "
                     ++ js "Could not create placeholder for " ++ imageSrc
                     ++ js ". Reason: " ++ reason] |}.
Proof.
  intros Hpath Hsteps.
  unfold addBlurryPlaceholder_, getDataURI_.
  rewrite getDataURI_src. change (default [] (Some src)) with src.
  rewrite Hpath. unfold mbind at 1 2. unfold Result_bind at 1 2.
  destruct Hsteps as [Hread|(image & dims & Hread & Hdims & Hsteps)].
  { rewrite Hread. reflexivity. }
  rewrite Hread. unfold mbind at 1. unfold Result_bind at 1.
  rewrite Hdims. unfold mbind at 1. unfold Result_bind at 1.
  destruct Hsteps as [Hresize|(resized & Hresize & Hencode)].
  { rewrite Hresize. reflexivity. }
  rewrite Hresize. unfold mbind at 1. unfold Result_bind at 1.
  rewrite Hencode. reflexivity.
Qed.

(** X8. The promise returned by [transform] is rejected in one case only:
    some unit was fulfilled with [undefined] and the tree adapter's
    [appendChild] raises when it is handed [undefined]; the rejection then
    carries the error of [appendChild]. When every unit yields its [img],
    [Promise.all] is fulfilled on every tree adapter. *)
Theorem Promise_all_outcome (schedule : list Launch) :
  (Promise_all schedule = Ok ()
   <-> appendChild_undefined = Ignored
       \/ Forall (fun l => is_Some (fulfilled (settled l))) schedule)
  /\ (forall message,
        Promise_all schedule = Err message ->
        appendChild_undefined = Raises message
        /\ exists l, l ∈ schedule /\ fulfilled (settled l) = None).
Proof.
  induction schedule as [|l rest [IH1 IH2]].
  - split; [|discriminate]. split; [intros _; right; constructor|reflexivity].
  - cbn [Promise_all]. unfold appended.
    destruct (fulfilled (settled l)) as [img|] eqn:Ef.
    + change (_ ← Ok (); Promise_all rest) with (Promise_all rest). split.
      * rewrite IH1, Forall_cons, Ef. split; [|tauto].
        intros [H|H]; [left; exact H|right; split; [eauto|exact H]].
      * intros message [Hdom (l' & Hl' & Hnone)]%IH2. split; [exact Hdom|].
        exists l'. split; [right; exact Hl'|exact Hnone].
    + destruct appendChild_undefined as [|message'] eqn:Hdom.
      * change (_ ← Ok (); Promise_all rest) with (Promise_all rest). split.
        -- rewrite IH1. split; [intros _; left; reflexivity|].
           intros _. left. reflexivity.
        -- intros message [Hbad _]%IH2. discriminate Hbad.
      * change (_ ← Err message'; Promise_all rest) with (@Err unit message'). split.
        -- split; [discriminate|]. intros [H|H]; [discriminate H|].
           apply Forall_cons in H as [[img Himg] _]. congruence.
        -- intros message [= <-]. split; [reflexivity|].
           exists l. split; [left|exact Ef].
Qed.

End Outcome.

Lemma addBlurryPlaceholder_success_witness :
  exists img : Node,
    @addBlurryPlaceholder_ samplePlatform (js "a.jpg") defaultParams
    = Ok {| fulfilled := Some img; logged := [] |}
    /\ attr img "class" = Some (js "i-amphtml-blurry-placeholder")
    /\ attr img "placeholder" = Some []
    /\ childNodes img = [].
Proof.
  eexists. split.
  - apply (@addBlurryPlaceholder_success samplePlatform (js "a.jpg") defaultParams
             (js "/srv//a.jpg") (640, 480)%Z (9, 7)%Z
             {| width := ofZ 9; height := ofZ 7 |} (js "data:image/png;base64,AAAA"));
      vm_compute; reflexivity.
  - split; [|split]; reflexivity.
Defined.

Lemma addBlurryPlaceholder_failure_witness :
  @addBlurryPlaceholder_ samplePlatform (js "bad.jpg") defaultParams
  = Ok {| fulfilled := None;
          logged := [js "[AddBlurryImagePlaceholders]  "
                     ++ js "Could not create placeholder for " ++ js "/srv//bad.jpg"
                     ++ js ". Reason: " ++ js "Could not find MIME for Buffer"] |}.
Proof.
  apply (@addBlurryPlaceholder_failure samplePlatform (js "bad.jpg") defaultParams).
  - vm_compute. reflexivity.
  - left. vm_compute. reflexivity.
Defined.

(** ** Which elements are accepted *)

(** X9. The elements the loop of [transform] accepts, in terms of the
    element alone. An [amp-img] is accepted exactly when its [src] ends in
    [.jpg] or [jpeg], it has no [noloading] attribute, its [layout] is
    [responsive], and no child is a placeholder. An [amp-video] is accepted
    exactly when its [poster] ends in [.jpg] or [jpeg] and no child is a
    placeholder: its [src], [layout] and [noloading] are not looked at. No
    other node is accepted. *)
Theorem qualifies_by_tag (node : Node) :
  let jpeg (reference : option jsstring) :=
    exists s, reference = Some s
              /\ (endsWith s (js ".jpg") = true \/ endsWith s (js "jpeg") = true) in
  qualifies node = true
  <-> hasPlaceholder_ node = false
      /\ (tagName node = Some (js "amp-img")
          /\ jpeg (attr node "src")
          /\ attr node "noloading" = None
          /\ attr node "layout" = Some (js "responsive")
          \/ tagName node = Some (js "amp-video") /\ jpeg (attr node "poster")).
Proof.
  intros jpeg.
  assert (forall reference,
            truthy reference
            && (endsWith (default [] reference) (js ".jpg")
                || endsWith (default [] reference) (js "jpeg")) = true
            <-> jpeg reference) as Hjpeg.
  { intros [s|]; unfold jpeg.
    - change (default [] (Some s)) with s. rewrite andb_true_iff, orb_true_iff. split.
      + intros [_ H]. eauto.
      + intros (s' & [= <-] & H). split; [|exact H].
        destruct s; [|reflexivity]. destruct H as [H|H]; discriminate H.
    - split; [discriminate|]. intros (s & [=] & _). }
  unfold qualifies. rewrite shouldAdd_conjunction.
  destruct (decide (tagName node = Some (js "amp-img"))) as [Himg|Himg];
    destruct (decide (tagName node = Some (js "amp-video"))) as [Hvideo|Hvideo].
  - rewrite Himg in Hvideo. apply (inj Some) in Hvideo. vm_compute in Hvideo.
    discriminate Hvideo.
  - assert (candidateSource node = attr node "src") as ->.
    { unfold candidateSource.
      rewrite (bool_decide_eq_true_2 _ Himg), (bool_decide_eq_false_2 _ Hvideo).
      reflexivity. }
    rewrite !(bool_decide_eq_true_2 _ Himg), (bool_decide_eq_false_2 _ Hvideo).
    cbn [andb orb].
    rewrite <- Hjpeg, !andb_true_iff, !negb_true_iff, bool_decide_eq_true,
      bool_decide_eq_false.
    destruct (attr node "noloading") as [value|].
    + split; [intros ((_ & Hn) & _); exfalso; apply Hn; discriminate|].
      intros (_ & [(_ & _ & [=] & _)|(Hv & _)]). contradiction.
    + split; [intros ((((Ht & Hp) & He) & _) & Hl); auto 10|].
      intros (Hp & [(_ & (Ht & He) & _ & Hl)|(Hv & _)]); [|contradiction].
      split_and!; auto.
  - assert (candidateSource node
            = if truthy (attr node "poster") then attr node "poster" else None) as ->.
    { unfold candidateSource.
      rewrite (bool_decide_eq_false_2 _ Himg), (bool_decide_eq_true_2 _ Hvideo).
      reflexivity. }
    rewrite !(bool_decide_eq_false_2 _ Himg), (bool_decide_eq_true_2 _ Hvideo).
    cbn [andb orb negb]. rewrite !andb_true_r.
    rewrite <- (Hjpeg (attr node "poster")), !andb_true_iff, !negb_true_iff.
    destruct (truthy (attr node "poster")) eqn:Et.
    + split; [intros ((Ht & Hp) & He); auto 10|].
      intros (Hp & [(Hi & _)|(_ & _ & He)]); [contradiction|]. auto.
    + split; [intros ((Ht & _) & _); discriminate Ht|].
      intros (_ & [(Hi & _)|(_ & Hf & _)]); [contradiction|discriminate Hf].
  - rewrite (bool_decide_eq_false_2 _ Hvideo), !(bool_decide_eq_false_2 _ Himg).
    cbn [andb orb]. rewrite andb_false_r. split; [discriminate|].
    intros (_ & [(Hi & _)|(Hv & _)]); contradiction.
Qed.

(** ** Degenerate source sizes *)

(** X10. A source width of 0 does not make [getBitmapDimensions_] fail
    either, whatever the height [x] is: the ratio is a zero, the height
    becomes the square root of an infinity and the width 60 divided by it.
    The call returns 0 x Infinity for a positive [x], and NaN x NaN when
    [x] is negative, zero or NaN; neither is a size a bitmap can have. *)
Theorem getBitmapDimensions_zero_width (x : number) :
  getBitmapDimensions_ (ofZ 0) x
    = Ok match x with
         | S754_infinity false | S754_finite false _ _ =>
             {| width := S754_zero false; height := Infinity |}
         | _ => {| width := NaN; height := NaN |}
         end.
Proof. destruct x as [s|s| |s m e]; try destruct s; vm_compute; reflexivity. Qed.

(** ** Whole runs *)

(** X11. On a document that has no [template] element from [body] on,
    [transform] returns and accepts exactly the first 5 qualifying
    elements in document order, all of them when fewer qualify. The
    counter equals the number of units launched, and the loop body ran
    for the nodes up to the 5th accepted element and for no other. *)
Theorem transform_without_template {platform : Platform} (tree : TreeAdapter)
    (params : option Params) (region : list Node) :
  bodyRegion tree = Some region ->
  Forall (fun n => isTemplate n = false) (forestOrder region) ->
  let order := forestOrder region in
  exists s : LoopState,
    transform tree params = Returned s
    /\ map target (promises s)
       = take MAX_BLURRED_PLACEHOLDERS
           (List.filter (qualifiesAt order) (seq 0 (length order)))
    /\ placeholders s = length (promises s)
    /\ length (promises s) <= MAX_BLURRED_PLACEHOLDERS
    /\ visited s = upToNth order MAX_BLURRED_PLACEHOLDERS (seq 0 (length order))
    /\ (length (promises s) = MAX_BLURRED_PLACEHOLDERS ->
        last (visited s) = last (map target (promises s))).
Proof.
  intros Hregion Hall order.
  destruct (first_five_on_cursor_path tree params region Hregion)
    as (s & Hs & Hp & Hle & Ht & Hv & _ & Hmax & Hpath).
  fold order in Ht, Hv, Hpath. rewrite (Hpath Hall) in Ht, Hv.
  exists s. split_and!; auto.
  - destruct Hs as [Hs|Hs]; [exact Hs|].
    destruct (transform_no_template tree params region s Hregion Hall Hs).
  - intros H5. apply Hmax, H5.
Qed.

Lemma transform_without_template_witness :
  let tree := document [ampImg "1.jpg"; Text (js "caption"); ampImg "2.png";
                        ampImg "3.jpg"] in
  exists s : LoopState,
    @transform samplePlatform tree None = Returned s
    /\ map target (promises s) = [1; 4].
Proof.
  intros tree.
  destruct (@transform_without_template samplePlatform tree None
              [Element (js "body") ∅
                 [ampImg "1.jpg"; Text (js "caption"); ampImg "2.png"; ampImg "3.jpg"]]
              eq_refl ltac:(repeat constructor))
    as (s & Hs & Ht & _).
  exists s. split; [exact Hs|]. rewrite Ht. vm_compute. reflexivity.
Defined.

(** X12. What a run leaves in the tree for a later run to see. Once the
    units have settled, an accepted element qualifies again exactly when
    its unit failed: the placeholder a successful unit appends is what
    [hasPlaceholder_] looks for, while a failed unit leaves no trace, so
    that a later run tries that element again. *)
Theorem accepted_element_after_settling {platform : Platform} (tree : TreeAdapter)
    (params : option Params) (region : list Node) (s : LoopState)
    (l : Launch) (n : Node) :
  bodyRegion tree = Some region ->
  transform tree params = Returned s ->
  l ∈ promises s ->
  forestOrder region !! target l = Some n ->
  let settledNode := place (handedTo (promises s)) (target l) n in
  (exists region',
      bodyRegion (settledTree tree (promises s)) = Some region'
      /\ settledNode ∈ forestOrder region')
  /\ (qualifies settledNode = true <-> fulfilled (settled l) = None).
Proof.
  intros Hregion Hret Hl Hn settledNode.
  destruct (transform_spec tree params region Hregion) as (s' & Hs' & _ & Hall & _).
  assert (s' = s) as -> by (destruct Hs' as [Hs'|Hs']; congruence).
  set (P := default defaultParams params) in *.
  set (order := forestOrder region) in *.
  pose proof (handedTo_target P order (promises s) l Hall Hl) as Hunit.
  pose proof (proj1 (Forall_forall _ _) Hall l Hl) as (n' & Hn' & Hq & _).
  rewrite Hn in Hn'. injection Hn' as <-.
  split.
  - eexists. split; [apply settled_region, Hregion|].
    apply (placeForest_member (handedTo (promises s)) region 0 (target l)), Hn.
  - unfold settledNode. split.
    + intros Hq'. apply qualifies_place in Hq' as [Hnone _]; [congruence|].
      intros img Himg. apply (handedTo_placeholder P order (promises s) _ img Hall Himg).
    + intros Hnone. rewrite qualifies_place_none by congruence. exact Hq.
Qed.

Lemma accepted_element_after_settling_witness :
  let tree := document [ampImg "a.jpg"; ampImg "bad.jpg"] in
  exists (s : LoopState) (good bad : Launch) (n m : Node),
    @transform samplePlatform tree None = Returned s
    /\ promises s = [good; bad]
    /\ qualifies (place (handedTo (promises s)) (target good) n) = false
    /\ qualifies (place (handedTo (promises s)) (target bad) m) = true.
Proof.
  intros tree.
  pose (s := stateOf (@transform samplePlatform tree None)).
  assert (@transform samplePlatform tree None = Returned s) as Hret
    by (vm_compute; reflexivity).
  pose (region := [Element (js "body") ∅ [ampImg "a.jpg"; ampImg "bad.jpg"]]).
  assert (exists good bad, promises s = [good; bad]
                           /\ target good = 1 /\ target bad = 2
                           /\ fulfilled (settled good) <> None
                           /\ fulfilled (settled bad) = None)
    as (good & bad & Hp & Hg & Hb & Hfg & Hfb).
  { eexists _, _. split; [vm_compute; reflexivity|].
    split; [reflexivity|]. split; [reflexivity|]. split; [discriminate|reflexivity]. }
  exists s, good, bad, (ampImg "a.jpg"), (ampImg "bad.jpg").
  split; [exact Hret|]. split; [exact Hp|]. split.
  - apply not_true_iff_false. intros Hq. apply Hfg.
    refine (proj1 (proj2 (@accepted_element_after_settling samplePlatform tree None
                            region s good (ampImg "a.jpg") eq_refl Hret _ _)) Hq).
    + rewrite Hp. left.
    + rewrite Hg. reflexivity.
  - refine (proj2 (proj2 (@accepted_element_after_settling samplePlatform tree None
                            region s bad (ampImg "bad.jpg") eq_refl Hret _ _)) Hfb).
    + rewrite Hp. right. left.
    + rewrite Hb. reflexivity.
Defined.

Section TemplateAtTheEnd.
Context {platform : Platform}.
Variable params : Params.
Variable order : list Node.


End TemplateAtTheEnd.



Section Counting.
Variable unit : nat -> option Node.
Variable f : Node -> bool.
Hypothesis f_place : forall i n, f (place unit i n) = f n.
Hypothesis f_unit :
  forall i img, unit i = Some img -> length (List.filter f (documentOrder img)) = 1.

(** The number of positions from [i] on, [len] of them, that are handed a
    child. *)
Lemma handed_cons (i len : nat) :
  length (filter (fun k => is_Some (unit k)) (seq i (S len)))
  = length (option_list (unit i))
    + length (filter (fun k => is_Some (unit k)) (seq (S i) len)).
Proof.
  cbn [seq]. rewrite filter_cons. destruct (unit i) as [img|].
  - rewrite decide_True by eauto. reflexivity.
  - rewrite decide_False by (intros [? [=]]). reflexivity.
Qed.

Lemma handed_app (i len len' : nat) :
  length (filter (fun k => is_Some (unit k)) (seq i (len + len')))
  = length (filter (fun k => is_Some (unit k)) (seq i len))
    + length (filter (fun k => is_Some (unit k)) (seq (i + len) len')).
Proof. rewrite seq_app, filter_app, length_app. reflexivity. Qed.

Lemma place_count (n : Node) :
  forall i,
    (forall k m, documentOrder n !! k = Some m -> attribs m = None ->
                 unit (i + k) = None) ->
    length (List.filter f (documentOrder (place unit i n)))
    = length (List.filter f (documentOrder n))
      + length (filter (fun k => is_Some (unit k)) (seq i (length (documentOrder n)))).
Proof using f_place f_unit.
  induction n as [tag attrs children IH|data] using Node_ind; intros i Htext.
  - assert (forall j,
              (forall k m, forestOrder children !! k = Some m -> attribs m = None ->
                           unit (j + k) = None) ->
              length (List.filter f (forestOrder (placeForest unit j children)))
              = length (List.filter f (forestOrder children))
                + length (filter (fun k => is_Some (unit k))
                            (seq j (length (forestOrder children))))) as Hforest.
    { clear Htext. induction IH as [|c rest Hc _ IHrest]; intros j Htext; [reflexivity|].
      cbn [placeForest]. rewrite !forestOrder_cons, !List.filter_app, !length_app.
      rewrite handed_app, Hc, IHrest; [lia| |].
      - intros k m Hk Hm.
        replace (j + length (documentOrder c) + k)
          with (j + (length (documentOrder c) + k)) by lia.
        apply (Htext _ m); [|exact Hm]. rewrite forestOrder_cons.
        rewrite lookup_app_r by lia.
        replace (length (documentOrder c) + k - length (documentOrder c)) with k by lia.
        exact Hk.
      - intros k m Hk Hm. apply (Htext _ m); [|exact Hm]. rewrite forestOrder_cons.
        rewrite lookup_app_l; [exact Hk|]. apply lookup_lt_Some in Hk. exact Hk. }
    pose proof (f_place i (Element tag attrs children)) as Hroot.
    rewrite place_Element in *. rewrite !documentOrder_Element, forestOrder_app.
    cbn [List.filter length]. rewrite Hroot, handed_cons.
    assert (length (List.filter f (forestOrder (option_list (unit i))))
            = length (option_list (unit i))) as Himg.
    { destruct (unit i) as [img|] eqn:Hu; [|reflexivity].
      change (option_list (Some img)) with [img].
      rewrite forestOrder_cons. cbn [forestOrder flat_map length].
      rewrite app_nil_r. apply (f_unit i), Hu. }
    destruct (f (Element tag attrs children)); cbn [length];
      rewrite List.filter_app, length_app, Himg, Hforest; try lia.
    all: intros k m Hk Hm; replace (S i + k) with (i + S k) by lia;
      apply (Htext (S k) m); [exact Hk|exact Hm].
  - cbn [place documentOrder length seq]. rewrite filter_cons.
    rewrite decide_False; [cbn; lia|].
    rewrite <- (Nat.add_0_r i), (Htext 0 (Text data)) by reflexivity.
    intros [? [=]].
Qed.

Lemma placeForest_count (nodes : list Node) :
  forall i,
    (forall k m, forestOrder nodes !! k = Some m -> attribs m = None ->
                 unit (i + k) = None) ->
    length (List.filter f (forestOrder (placeForest unit i nodes)))
    = length (List.filter f (forestOrder nodes))
      + length (filter (fun k => is_Some (unit k)) (seq i (length (forestOrder nodes)))).
Proof using f_place f_unit.
  induction nodes as [|c rest IH]; intros i Htext; [reflexivity|].
  cbn [placeForest]. rewrite !forestOrder_cons, !List.filter_app, !length_app.
  rewrite handed_app, place_count, IH; [lia| |].
  - intros k m Hk Hm.
    replace (i + length (documentOrder c) + k)
      with (i + (length (documentOrder c) + k)) by lia.
    apply (Htext _ m); [|exact Hm]. rewrite forestOrder_cons.
    rewrite lookup_app_r by lia.
    replace (length (documentOrder c) + k - length (documentOrder c)) with k by lia.
    exact Hk.
  - intros k m Hk Hm. apply (Htext _ m); [|exact Hm]. rewrite forestOrder_cons.
    rewrite lookup_app_l; [exact Hk|]. apply lookup_lt_Some in Hk. exact Hk.
Qed.

End Counting.

Lemma handed_successes {platform : Platform} (params : Params) (order : list Node)
    (promises : list Launch) :
  Forall (launchedFor params order) promises ->
  NoDup (map target promises) ->
  length (filter (fun k => is_Some (handedTo promises k)) (seq 0 (length order)))
  = length (filter (fun l => is_Some (fulfilled (settled l))) promises).
Proof.
  intros Hall Hnodup.
  rewrite <- (length_map target (filter _ promises)).
  apply Permutation_length, NoDup_Permutation.
  - apply NoDup_filter, NoDup_seq.
  - apply (sublist_NoDup _ (map target promises)); [exact Hnodup|].
    apply fmap_sublist, sublist_filter; apply _.
  - intros k. rewrite list_elem_of_filter, elem_of_seq, list_elem_of_fmap. split.
    + intros [[img (l & Hl & <- & Himg)%handedTo_Some] _].
      exists l. split; [reflexivity|]. apply list_elem_of_filter. split; [eauto|exact Hl].
    + intros (l & -> & [Hsome Hl]%list_elem_of_filter).
      rewrite (handedTo_target params order promises l Hall Hl). split; [exact Hsome|].
      pose proof (proj1 (Forall_forall _ _) Hall l Hl) as (n & Hn & _).
      apply lookup_lt_Some in Hn. lia.
Qed.

(** X14. A run adds one node for each unit that succeeds and changes
    nothing else in the number of nodes: once the units have settled, the
    document from [body] on has as many more nodes, and as many more
    placeholders, as there are successful units, and these are at most
    5. *)
Theorem run_adds_one_placeholder_per_success {platform : Platform}
    (tree : TreeAdapter) (params : option Params) (region : list Node)
    (s : LoopState) :
  bodyRegion tree = Some region ->
  transform tree params = Returned s ->
  let successes :=
    length (filter (fun l => is_Some (fulfilled (settled l))) (promises s)) in
  exists region' : list Node,
    bodyRegion (settledTree tree (promises s)) = Some region'
    /\ length (forestOrder region') = length (forestOrder region) + successes
    /\ placeholdersIn (settledTree tree (promises s)) = placeholdersIn tree + successes
    /\ successes <= MAX_BLURRED_PLACEHOLDERS.
Proof.
  intros Hregion Hret successes.
  destruct (first_five_on_cursor_path tree params region Hregion)
    as (s' & Hs' & _ & Hle & _).
  assert (s' = s) as -> by (destruct Hs' as [Hs'|Hs']; congruence).
  destruct (transform_spec tree params region Hregion) as (s' & Hs'' & _ & Hall & _).
  assert (s' = s) as -> by (destruct Hs'' as [Hs''|Hs'']; congruence).
  set (P := default defaultParams params) in *.
  set (unit := handedTo (promises s)).
  pose proof (targets_NoDup tree params region s Hregion Hret) as Hnodup.
  pose proof (handed_successes P (forestOrder region) (promises s) Hall Hnodup) as Hcount.
  fold unit successes in Hcount.
  assert (forall i img, unit i = Some img ->
            isPlaceholder img = true /\ documentOrder img = [img]) as Himg.
  { intros i img Hu.
    destruct (handedTo_placeholder P (forestOrder region) (promises s) i img Hall Hu) as (H1 & _ & _ & H2).
    auto. }
  assert (forall k m, forestOrder region !! k = Some m -> attribs m = None ->
                      unit (0 + k) = None) as Htext.
  { intros k m Hk Hm. destruct (unit (0 + k)) as [img|] eqn:Hu; [|reflexivity].
    apply handedTo_Some in Hu as (l & Hl & Ht & _).
    pose proof (proj1 (Forall_forall _ _) Hall l Hl) as (n & Hn & Hq & _).
    rewrite Ht in Hn. cbn in Hn. rewrite Hk in Hn. injection Hn as <-.
    apply qualifies_element in Hq as (? & ? & ? & ->). discriminate Hm. }
  exists (placeForest unit 0 region).
  split; [apply settled_region, Hregion|]. split; [|split].
  - pose proof (placeForest_count unit (fun _ => true)
                  ltac:(reflexivity)
                  ltac:(intros i img Hu; rewrite (proj2 (Himg i img Hu)); reflexivity)
                  region 0 Htext) as H.
    assert (forall l : list Node, List.filter (fun _ => true) l = l) as Hid
      by (intros l; induction l as [|x l IH]; [reflexivity|cbn; rewrite IH; reflexivity]).
    rewrite !Hid in H. rewrite H, Hcount. reflexivity.
  - unfold placeholdersIn. rewrite (settled_region tree region (promises s) Hregion), Hregion.
    fold unit. rewrite <- Hcount.
    apply (placeForest_count unit isPlaceholder); [apply place_isPlaceholder| |exact Htext].
    intros i img Hu. destruct (Himg i img Hu) as [Hp ->]. cbn [List.filter].
    rewrite Hp. reflexivity.
  - unfold successes. etransitivity; [apply length_filter|exact Hle].
Qed.

Lemma run_adds_one_placeholder_per_success_witness :
  let tree := document [ampImg "a.jpg"; ampImg "bad.jpg"; ampImg "c.jpg"] in
  exists s : LoopState,
    @transform samplePlatform tree None = Returned s
    /\ placeholdersIn tree = 0
    /\ placeholdersIn (settledTree tree (promises s)) = 2.
Proof.
  intros tree.
  pose (s := stateOf (@transform samplePlatform tree None)).
  assert (@transform samplePlatform tree None = Returned s) as Hret
    by (vm_compute; reflexivity).
  exists s. split; [exact Hret|]. split; [reflexivity|].
  destruct (@run_adds_one_placeholder_per_success samplePlatform tree None _ s
              eq_refl Hret) as (region' & _ & _ & -> & _).
  vm_compute. reflexivity.
Defined.

Lemma cursorPath_in_range (order : list Node) (fuel : nat) (node : option nat) (j : nat) :
  j ∈ cursorPath order fuel node -> j < length order.
Proof.
  revert node. induction fuel as [|fuel IH]; intros [i|]; cbn [cursorPath];
    try (intros H; inversion H; fail).
  destruct (order !! i) as [n|] eqn:Hn; [|intros H; inversion H].
  intros [->|Hj]%elem_of_cons; [exact (lookup_lt_Some _ _ _ Hn)|].
  destruct (isTemplate n); [destruct (skipNodeAndChildren order i)|]; eauto.
  inversion Hj.
Qed.

(** X15. The loop of [transform] ends on every document that has a
    [body]: the walk starts at [body] itself and every step moves the
    cursor forward in document order, so that the loop body runs at most
    once for a node and at most as often as there are nodes from [body]
    on; [transform] then returns or throws. *)
Theorem transform_visits_once {platform : Platform} (tree : TreeAdapter)
    (params : option Params) (region : list Node) :
  bodyRegion tree = Some region ->
  exists s : LoopState,
    (transform tree params = Returned s \/ transform tree params = Thrown s)
    /\ head (visited s) = Some 0
    /\ (exists body, head region = Some body /\ tagName body = Some (js "body")
                     /\ forestOrder region !! 0 = Some body)
    /\ NoDup (visited s)
    /\ (forall j, j ∈ visited s -> j < length (forestOrder region))
    /\ length (visited s) <= length (forestOrder region).
Proof.
  intros Hregion.
  destruct (first_five_on_cursor_path tree params region Hregion)
    as (s & Hs & _ & _ & _ & Hv & [rest Hprefix] & _).
  pose proof (cursorPath_NoDup (forestOrder region) (length (forestOrder region)) (Some 0))
    as Hnodup.
  pose proof (cursorPath_in_range (forestOrder region) (length (forestOrder region)) (Some 0))
    as Hrange.
  rewrite Hprefix in Hnodup, Hrange.
  apply NoDup_app in Hnodup as (Hnodup & _ & _).
  assert (forall j, j ∈ visited s -> j < length (forestOrder region)) as Hlt
    by (intros j Hj; apply Hrange, elem_of_app; left; exact Hj).
  pose proof Hregion as (? & ? & ? & ? & ? & ? & body & afterBody & afterHtml
                         & _ & _ & Hbody & _ & _ & ->)%bodyRegion_Some.
  assert (forestOrder (body :: afterBody ++ afterHtml) !! 0 = Some body) as H0
    by (rewrite forestOrder_cons; destruct body; reflexivity).
  exists s. split_and!; auto.
  - rewrite Hv. pose proof (lookup_lt_Some _ _ _ H0) as Hpos.
    destruct (length (forestOrder (body :: afterBody ++ afterHtml))) as [|fuel]; [lia|].
    cbn [cursorPath]. rewrite H0. reflexivity.
  - eauto.
  - rewrite <- (length_seq (length (forestOrder (body :: afterBody ++ afterHtml))) 0).
    apply submseteq_length, NoDup_submseteq; [exact Hnodup|].
    intros j Hj. apply elem_of_seq. specialize (Hlt j Hj). lia.
Qed.

Lemma transform_visits_once_witness :
  let tree := document [template [ampImg "x.jpg"]; Text (js "."); ampImg "1.jpg"] in
  exists s : LoopState,
    (@transform samplePlatform tree None = Returned s
     \/ @transform samplePlatform tree None = Thrown s)
    /\ head (visited s) = Some 0
    /\ NoDup (visited s).
Proof.
  intros tree.
  destruct (@transform_visits_once samplePlatform tree None _ eq_refl)
    as (s & Hs & Hhead & _ & Hnodup & _).
  exists s. auto.
Defined.
